(** * Job tracker: the record store behind the Applications and Tasks pages

    A shallow embedding of the data-access layer of the job tracker:
    - the zod schemas [applicationSchema] and [taskSchema];
    - the storage declared in the SQL migration (tables, row-level security
      policies, the [valid_status] check, the foreign keys with their
      ON DELETE CASCADE action, the [update_updated_at_column] trigger);
    - the handlers of the pages (Applications, ApplicationDetail, Tasks,
      TaskDetail) that call the storage through the supabase client.

    A handler is a function from the session, the page state and the store to
    the effects it raises (toasts, navigation), the new page state and the new
    store.  The values the storage picks on its own ([uuid_generate_v4()],
    [NOW()]) are arguments of the handler.

    Conventions:
    - [user] is the identity of the session, [None] when nobody is signed
      in; it is both the [user] of [useAuth] and the [auth.uid()] the
      policies compare with;
    - a uuid is a number, a timestamp a number of microseconds, a DATE its
      Julian day number; the form fields [applicationId] and [dueDate] are
      [None] when they hold the empty string;
    - a statement fails for a reason the migration gives (a policy, the
      check, a key) or because a value of its body is not one of the column
      type (text the storage cannot hold, a date out of range); the one
      exception is the cascading delete, whose run may be cut short by the
      storage (see [cascade_delete]). *)

From stdpp Require Import gmap strings list sorting pretty.
From Stdlib Require Import ZArith Ascii.

Open Scope string_scope.
Open Scope list_scope.

(** ** JavaScript strings

    A JavaScript string is a sequence of UTF-16 code units; [length] counts
    code units, which is what zod's [min] and [max] compare. *)

Abbreviation jsstring := (list N).
Abbreviation uuid := N.
Abbreviation timestamptz := Z.
Abbreviation date := Z.

(** A string literal of the source, as code units. *)
Definition js (s : string) : jsstring :=
  (λ ch, N_of_ascii ch) <$> String.list_ascii_of_string s.

(** WhiteSpace and LineTerminator code points of ECMAScript, the ones
    [String.prototype.trim] strips. *)
Definition is_white_space (ch : N) : bool :=
  ((9 <=? ch) && (ch <=? 13)     (* TAB, LF, VT, FF, CR *)
   || (ch =? 32) || (ch =? 160)    (* SP, NBSP *)
   || (ch =? 5760)                 (* U+1680 *)
   || ((8192 <=? ch) && (ch <=? 8202)) (* U+2000 .. U+200A *)
   || (ch =? 8232) || (ch =? 8233) (* LS, PS *)
   || (ch =? 8239) || (ch =? 8287) (* U+202F, U+205F *)
   || (ch =? 12288) || (ch =? 65279))%N. (* U+3000, U+FEFF *)

Fixpoint trimStart (s : jsstring) : jsstring :=
  match s with
  | [] => []
  | ch :: s' => if is_white_space ch then trimStart s' else s
  end.

Definition trimEnd (s : jsstring) : jsstring :=
  reverse (trimStart (reverse s)).

Definition trim (s : jsstring) : jsstring := trimEnd (trimStart s).

(** [s || null] on a string: the empty string is falsy. *)
Definition or_null (s : jsstring) : option jsstring :=
  match s with [] => None | _ => Some s end.

(** [v || ''] on a nullable string. *)
Definition or_empty (v : option jsstring) : jsstring :=
  match v with Some (ch :: s) => ch :: s | _ => [] end.

(** ** Values the storage can hold

    The body of a statement travels as JSON and its strings become TEXT.
    The storage refuses the code unit U+0000 and a surrogate that is not
    half of a pair (a high surrogate D800..DBFF followed by a low one
    DC00..DFFF); a code unit is below 65536. *)
Definition is_high_surrogate (ch : N) : bool :=
  ((55296 <=? ch) && (ch <=? 56319))%N.

Definition is_low_surrogate (ch : N) : bool :=
  ((56320 <=? ch) && (ch <=? 57343))%N.

Fixpoint storable_text (s : jsstring) : bool :=
  match s with
  | [] => true
  | ch :: s' =>
      if is_high_surrogate ch
      then match s' with
           | lo :: s'' => is_low_surrogate lo && storable_text s''
           | [] => false
           end
      else negb (ch =? 0)%N && negb (is_low_surrogate ch) && (ch <? 65536)%N
           && storable_text s'
  end.

(** A nullable TEXT value. *)
Definition storable_nullable (v : option jsstring) : bool :=
  match v with Some s => storable_text s | None => true end.

(** DATE holds the Julian days 0 (4714-11-24 BC) up to, not including,
    2147483494 (5874898-01-01). *)
Definition date_in_range (d : date) : bool :=
  ((0 <=? d) && (d <? 2147483494))%Z.

Definition storable_date (v : option date) : bool :=
  match v with Some d => date_in_range d | None => true end.

(** ** zod: string schemas and object schemas

    [ZodString._parse] runs its checks in the order they were chained; [trim]
    replaces the data, [min] and [max] add an issue and go on.  An object
    schema parses its keys in declaration order and concatenates the issues;
    [parse] throws a [ZodError] carrying them when there is one. *)

Module Zod.

Inductive Check :=
| Trim
| Min (n : nat) (message : option string)
| Max (n : nat) (message : option string).

Inductive Code := invalid_type | too_small | too_big.

Record Issue := { path : string; code : Code; message : string }.

Record StringSchema := { checks : list Check; optional : bool }.

(** Default messages of zod 3's error map. *)
Definition too_small_default (n : nat) : string :=
  "String must contain at least " +:+ pretty n +:+ " character(s)".
Definition too_big_default (n : nat) : string :=
  "String must contain at most " +:+ pretty n +:+ " character(s)".

Fixpoint run_checks (key : string) (cs : list Check) (data : jsstring)
  : list Issue :=
  match cs with
  | [] => []
  | Trim :: cs' => run_checks key cs' (trim data)
  | Min n msg :: cs' =>
      (if (List.length data <? n)%nat
       then [ {| path := key; code := too_small;
                 message := default (too_small_default n) msg |} ]
       else [])
      ++ run_checks key cs' data
  | Max n msg :: cs' =>
      (if (n <? List.length data)%nat
       then [ {| path := key; code := too_big;
                 message := default (too_big_default n) msg |} ]
       else [])
      ++ run_checks key cs' data
  end.

(** A key of the parsed object holds a string or is [undefined]. *)
Definition parse_key (key : string) (sch : StringSchema)
    (value : option jsstring) : list Issue :=
  match value with
  | Some data => run_checks key (checks sch) data
  | None =>
      if optional sch then []
      else [ {| path := key; code := invalid_type; message := "Required" |} ]
  end.

Definition ObjectSchema := list (string * StringSchema).

(** The issues of [schema.parse(obj)]; the empty list when it returns. *)
Fixpoint issues (sch : ObjectSchema) (obj : string → option jsstring)
  : list Issue :=
  match sch with
  | [] => []
  | (key, s) :: sch' => parse_key key s (obj key) ++ issues sch' obj
  end.

End Zod.

Definition applicationSchema : Zod.ObjectSchema :=
  [ ("company",
      {| Zod.checks := [Zod.Trim; Zod.Min 1 (Some "Company name is required");
                        Zod.Max 100 None];
         Zod.optional := false |});
    ("position",
      {| Zod.checks := [Zod.Trim; Zod.Min 1 (Some "Position is required");
                        Zod.Max 100 None];
         Zod.optional := false |});
    ("notes",
      {| Zod.checks := [Zod.Max 1000 None]; Zod.optional := true |}) ].

Definition taskSchema : Zod.ObjectSchema :=
  [ ("title",
      {| Zod.checks := [Zod.Trim; Zod.Min 1 (Some "Title is required");
                        Zod.Max 200 None];
         Zod.optional := false |});
    ("notes",
      {| Zod.checks := [Zod.Max 1000 None]; Zod.optional := true |}) ].

(** The object literals the handlers pass to [parse]. *)
Definition application_object (company position notes : jsstring)
  : string → option jsstring :=
  λ key, if String.eqb key "company" then Some company
         else if String.eqb key "position" then Some position
         else if String.eqb key "notes" then Some notes
         else None.

Definition task_object (title notes : jsstring) : string → option jsstring :=
  λ key, if String.eqb key "title" then Some title
         else if String.eqb key "notes" then Some notes
         else None.

(** ** The storage: tables of the migration *)

Record application_row := {
  app_user_id : uuid;
  app_company : jsstring;
  app_position : jsstring;
  app_status : jsstring;
  app_notes : option jsstring;
  app_created_at : timestamptz;
  app_updated_at : timestamptz }.

Record task_row := {
  task_application_id : uuid;
  task_user_id : uuid;
  task_title : jsstring;
  task_due_date : option date;
  task_completed : bool;
  task_notes : option jsstring;
  task_created_at : timestamptz;
  task_updated_at : timestamptz }.

(** A table is a finite map from its primary key [id] to the other columns. *)
Record DB := {
  db_profiles : gset uuid;
  db_applications : gmap uuid application_row;
  db_tasks : gmap uuid task_row }.

Global Instance application_eq_dec : EqDecision application_row.
Proof. solve_decision. Defined.
Global Instance task_eq_dec : EqDecision task_row.
Proof. solve_decision. Defined.

Definition with_applications (db : DB) (apps : gmap uuid application_row) : DB :=
  {| db_profiles := db_profiles db; db_applications := apps;
     db_tasks := db_tasks db |}.

Definition with_tasks (db : DB) (ts : gmap uuid task_row) : DB :=
  {| db_profiles := db_profiles db; db_applications := db_applications db;
     db_tasks := ts |}.

Inductive PgError :=
| untranslatable_character
| datetime_field_overflow
| row_level_security_violation
| check_violation
| unique_violation
| foreign_key_violation
| statement_aborted.

(** CONSTRAINT valid_status CHECK (status IN (...)) *)
Definition valid_status (status : jsstring) : bool :=
  bool_decide (status ∈ [js "applied"; js "interview"; js "offer"; js "rejected"]).

(** The four policies of a table share one predicate, [auth.uid() = user_id];
    [auth.uid()] is NULL without a session and the comparison is then not
    true. *)
Definition users_own_application (auth_uid : option uuid) (r : application_row)
  : bool := bool_decide (auth_uid = Some (app_user_id r)).

Definition users_own_task (auth_uid : option uuid) (r : task_row) : bool :=
  bool_decide (auth_uid = Some (task_user_id r)).

(** update_updated_at_column(): NEW.updated_at = NOW() *)
Definition update_applications_updated_at (now : timestamptz)
    (r : application_row) : application_row :=
  {| app_user_id := app_user_id r; app_company := app_company r;
     app_position := app_position r; app_status := app_status r;
     app_notes := app_notes r; app_created_at := app_created_at r;
     app_updated_at := now |}.

Definition update_tasks_updated_at (now : timestamptz) (r : task_row) : task_row :=
  {| task_application_id := task_application_id r;
     task_user_id := task_user_id r; task_title := task_title r;
     task_due_date := task_due_date r; task_completed := task_completed r;
     task_notes := task_notes r; task_created_at := task_created_at r;
     task_updated_at := now |}.

(** ** The statements the pages send

    Row-level security makes every statement of a session work on the rows
    its policies let through; the rows of the other users are not part of
    what a SELECT, UPDATE or DELETE ranges over. *)

Definition visible_applications (auth_uid : option uuid) (db : DB)
  : gmap uuid application_row :=
  filter (λ kv, users_own_application auth_uid kv.2 = true) (db_applications db).

Definition visible_tasks (auth_uid : option uuid) (db : DB) : gmap uuid task_row :=
  filter (λ kv, users_own_task auth_uid kv.2 = true) (db_tasks db).

(** .order('created_at', { ascending: false }) *)
Definition created_at_desc (x y : uuid * application_row) : Prop :=
  (app_created_at y.2 ≤ app_created_at x.2)%Z.

Global Instance created_at_desc_dec x y : Decision (created_at_desc x y).
Proof. unfold created_at_desc. apply _. Defined.

(** from('applications').select('*').order('created_at', ...) *)
Definition select_applications (auth_uid : option uuid) (db : DB)
  : list (uuid * application_row) :=
  merge_sort created_at_desc (map_to_list (visible_applications auth_uid db)).

(** from('applications').select('*').eq('id', id).maybeSingle() *)
Definition select_application (auth_uid : option uuid) (id : uuid) (db : DB)
  : option application_row :=
  visible_applications auth_uid db !! id.

(** The body of an insert into applications.  A key whose value is
    [undefined] is not sent: [user_id] is then NULL, [status] takes the
    column default.  The row is built from the body first, which fails on
    text the storage cannot hold; then come the policy, the check and the
    keys. *)
Record application_insert := {
  ins_user_id : option uuid;
  ins_company : jsstring;
  ins_position : jsstring;
  ins_status : option jsstring;
  ins_notes : option jsstring }.

Definition insert_application (auth_uid : option uuid) (new_id : uuid)
    (now : timestamptz) (v : application_insert) (db : DB) : PgError + DB :=
  if negb (storable_text (ins_company v) && storable_text (ins_position v)
           && storable_nullable (ins_status v)
           && storable_nullable (ins_notes v))
  then inl untranslatable_character
  else
  match ins_user_id v with
  | None => inl row_level_security_violation
  | Some owner =>
      let r := {| app_user_id := owner;
                  app_company := ins_company v;
                  app_position := ins_position v;
                  app_status := default (js "applied") (ins_status v);
                  app_notes := ins_notes v;
                  app_created_at := now;
                  app_updated_at := now |} in
      if negb (users_own_application auth_uid r)
      then inl row_level_security_violation
      else if negb (valid_status (app_status r)) then inl check_violation
      else if bool_decide (is_Some (db_applications db !! new_id))
      then inl unique_violation
      else if negb (bool_decide (owner ∈ db_profiles db))
      then inl foreign_key_violation
      else inr (with_applications db (<[new_id := r]> (db_applications db)))
  end.

Record application_update := {
  upd_company : jsstring;
  upd_position : jsstring;
  upd_status : jsstring;
  upd_notes : option jsstring }.

(** from('applications').update(v).eq('id', id): the row is rewritten with
    the columns of the body (which fails on text the storage cannot hold),
    the BEFORE UPDATE trigger stamps it, then the policy (USING doubles as
    WITH CHECK) and the constraint see the new row.  No qualifying row is
    not an error. *)
Definition update_application (auth_uid : option uuid) (id : uuid)
    (now : timestamptz) (v : application_update) (db : DB) : PgError + DB :=
  match visible_applications auth_uid db !! id with
  | None => inr db
  | Some old =>
      let new := update_applications_updated_at now
                   {| app_user_id := app_user_id old;
                      app_company := upd_company v;
                      app_position := upd_position v;
                      app_status := upd_status v;
                      app_notes := upd_notes v;
                      app_created_at := app_created_at old;
                      app_updated_at := app_updated_at old |} in
      if negb (storable_text (upd_company v) && storable_text (upd_position v)
               && storable_text (upd_status v)
               && storable_nullable (upd_notes v))
      then inl untranslatable_character
      else if negb (users_own_application auth_uid new)
      then inl row_level_security_violation
      else if negb (valid_status (app_status new)) then inl check_violation
      else inr (with_applications db (<[id := new]> (db_applications db)))
  end.

(** The tasks an ON DELETE CASCADE on [application_id] has to remove; the
    referential action does not go through the policies of tasks. *)
Definition referencing_tasks (id : uuid) (ts : gmap uuid task_row) : list uuid :=
  (map_to_list (filter (λ kv, task_application_id kv.2 = id) ts)).*1.

(** The cascade removes the referencing rows one at a time.  [abort_after]
    is the storage's side of the run: [None] when nothing goes wrong,
    [Some n] when it fails after [n] rows were removed. *)
Fixpoint cascade_delete (abort_after : option nat) (ids : list uuid)
    (ts : gmap uuid task_row) : option (gmap uuid task_row) :=
  match ids with
  | [] => Some ts
  | i :: ids' =>
      match abort_after with
      | Some 0 => None
      | Some (S n) => cascade_delete (Some n) ids' (delete i ts)
      | None => cascade_delete None ids' (delete i ts)
      end
  end.

(** from('applications').delete().eq('id', id): one statement, run in its
    own transaction; when it aborts the store is the one it started from. *)
Definition delete_application (auth_uid : option uuid)
    (abort_after : option nat) (id : uuid) (db : DB) : PgError + DB :=
  match visible_applications auth_uid db !! id with
  | None => inr db
  | Some _ =>
      match cascade_delete abort_after (referencing_tasks id (db_tasks db))
              (db_tasks db) with
      | None => inl statement_aborted
      | Some ts =>
          inr {| db_profiles := db_profiles db;
                 db_applications := delete id (db_applications db);
                 db_tasks := ts |}
      end
  end.

Record task_insert := {
  tins_user_id : option uuid;
  tins_application_id : uuid;
  tins_title : jsstring;
  tins_due_date : option date;
  tins_notes : option jsstring }.

Definition insert_task (auth_uid : option uuid) (new_id : uuid)
    (now : timestamptz) (v : task_insert) (db : DB) : PgError + DB :=
  if negb (storable_text (tins_title v) && storable_nullable (tins_notes v))
  then inl untranslatable_character
  else if negb (storable_date (tins_due_date v))
  then inl datetime_field_overflow
  else
  match tins_user_id v with
  | None => inl row_level_security_violation
  | Some owner =>
      let r := {| task_application_id := tins_application_id v;
                  task_user_id := owner;
                  task_title := tins_title v;
                  task_due_date := tins_due_date v;
                  task_completed := false;
                  task_notes := tins_notes v;
                  task_created_at := now;
                  task_updated_at := now |} in
      if negb (users_own_task auth_uid r)
      then inl row_level_security_violation
      else if bool_decide (is_Some (db_tasks db !! new_id))
      then inl unique_violation
      else if negb (bool_decide (owner ∈ db_profiles db)
                    && bool_decide (is_Some (db_applications db
                                             !! task_application_id r)))
      then inl foreign_key_violation
      else inr (with_tasks db (<[new_id := r]> (db_tasks db)))
  end.

(** The body of an update of tasks; a column that is not in the body keeps
    its value.  The values of the body have to be of their column type.
    The foreign key is looked up again only when [application_id]
    changes. *)
Record task_update := {
  tupd_title : option jsstring;
  tupd_application_id : option uuid;
  tupd_due_date : option (option date);
  tupd_completed : option bool;
  tupd_notes : option (option jsstring) }.

Definition update_task (auth_uid : option uuid) (id : uuid)
    (now : timestamptz) (v : task_update) (db : DB) : PgError + DB :=
  match visible_tasks auth_uid db !! id with
  | None => inr db
  | Some old =>
      let new := update_tasks_updated_at now
                   {| task_application_id :=
                        default (task_application_id old) (tupd_application_id v);
                      task_user_id := task_user_id old;
                      task_title := default (task_title old) (tupd_title v);
                      task_due_date :=
                        default (task_due_date old) (tupd_due_date v);
                      task_completed :=
                        default (task_completed old) (tupd_completed v);
                      task_notes := default (task_notes old) (tupd_notes v);
                      task_created_at := task_created_at old;
                      task_updated_at := task_updated_at old |} in
      if negb (from_option storable_text true (tupd_title v)
               && from_option storable_nullable true (tupd_notes v))
      then inl untranslatable_character
      else if negb (from_option storable_date true (tupd_due_date v))
      then inl datetime_field_overflow
      else if negb (users_own_task auth_uid new)
      then inl row_level_security_violation
      else if negb (bool_decide (task_application_id new
                                 = task_application_id old)
                    || bool_decide (is_Some (db_applications db
                                             !! task_application_id new)))
      then inl foreign_key_violation
      else inr (with_tasks db (<[id := new]> (db_tasks db)))
  end.

Definition delete_task (auth_uid : option uuid) (id : uuid) (db : DB)
  : PgError + DB :=
  match visible_tasks auth_uid db !! id with
  | None => inr db
  | Some _ => inr (with_tasks db (delete id (db_tasks db)))
  end.

(** from('tasks').select('*').eq('id', id).maybeSingle() *)
Definition select_task (auth_uid : option uuid) (id : uuid) (db : DB)
  : option task_row :=
  visible_tasks auth_uid db !! id.

(** A task of the Tasks page: the row and the embedded
    [applications (company, position)], null when the session sees no
    application under [application_id]. *)
Record task_with_application := {
  tw_id : uuid;
  tw_task : task_row;
  tw_applications : option (jsstring * jsstring) }.

Definition embed_application (auth_uid : option uuid) (db : DB)
    (kv : uuid * task_row) : task_with_application :=
  {| tw_id := kv.1;
     tw_task := kv.2;
     tw_applications :=
       (λ a, (app_company a, app_position a))
         <$> visible_applications auth_uid db !! task_application_id kv.2 |}.

(** .order('due_date', { ascending: true, nullsFirst: false })
    .order('created_at', { ascending: false }) *)
Definition due_date_then_created_at (x y : task_row) : bool :=
  match task_due_date x, task_due_date y with
  | Some dx, Some dy =>
      (dx <? dy)%Z
      || ((dx =? dy)%Z && (task_created_at y <=? task_created_at x)%Z)
  | Some _, None => true
  | None, Some _ => false
  | None, None => (task_created_at y <=? task_created_at x)%Z
  end.

Definition tasks_order (x y : task_with_application) : Prop :=
  due_date_then_created_at (tw_task x) (tw_task y) = true.

Global Instance tasks_order_dec x y : Decision (tasks_order x y).
Proof. unfold tasks_order. apply _. Defined.

Definition select_tasks_with_applications (auth_uid : option uuid) (db : DB)
  : list task_with_application :=
  merge_sort tasks_order
    (embed_application auth_uid db <$> map_to_list (visible_tasks auth_uid db)).

(** from('applications').select('id, company, position').order(...) *)
Definition select_application_summaries (auth_uid : option uuid) (db : DB)
  : list (uuid * jsstring * jsstring) :=
  (λ kv, (kv.1, app_company kv.2, app_position kv.2))
    <$> select_applications auth_uid db.

(** ** The pages

    What a handler does besides changing its page state and the store.  The
    flags that only drive rendering (loading, submitting, open) are left out
    of the page states. *)

Inductive Effect :=
| toast_error (message : string)
| toast_success (message : string)
| navigate (to : string).

(** *** Applications page *)
Module Applications.

Record State := {
  applications : list (uuid * application_row);
  company : jsstring;
  position : jsstring;
  status : jsstring;
  notes : jsstring }.

(** The state the component mounts with. *)
Definition initial : State :=
  {| applications := []; company := []; position := [];
     status := js "applied"; notes := [] |}.

Definition fetchApplications (user : option uuid) (db : DB) (st : State)
  : State :=
  {| applications := select_applications user db;
     company := company st; position := position st;
     status := status st; notes := notes st |}.

Definition handleSubmit (user : option uuid) (new_id : uuid)
    (now : timestamptz) (db : DB) (st : State)
  : list Effect * State * DB :=
  match Zod.issues applicationSchema
          (application_object (company st) (position st) (notes st)) with
  | issue :: _ => ([toast_error (Zod.message issue)], st, db)
  | [] =>
      match insert_application user new_id now
              {| ins_user_id := user;
                 ins_company := trim (company st);
                 ins_position := trim (position st);
                 ins_status := Some (status st);
                 ins_notes := or_null (trim (notes st)) |} db with
      | inl _ => ([toast_error "Failed to create application"], st, db)
      | inr db' =>
          ([toast_success "Application created successfully"],
           fetchApplications user db'
             {| applications := applications st; company := [];
                position := []; status := js "applied"; notes := [] |},
           db')
      end
  end.

End Applications.

(** *** Application detail page *)
Module ApplicationDetail.

Record State := {
  application : option (uuid * application_row);
  company : jsstring;
  position : jsstring;
  status : jsstring;
  notes : jsstring }.

Definition initial : State :=
  {| application := None; company := []; position := [];
     status := js "applied"; notes := [] |}.

Definition fetchApplication (user : option uuid) (id : uuid) (db : DB)
    (st : State) : list Effect * State :=
  match select_application user id db with
  | None => ([toast_error "Failed to load application";
              navigate "/applications"], st)
  | Some data =>
      ([], {| application := Some (id, data);
              company := app_company data;
              position := app_position data;
              status := app_status data;
              notes := or_empty (app_notes data) |})
  end.

Definition handleUpdate (user : option uuid) (id : uuid)
    (now : timestamptz) (db : DB) (st : State)
  : list Effect * State * DB :=
  match Zod.issues applicationSchema
          (application_object (company st) (position st) (notes st)) with
  | issue :: _ => ([toast_error (Zod.message issue)], st, db)
  | [] =>
      match update_application user id now
              {| upd_company := trim (company st);
                 upd_position := trim (position st);
                 upd_status := status st;
                 upd_notes := or_null (trim (notes st)) |} db with
      | inl _ => ([toast_error "Failed to update application"], st, db)
      | inr db' =>
          let '(effects, st') := fetchApplication user id db' st in
          (toast_success "Application updated successfully" :: effects,
           st', db')
      end
  end.

Definition handleDelete (user : option uuid) (abort_after : option nat)
    (id : uuid) (db : DB) (st : State) : list Effect * State * DB :=
  match delete_application user abort_after id db with
  | inl _ => ([toast_error "Failed to delete application"], st, db)
  | inr db' =>
      ([toast_success "Application deleted successfully";
        navigate "/applications"], st, db')
  end.

End ApplicationDetail.

(** *** Tasks page

    [applicationId] and [dueDate] are strings of the form, empty until the
    user picks a value; [None] stands for the empty string. *)
Module Tasks.

Record State := {
  tasks : list task_with_application;
  applications : list (uuid * jsstring * jsstring);
  title : jsstring;
  applicationId : option uuid;
  dueDate : option date;
  notes : jsstring }.

Definition initial : State :=
  {| tasks := []; applications := []; title := []; applicationId := None;
     dueDate := None; notes := [] |}.

Definition fetchTasks (user : option uuid) (db : DB) (st : State) : State :=
  {| tasks := select_tasks_with_applications user db;
     applications := applications st; title := title st;
     applicationId := applicationId st; dueDate := dueDate st;
     notes := notes st |}.

Definition fetchApplications (user : option uuid) (db : DB) (st : State)
  : State :=
  {| tasks := tasks st;
     applications := select_application_summaries user db;
     title := title st; applicationId := applicationId st;
     dueDate := dueDate st; notes := notes st |}.

Definition handleSubmit (user : option uuid) (new_id : uuid)
    (now : timestamptz) (db : DB) (st : State)
  : list Effect * State * DB :=
  match Zod.issues taskSchema (task_object (title st) (notes st)) with
  | issue :: _ => ([toast_error (Zod.message issue)], st, db)
  | [] =>
      match applicationId st with
      | None => ([toast_error "Please select an application"], st, db)
      | Some app_id =>
          match insert_task user new_id now
                  {| tins_user_id := user;
                     tins_application_id := app_id;
                     tins_title := trim (title st);
                     tins_due_date := dueDate st;
                     tins_notes := or_null (trim (notes st)) |} db with
          | inl _ => ([toast_error "Failed to create task"], st, db)
          | inr db' =>
              ([toast_success "Task created successfully"],
               fetchTasks user db'
                 {| tasks := tasks st; applications := applications st;
                    title := []; applicationId := None; dueDate := None;
                    notes := [] |},
               db')
          end
      end
  end.

Definition toggleComplete (user : option uuid) (now : timestamptz)
    (t : task_with_application) (db : DB) (st : State)
  : list Effect * State * DB :=
  match update_task user (tw_id t) now
          {| tupd_title := None; tupd_application_id := None;
             tupd_due_date := None;
             tupd_completed := Some (negb (task_completed (tw_task t)));
             tupd_notes := None |} db with
  | inl _ => ([toast_error "Failed to update task"], st, db)
  | inr db' => ([], fetchTasks user db' st, db')
  end.

End Tasks.

(** *** Task detail page *)
Module TaskDetail.

Record State := {
  task : option (uuid * task_row);
  applications : list (uuid * jsstring * jsstring);
  title : jsstring;
  applicationId : option uuid;
  dueDate : option date;
  completed : bool;
  notes : jsstring }.

Definition initial : State :=
  {| task := None; applications := []; title := []; applicationId := None;
     dueDate := None; completed := false; notes := [] |}.

Definition fetchTask (user : option uuid) (id : uuid) (db : DB) (st : State)
  : list Effect * State :=
  match select_task user id db with
  | None => ([toast_error "Failed to load task"; navigate "/tasks"], st)
  | Some data =>
      ([], {| task := Some (id, data);
              applications := applications st;
              title := task_title data;
              applicationId := Some (task_application_id data);
              dueDate := task_due_date data;
              completed := task_completed data;
              notes := or_empty (task_notes data) |})
  end.

Definition fetchApplications (user : option uuid) (db : DB) (st : State)
  : State :=
  {| task := task st;
     applications := select_application_summaries user db;
     title := title st; applicationId := applicationId st;
     dueDate := dueDate st; completed := completed st;
     notes := notes st |}.

Definition handleUpdate (user : option uuid) (id : uuid)
    (now : timestamptz) (db : DB) (st : State)
  : list Effect * State * DB :=
  match Zod.issues taskSchema (task_object (title st) (notes st)) with
  | issue :: _ => ([toast_error (Zod.message issue)], st, db)
  | [] =>
      match applicationId st with
      | None => ([toast_error "Please select an application"], st, db)
      | Some app_id =>
          match update_task user id now
                  {| tupd_title := Some (trim (title st));
                     tupd_application_id := Some app_id;
                     tupd_due_date := Some (dueDate st);
                     tupd_completed := Some (completed st);
                     tupd_notes := Some (or_null (trim (notes st))) |} db with
          | inl _ => ([toast_error "Failed to update task"], st, db)
          | inr db' =>
              let '(effects, st') := fetchTask user id db' st in
              (toast_success "Task updated successfully" :: effects,
               st', db')
          end
      end
  end.

Definition handleDelete (user : option uuid) (id : uuid) (db : DB)
    (st : State) : list Effect * State * DB :=
  match delete_task user id db with
  | inl _ => ([toast_error "Failed to delete task"], st, db)
  | inr db' =>
      ([toast_success "Task deleted successfully"; navigate "/tasks"],
       st, db')
  end.

End TaskDetail.

(** *** Dashboard *)
Module Dashboard.

Record Stats := {
  totalApplications : nat;
  totalTasks : nat;
  pendingTasks : nat;
  interviewStage : nat }.

(** Four counts, each a select with [count: 'exact'] under the session. *)
Definition fetchStats (user : option uuid) (db : DB) : Stats :=
  {| totalApplications := size (visible_applications user db);
     totalTasks := size (visible_tasks user db);
     pendingTasks :=
       size (filter (λ kv, task_completed kv.2 = false)
               (visible_tasks user db));
     interviewStage :=
       size (filter (λ kv, app_status kv.2 = js "interview")
               (visible_applications user db)) |}.

End Dashboard.

(** * Vocabulary of the properties *)

(** The bodies whose values the storage can hold. *)
Definition application_insert_storable (v : application_insert) : bool :=
  storable_text (ins_company v) && storable_text (ins_position v)
  && storable_nullable (ins_status v) && storable_nullable (ins_notes v).

Definition application_update_storable (v : application_update) : bool :=
  storable_text (upd_company v) && storable_text (upd_position v)
  && storable_text (upd_status v) && storable_nullable (upd_notes v).

Definition task_insert_storable (v : task_insert) : bool :=
  storable_text (tins_title v) && storable_nullable (tins_notes v)
  && storable_date (tins_due_date v).

Definition task_update_storable (v : task_update) : bool :=
  from_option storable_text true (tupd_title v)
  && from_option storable_nullable true (tupd_notes v)
  && from_option storable_date true (tupd_due_date v).

(** Fields of a form whose text, as the handlers send it (trimmed), the
    storage can hold. *)
Definition storable_input (fields : list jsstring) : Prop :=
  Forall (λ s, storable_text (trim s) = true) fields.

(** A string made of whitespace only; the empty string is one. *)
Definition whitespace_only (s : jsstring) : Prop :=
  Forall (λ ch, is_white_space ch = true) s.

Global Instance whitespace_only_dec s : Decision (whitespace_only s).
Proof. unfold whitespace_only. apply _. Defined.

(** The shape of a trimmed string: empty, or with a first and a last
    character that are not whitespace. *)
Inductive trimmed : jsstring → Prop :=
| trimmed_nil : trimmed []
| trimmed_one ch : is_white_space ch = false → trimmed [ch]
| trimmed_ends ch s ch' :
    is_white_space ch = false → is_white_space ch' = false →
    trimmed (ch :: s ++ [ch']).

(** The field constraints of the data model, read on their own: a company
    or position is non-empty and at most 100 characters once trimmed, notes
    are at most 1000 characters. *)
Definition name_ok (bound : nat) (s : jsstring) : bool :=
  (1 <=? List.length (trim s))%nat && (List.length (trim s) <=? bound)%nat.

Definition notes_ok (s : jsstring) : bool := (List.length s <=? 1000)%nat.

(** The first field, in the order of the schema, that breaks its constraint. *)
Definition first_violated_field (company position notes : jsstring)
  : option string :=
  if negb (name_ok 100 company) then Some "company"
  else if negb (name_ok 100 position) then Some "position"
  else if negb (notes_ok notes) then Some "notes"
  else None.

Definition required_issue (key message : string) : Zod.Issue :=
  {| Zod.path := key; Zod.code := Zod.too_small; Zod.message := message |}.

Definition too_long_issue (key : string) (bound : nat) : Zod.Issue :=
  {| Zod.path := key; Zod.code := Zod.too_big;
     Zod.message := Zod.too_big_default bound |}.

(** The issues of a trimmed, bounded, required string. *)
Definition name_issues (key message : string) (bound : nat) (s : jsstring)
  : list Zod.Issue :=
  (if (List.length (trim s) <? 1)%nat then [required_issue key message] else [])
  ++ (if (bound <? List.length (trim s))%nat
      then [ {| Zod.path := key; Zod.code := Zod.too_big;
                Zod.message := Zod.too_big_default bound |} ]
      else []) ++ [].

Definition notes_issues (s : jsstring) : list Zod.Issue :=
  (if (1000 <? List.length s)%nat
   then [ {| Zod.path := "notes"; Zod.code := Zod.too_big;
             Zod.message := Zod.too_big_default 1000 |} ]
   else []) ++ [].

(** The row an accepted insert writes. *)
Definition inserted_application (owner : uuid) (now : timestamptz)
    (v : application_insert) : application_row :=
  {| app_user_id := owner;
     app_company := ins_company v;
     app_position := ins_position v;
     app_status := default (js "applied") (ins_status v);
     app_notes := ins_notes v;
     app_created_at := now;
     app_updated_at := now |}.

(** The row an accepted update of [old] writes. *)
Definition updated_application (old : application_row) (now : timestamptz)
    (v : application_update) : application_row :=
  {| app_user_id := app_user_id old;
     app_company := upd_company v;
     app_position := upd_position v;
     app_status := upd_status v;
     app_notes := upd_notes v;
     app_created_at := app_created_at old;
     app_updated_at := now |}.

(** What a successful create or update leaves in the applications table:
    every row is a row that was there, or the normalised form of the input. *)
Definition normalised_row (company position notes : jsstring)
    (r : application_row) : Prop :=
  app_company r = trim company ∧ app_position r = trim position
  ∧ app_notes r = or_null (trim notes).

Definition stores_normalised (company position notes : jsstring)
    (db db' : DB) : Prop :=
  ∀ i r, db_applications db' !! i = Some r →
         db_applications db !! i = Some r
         ∨ normalised_row company position notes r.

(** ** A small store for the examples: Alice and Bob, one application each *)

Definition alice : uuid := 1%N.
Definition bob : uuid := 2%N.

Definition acme : application_row :=
  {| app_user_id := alice; app_company := js "Acme";
     app_position := js "Engineer"; app_status := js "applied";
     app_notes := None; app_created_at := 100; app_updated_at := 100 |}.

Definition globex : application_row :=
  {| app_user_id := bob; app_company := js "Globex";
     app_position := js "Analyst"; app_status := js "interview";
     app_notes := Some (js "second round"); app_created_at := 110;
     app_updated_at := 120 |}.

Definition call_back : task_row :=
  {| task_application_id := 10%N; task_user_id := alice;
     task_title := js "Call back"; task_due_date := Some 20%Z;
     task_completed := false; task_notes := None;
     task_created_at := 130; task_updated_at := 130 |}.

Definition send_cv : task_row :=
  {| task_application_id := 10%N; task_user_id := alice;
     task_title := js "Send CV"; task_due_date := None;
     task_completed := true; task_notes := None;
     task_created_at := 140; task_updated_at := 150 |}.

Definition prepare : task_row :=
  {| task_application_id := 11%N; task_user_id := bob;
     task_title := js "Prepare"; task_due_date := Some 15%Z;
     task_completed := false; task_notes := None;
     task_created_at := 160; task_updated_at := 160 |}.

Definition sample_db : DB :=
  {| db_profiles := {[ alice; bob ]};
     db_applications := {[ 10%N := acme; 11%N := globex ]};
     db_tasks := {[ 20%N := call_back; 21%N := send_cv; 22%N := prepare ]} |}.

Definition application_form (company position status notes : string)
  : Applications.State :=
  {| Applications.applications := [];
     Applications.company := js company;
     Applications.position := js position;
     Applications.status := js status;
     Applications.notes := js notes |}.

Definition detail_form (company position status notes : string)
  : ApplicationDetail.State :=
  {| ApplicationDetail.application := None;
     ApplicationDetail.company := js company;
     ApplicationDetail.position := js position;
     ApplicationDetail.status := js status;
     ApplicationDetail.notes := js notes |}.

(** A handler answers with a validation error when the toast it raises is
    the message of an issue its schema reported on the submitted object. *)
Definition is_validation_error (sch : Zod.ObjectSchema)
    (obj : string → option jsstring) (effects : list Effect) : Prop :=
  ∃ issue, issue ∈ Zod.issues sch obj
           ∧ effects = [toast_error (Zod.message issue)].

(** The body Update-Application sends for a form. *)
Definition update_body (st : ApplicationDetail.State) : application_update :=
  {| upd_company := trim (ApplicationDetail.company st);
     upd_position := trim (ApplicationDetail.position st);
     upd_status := ApplicationDetail.status st;
     upd_notes := or_null (trim (ApplicationDetail.notes st)) |}.

(** An update that went through: the form is valid, the status is one of
    the four, and the session sees the row. *)
Definition update_goes_through (user : option uuid) (id : uuid) (db : DB)
    (st : ApplicationDetail.State) (old : application_row) : Prop :=
  Zod.issues applicationSchema
    (application_object (ApplicationDetail.company st)
       (ApplicationDetail.position st) (ApplicationDetail.notes st)) = []
  ∧ valid_status (ApplicationDetail.status st) = true
  ∧ select_application user id db = Some old.

(** The record Create-Application stores for a form: the form's fields,
    normalised, under the caller as owner. *)
Definition created_application (owner : uuid) (now : timestamptz)
    (st : Applications.State) : application_row :=
  {| app_user_id := owner;
     app_company := trim (Applications.company st);
     app_position := trim (Applications.position st);
     app_status := Applications.status st;
     app_notes := or_null (trim (Applications.notes st));
     app_created_at := now;
     app_updated_at := now |}.

(** The row an accepted insert into tasks writes. *)
Definition inserted_task (owner : uuid) (now : timestamptz) (v : task_insert)
  : task_row :=
  {| task_application_id := tins_application_id v;
     task_user_id := owner;
     task_title := tins_title v;
     task_due_date := tins_due_date v;
     task_completed := false;
     task_notes := tins_notes v;
     task_created_at := now;
     task_updated_at := now |}.

(** The row an accepted update of the task [old] writes. *)
Definition updated_task (old : task_row) (now : timestamptz) (v : task_update)
  : task_row :=
  {| task_application_id :=
       default (task_application_id old) (tupd_application_id v);
     task_user_id := task_user_id old;
     task_title := default (task_title old) (tupd_title v);
     task_due_date := default (task_due_date old) (tupd_due_date v);
     task_completed := default (task_completed old) (tupd_completed v);
     task_notes := default (task_notes old) (tupd_notes v);
     task_created_at := task_created_at old;
     task_updated_at := now |}.

(** The bodies the task handlers send. *)
Definition create_task_body (user : option uuid) (app_id : uuid)
    (st : Tasks.State) : task_insert :=
  {| tins_user_id := user;
     tins_application_id := app_id;
     tins_title := trim (Tasks.title st);
     tins_due_date := Tasks.dueDate st;
     tins_notes := or_null (trim (Tasks.notes st)) |}.

Definition update_task_body (app_id : uuid) (st : TaskDetail.State)
  : task_update :=
  {| tupd_title := Some (trim (TaskDetail.title st));
     tupd_application_id := Some app_id;
     tupd_due_date := Some (TaskDetail.dueDate st);
     tupd_completed := Some (TaskDetail.completed st);
     tupd_notes := Some (or_null (trim (TaskDetail.notes st))) |}.

Definition toggle_body (t : task_with_application) : task_update :=
  {| tupd_title := None; tupd_application_id := None; tupd_due_date := None;
     tupd_completed := Some (negb (task_completed (tw_task t)));
     tupd_notes := None |}.

Definition task_form (title : string) (app_id : option uuid) : Tasks.State :=
  {| Tasks.tasks := []; Tasks.applications := []; Tasks.title := js title;
     Tasks.applicationId := app_id; Tasks.dueDate := None;
     Tasks.notes := [] |}.

Definition task_detail_form (title : string) (app_id : option uuid)
  : TaskDetail.State :=
  {| TaskDetail.task := None; TaskDetail.applications := [];
     TaskDetail.title := js title; TaskDetail.applicationId := app_id;
     TaskDetail.dueDate := None; TaskDetail.completed := false;
     TaskDetail.notes := [] |}.

(** The order of List-Tasks in the words of its description.  [x] is due
    before [y] when both have a due date and the one of [x] is earlier, or
    when only [x] has one: tasks without a due date come last. *)
Definition due_before (x y : task_row) : Prop :=
  match task_due_date x, task_due_date y with
  | Some dx, Some dy => (dx < dy)%Z
  | Some _, None => True
  | None, _ => False
  end.

(** [x] may be listed before [y]: it is due before [y], or they have the
    same due date (or both none) and [x] was not created before [y]. *)
Definition listed_before (x y : task_with_application) : Prop :=
  due_before (tw_task x) (tw_task y)
  ∨ (task_due_date (tw_task x) = task_due_date (tw_task y)
     ∧ (task_created_at (tw_task y) ≤ task_created_at (tw_task x))%Z).

(** The summary of the parent application a listed task carries. *)
Definition application_summary (a : application_row) : jsstring * jsstring :=
  (app_company a, app_position a).

(** The task a listed task becomes when its completion is toggled at [now]:
    same id, same parent summary, the row with [completed] flipped and
    [updated_at] stamped. *)
Definition toggled (now : timestamptz) (t : task_with_application)
  : task_with_application :=
  {| tw_id := tw_id t;
     tw_task := updated_task (tw_task t) now (toggle_body t);
     tw_applications := tw_applications t |}.

(** What Get-Application and Get-Task answer when there is nothing to
    return. *)
Definition application_not_found : list Effect :=
  [toast_error "Failed to load application"; navigate "/applications"].

Definition task_not_found : list Effect :=
  [toast_error "Failed to load task"; navigate "/tasks"].

(** Two stores look the same to a session when its policies let the same
    rows through. *)
Definition same_view (user : option uuid) (db db' : DB) : Prop :=
  visible_applications user db' = visible_applications user db
  ∧ visible_tasks user db' = visible_tasks user db.

(** The store after Delete-Application of [id] went through: the
    application is gone and so is every task that referenced it. *)
Definition deleted (id : uuid) (db : DB) : DB :=
  {| db_profiles := db_profiles db;
     db_applications := delete id (db_applications db);
     db_tasks := filter (λ kv, task_application_id kv.2 ≠ id) (db_tasks db) |}.

(** The storage gets through a cascade over [n] rows. *)
Definition cascade_completes (abort_after : option nat) (n : nat) : Prop :=
  match abort_after with
  | None => True
  | Some k => (n ≤ k)%nat
  end.

(** Referential integrity of tasks: every task references an application
    of the store. *)
Definition references_intact (db : DB) : Prop :=
  ∀ i t, db_tasks db !! i = Some t →
         is_Some (db_applications db !! task_application_id t).

(** Forms of the examples. *)
Definition padded_form : Applications.State :=
  application_form " Initech " "Engineer" "applied" "  ".

(** A form whose notes are 1001 spaces. *)
Definition blank_notes_form : Applications.State :=
  {| Applications.applications := [];
     Applications.company := js "Initech";
     Applications.position := js "Engineer";
     Applications.status := js "applied";
     Applications.notes := replicate 1001 32%N |}.

Definition unknown_status_form : ApplicationDetail.State :=
  detail_form "Acme" "Engineer" "nonexistent" "".

(** Alice's task 20 as the tasks list shows it. *)
Definition listed_call_back : task_with_application :=
  {| tw_id := 20%N; tw_task := call_back;
     tw_applications := Some (js "Acme", js "Engineer") |}.

(** ** The handlers as actions on the store

    One constructor per handler that writes, with the arguments of the
    handler besides the session and the store. *)
Inductive Action :=
| CreateApplication (new_id : uuid) (now : timestamptz)
    (st : Applications.State)
| UpdateApplication (id : uuid) (now : timestamptz)
    (st : ApplicationDetail.State)
| DeleteApplication (abort_after : option nat) (id : uuid)
    (st : ApplicationDetail.State)
| CreateTask (new_id : uuid) (now : timestamptz) (st : Tasks.State)
| ToggleTask (now : timestamptz) (t : task_with_application)
    (st : Tasks.State)
| UpdateTask (id : uuid) (now : timestamptz) (st : TaskDetail.State)
| DeleteTask (id : uuid) (st : TaskDetail.State).

(** The store a handler leaves. *)
Definition run (user : option uuid) (a : Action) (db : DB) : DB :=
  match a with
  | CreateApplication new_id now st =>
      (Applications.handleSubmit user new_id now db st).2
  | UpdateApplication id now st =>
      (ApplicationDetail.handleUpdate user id now db st).2
  | DeleteApplication abort_after id st =>
      (ApplicationDetail.handleDelete user abort_after id db st).2
  | CreateTask new_id now st => (Tasks.handleSubmit user new_id now db st).2
  | ToggleTask now t st => (Tasks.toggleComplete user now t db st).2
  | UpdateTask id now st => (TaskDetail.handleUpdate user id now db st).2
  | DeleteTask id st => (TaskDetail.handleDelete user id db st).2
  end.

(** A history: calls of handlers by sessions, one after the other. *)
Definition run_all (calls : list (option uuid * Action)) (db : DB) : DB :=
  foldl (λ db call, run call.1 call.2 db) db calls.

(** Text as the forms leave it in the store: trimmed, not empty, within
    its bound, and text the storage holds. *)
Definition tidy_text (bound : nat) (s : jsstring) : Prop :=
  trimmed s ∧ (1 ≤ List.length s ≤ bound)%nat ∧ storable_text s = true.

Definition tidy_notes (notes : option jsstring) : Prop :=
  match notes with
  | None => True
  | Some s => tidy_text 1000 s
  end.

Definition tidy_application (r : application_row) : Prop :=
  tidy_text 100 (app_company r) ∧ tidy_text 100 (app_position r)
  ∧ tidy_notes (app_notes r).

Definition tidy_task (t : task_row) : Prop :=
  tidy_text 200 (task_title t) ∧ tidy_notes (task_notes t)
  ∧ storable_date (task_due_date t) = true.

(** The one-step changes of the store: what a call of a handler can do to
    it, with what the storage and the handler have checked by then. *)
Inductive store_change (user : option uuid) (db : DB) : DB → Prop :=
| change_nothing : store_change user db db
| change_insert_application owner new_id r :
    user = Some owner → app_user_id r = owner →
    valid_status (app_status r) = true → tidy_application r →
    db_applications db !! new_id = None → owner ∈ db_profiles db →
    store_change user db
      (with_applications db (<[new_id := r]> (db_applications db)))
| change_update_application id old new :
    select_application user id db = Some old →
    app_user_id new = app_user_id old →
    app_created_at new = app_created_at old →
    valid_status (app_status new) = true → tidy_application new →
    store_change user db
      (with_applications db (<[id := new]> (db_applications db)))
| change_delete_application id old :
    select_application user id db = Some old →
    store_change user db (deleted id db)
| change_insert_task owner new_id t :
    user = Some owner → task_user_id t = owner → tidy_task t →
    db_tasks db !! new_id = None → owner ∈ db_profiles db →
    is_Some (db_applications db !! task_application_id t) →
    store_change user db (with_tasks db (<[new_id := t]> (db_tasks db)))
| change_update_task id old new :
    select_task user id db = Some old →
    task_user_id new = task_user_id old →
    task_created_at new = task_created_at old →
    (tidy_task old → tidy_task new) →
    (task_application_id new = task_application_id old
     ∨ is_Some (db_applications db !! task_application_id new)) →
    store_change user db (with_tasks db (<[id := new]> (db_tasks db)))
| change_delete_task id old :
    select_task user id db = Some old →
    store_change user db (with_tasks db (delete id (db_tasks db))).

(** What the migration promises of a store: every task references an
    application, every owner is a profile, every status is one of the
    four. *)
Definition consistent (db : DB) : Prop :=
  references_intact db
  ∧ (∀ i r, db_applications db !! i = Some r →
            app_user_id r ∈ db_profiles db
            ∧ valid_status (app_status r) = true)
  ∧ (∀ i t, db_tasks db !! i = Some t → task_user_id t ∈ db_profiles db).

(** A store whose text is all as the forms leave it. *)
Definition tidy (db : DB) : Prop :=
  (∀ i r, db_applications db !! i = Some r → tidy_application r)
  ∧ (∀ i t, db_tasks db !! i = Some t → tidy_task t).

(** A store with profiles and no records yet. *)
Definition fresh_store (profiles : gset uuid) : DB :=
  {| db_profiles := profiles; db_applications := ∅; db_tasks := ∅ |}.

(** When Create-Application goes through: the form is valid, its text is
    text the storage can hold, the status is one of the four, the caller is
    signed in and has a profile, and the id the storage draws is not taken. *)
Definition application_creatable (user : option uuid) (new_id : uuid)
    (db : DB) (st : Applications.State) : Prop :=
  Zod.issues applicationSchema
    (application_object (Applications.company st) (Applications.position st)
       (Applications.notes st)) = []
  ∧ storable_input [Applications.company st; Applications.position st;
                    Applications.notes st]
  ∧ valid_status (Applications.status st) = true
  ∧ (∃ owner, user = Some owner ∧ owner ∈ db_profiles db)
  ∧ db_applications db !! new_id = None.

(** When Create-Task goes through: the form is valid, its text is text the
    storage can hold and its due date is in the range of the column, an
    existing application is selected, the caller is signed in and has a
    profile, and the id the storage draws is not taken. *)
Definition task_creatable (user : option uuid) (new_id : uuid)
    (db : DB) (st : Tasks.State) : Prop :=
  Zod.issues taskSchema (task_object (Tasks.title st) (Tasks.notes st)) = []
  ∧ storable_input [Tasks.title st; Tasks.notes st]
  ∧ storable_date (Tasks.dueDate st) = true
  ∧ (∃ app_id, Tasks.applicationId st = Some app_id
               ∧ is_Some (db_applications db !! app_id))
  ∧ (∃ owner, user = Some owner ∧ owner ∈ db_profiles db)
  ∧ db_tasks db !! new_id = None.

(** * Properties *)

(** ** Strings: what [trim] leaves *)
Section trim_facts.

Example trim_padded : trim (js "  Acme Corp ") = js "Acme Corp".
Proof. reflexivity. Qed.

Example trim_blank : trim (js "   ") = [] ∧ or_null (trim (js "   ")) = None.
Proof. split; reflexivity. Qed.

Example trim_no_break_space : trim [160%N; 65%N; 8232%N] = [65%N].
Proof. reflexivity. Qed.

Lemma trimStart_app_whitespace a s :
  whitespace_only a → trimStart (a ++ s) = trimStart s.
Proof. induction 1 as [|ch a Hch _ IH]; simpl; [done|]. by rewrite Hch. Qed.

Lemma trimStart_nil s : trimStart s = [] ↔ whitespace_only s.
Proof.
  induction s as [|ch s IH]; simpl.
  - split; [constructor | done].
  - destruct (is_white_space ch) eqn:Hch.
    + rewrite IH. split; [by constructor | by inversion 1].
    + split; [done | inversion 1; congruence].
Qed.

Lemma trimStart_cons ch s :
  is_white_space ch = false → trimStart (ch :: s) = ch :: s.
Proof. simpl. by intros ->. Qed.

(** [trimStart] splits off a whitespace prefix and stops at the first
    character that is not whitespace. *)
Lemma trimStart_split s :
  ∃ a, whitespace_only a ∧ s = a ++ trimStart s
       ∧ ∀ ch, head (trimStart s) = Some ch → is_white_space ch = false.
Proof.
  induction s as [|ch s (a & Ha & Hs & Hhd)]; simpl.
  - exists []. repeat split; [constructor | done].
  - destruct (is_white_space ch) eqn:Hch.
    + exists (ch :: a). split; [by constructor|]. split; [|done].
      simpl. by rewrite <- Hs.
    + exists []. split; [constructor|]. split; [done|].
      simpl. by intros ? [= <-].
Qed.

Lemma whitespace_only_reverse s : whitespace_only (reverse s) ↔ whitespace_only s.
Proof. unfold whitespace_only. by rewrite Forall_reverse. Qed.

Lemma trimEnd_nil s : trimEnd s = [] ↔ whitespace_only s.
Proof.
  unfold trimEnd. rewrite <- whitespace_only_reverse, <- trimStart_nil.
  split; [|by intros ->].
  intros H. apply (f_equal reverse) in H. by rewrite reverse_involutive in H.
Qed.

Lemma trimEnd_app_whitespace s b :
  whitespace_only b → trimEnd (s ++ b) = trimEnd s.
Proof.
  intros Hb. unfold trimEnd. rewrite reverse_app.
  by rewrite trimStart_app_whitespace by by apply whitespace_only_reverse.
Qed.

Lemma trimEnd_snoc s ch :
  is_white_space ch = false → trimEnd (s ++ [ch]) = s ++ [ch].
Proof.
  intros Hch. unfold trimEnd. rewrite reverse_app. simpl.
  rewrite Hch. by rewrite reverse_cons, reverse_involutive.
Qed.

Lemma whitespace_only_trimStart s : whitespace_only s → whitespace_only (trimStart s).
Proof. intros H. apply trimStart_nil in H. rewrite H. constructor. Qed.

Lemma trim_nil s : trim s = [] ↔ whitespace_only s.
Proof.
  unfold trim. rewrite trimEnd_nil. split.
  - intros H. destruct (trimStart_split s) as (a & Ha & Hs & _).
    rewrite Hs. by apply Forall_app.
  - apply whitespace_only_trimStart.
Qed.

Lemma trimmed_fixed s : trimmed s → trim s = s.
Proof.
  unfold trim. destruct 1 as [|ch Hch|ch s ch' Hch Hch'].
  - done.
  - rewrite trimStart_cons by done. by apply (trimEnd_snoc []).
  - rewrite trimStart_cons by done. by apply (trimEnd_snoc (ch :: s)).
Qed.

Lemma trimEnd_split s :
  ∃ b, whitespace_only b ∧ s = trimEnd s ++ b
       ∧ ∀ ch, last (trimEnd s) = Some ch → is_white_space ch = false.
Proof.
  destruct (trimStart_split (reverse s)) as (a & Ha & Hs & Hhd).
  exists (reverse a). split; [by apply whitespace_only_reverse|]. split.
  - unfold trimEnd. rewrite <- reverse_app, <- Hs. by rewrite reverse_involutive.
  - unfold trimEnd. by setoid_rewrite last_reverse.
Qed.

Lemma trim_trimmed s : trimmed (trim s).
Proof.
  unfold trim.
  destruct (trimStart_split s) as (a & Ha & Hs & Hhd).
  destruct (trimEnd_split (trimStart s)) as (b & Hb & Hs' & Hlast).
  destruct (trimEnd (trimStart s)) as [|ch t] eqn:Ht; [constructor|].
  assert (is_white_space ch = false) as Hch.
  { apply Hhd. by rewrite Hs'. }
  destruct (decide (t = [])) as [->|Hne]; [by constructor|].
  destruct (exists_last Hne) as (t' & ch' & ->).
  constructor; [done|].
  apply Hlast. by rewrite app_comm_cons, last_snoc.
Qed.

(** [trim] removes a whitespace prefix and a whitespace suffix, nothing
    else. *)
Lemma trim_split s :
  ∃ a b, whitespace_only a ∧ whitespace_only b ∧ s = a ++ trim s ++ b.
Proof.
  destruct (trimStart_split s) as (a & Ha & Hs & _).
  destruct (trimEnd_split (trimStart s)) as (b & Hb & Hs' & _).
  exists a, b. repeat split; [done..|].
  unfold trim. by rewrite <- Hs', <- Hs.
Qed.

Lemma trim_idemp s : trim (trim s) = trim s.
Proof. apply trimmed_fixed, trim_trimmed. Qed.

Lemma or_null_not_empty s : or_null s ≠ Some [].
Proof. by destruct s. Qed.

Lemma or_null_trim_whitespace s : whitespace_only s → or_null (trim s) = None.
Proof. intros H. apply trim_nil in H. by rewrite H. Qed.

(** Whitespace is plain text: no surrogate, not U+0000. *)
Lemma white_space_plain ch :
  is_white_space ch = true →
  is_high_surrogate ch = false ∧ is_low_surrogate ch = false
  ∧ (ch =? 0)%N = false ∧ (ch <? 65536)%N = true.
Proof.
  unfold is_white_space, is_high_surrogate, is_low_surrogate.
  rewrite !orb_true_iff, !andb_true_iff, !andb_false_iff.
  rewrite !N.leb_le, !N.eqb_eq, !N.leb_gt, N.eqb_neq, N.ltb_lt.
  lia.
Qed.

Lemma storable_text_whitespace_app a s :
  whitespace_only a → storable_text (a ++ s) = storable_text s.
Proof.
  induction 1 as [|ch a Hch _ IH]; [done|].
  apply white_space_plain in Hch as (Hhi & Hlo & Hz & Hlt).
  simpl. by rewrite Hhi, Hlo, Hz, Hlt, IH.
Qed.

Lemma storable_text_app_whitespace s b :
  whitespace_only b → storable_text (s ++ b) = true → storable_text s = true.
Proof.
  intros Hb.
  assert (∀ n s, (List.length s ≤ n)%nat →
            storable_text (s ++ b) = true → storable_text s = true) as Hn.
  { clear s. induction n as [|n IH]; intros s Hlen.
    - destruct s; [done|]. simpl in Hlen. lia.
    - destruct s as [|ch s]; [done|]. simpl in Hlen. simpl.
      destruct (is_high_surrogate ch).
      + destruct s as [|lo s]; simpl.
        * destruct Hb as [|w b Hw _]; [done|].
          apply white_space_plain in Hw as (_ & -> & _). done.
        * rewrite !andb_true_iff. intros [? ?]. split; [done|].
          apply IH; [simpl in Hlen; lia | done].
      + rewrite !andb_true_iff. intros [? ?]. split; [done|].
        apply IH; [lia | done]. }
  by apply (Hn (List.length s)).
Qed.

Lemma storable_text_trim s : storable_text s = true → storable_text (trim s) = true.
Proof.
  destruct (trim_split s) as (a & b & Ha & Hb & Hs). intros H.
  rewrite Hs, storable_text_whitespace_app in H by done.
  by apply (storable_text_app_whitespace _ b).
Qed.

Lemma storable_or_null_trim s :
  storable_text s = true → storable_nullable (or_null (trim s)) = true.
Proof.
  intros H%storable_text_trim. by destruct (trim s).
Qed.

Lemma valid_status_storable s : valid_status s = true → storable_text s = true.
Proof.
  unfold valid_status. rewrite bool_decide_eq_true.
  rewrite !elem_of_cons, elem_of_nil.
  intros [->|[->|[->|[->|[]]]]]; reflexivity.
Qed.

End trim_facts.

(** ** Validation: what [applicationSchema] and [taskSchema] report *)

Section schema_facts.

Example issues_of_blank_form :
  Zod.message
    <$> Zod.issues applicationSchema (application_object (js " ") [] [])
  = ["Company name is required"; "Position is required"].
Proof. reflexivity. Qed.

Example issues_of_long_company :
  Zod.message
    <$> Zod.issues applicationSchema
          (application_object (replicate 101 65%N) (js "Engineer") [])
  = ["String must contain at most 100 character(s)"].
Proof. by vm_compute. Qed.

Lemma application_issues c p n :
  Zod.issues applicationSchema (application_object c p n)
  = name_issues "company" "Company name is required" 100 c
    ++ name_issues "position" "Position is required" 100 p
    ++ notes_issues n ++ [].
Proof. reflexivity. Qed.

Lemma task_issues t n :
  Zod.issues taskSchema (task_object t n)
  = name_issues "title" "Title is required" 200 t ++ notes_issues n ++ [].
Proof. reflexivity. Qed.

Lemma name_issues_nil key message bound s :
  name_issues key message bound s = [] ↔ name_ok bound s = true.
Proof.
  unfold name_issues, name_ok. rewrite andb_true_iff, !Nat.leb_le.
  destruct (Nat.ltb_spec (List.length (trim s)) 1) as [H1|H1],
           (Nat.ltb_spec bound (List.length (trim s))) as [H2|H2];
    simpl; split; try done; intros [??]; exfalso; lia.
Qed.

Lemma name_issues_path key message bound s i :
  i ∈ name_issues key message bound s → Zod.path i = key.
Proof.
  unfold name_issues.
  destruct (_ <? 1)%nat, (bound <? _)%nat; simpl;
    rewrite ?elem_of_cons, ?elem_of_nil; intuition (by subst).
Qed.

Lemma name_issues_required key message bound s :
  whitespace_only s →
  head (name_issues key message bound s) = Some (required_issue key message).
Proof. intros H%trim_nil. unfold name_issues. by rewrite H. Qed.

Lemma name_issues_trim key message bound s :
  name_issues key message bound (trim s) = name_issues key message bound s.
Proof. unfold name_issues. by rewrite trim_idemp. Qed.

Lemma notes_issues_nil s : notes_issues s = [] ↔ notes_ok s = true.
Proof.
  unfold notes_issues, notes_ok. rewrite Nat.leb_le.
  destruct (Nat.ltb_spec 1000 (List.length s)) as [H|H];
    simpl; split; try done; intros; exfalso; lia.
Qed.

Lemma notes_issues_path s i : i ∈ notes_issues s → Zod.path i = "notes".
Proof.
  unfold notes_issues. destruct (1000 <? _)%nat; simpl;
    rewrite ?elem_of_cons, ?elem_of_nil; intuition (by subst).
Qed.

(** The error a handler shows comes from the first violated field. *)
Lemma name_issues_head key message bound s rest :
  Zod.path <$> head (name_issues key message bound s ++ rest)
  = if negb (name_ok bound s) then Some key else Zod.path <$> head rest.
Proof.
  destruct (name_ok bound s) eqn:E.
  - apply (proj2 (name_issues_nil key message bound s)) in E. by rewrite E.
  - destruct (name_issues key message bound s) as [|i l] eqn:Ei.
    + apply name_issues_nil in Ei. congruence.
    + simpl. f_equal. apply (name_issues_path key message bound s).
      rewrite Ei. left.
Qed.

Lemma notes_issues_head s rest :
  Zod.path <$> head (notes_issues s ++ rest)
  = if negb (notes_ok s) then Some "notes" else Zod.path <$> head rest.
Proof.
  destruct (notes_ok s) eqn:E.
  - apply (proj2 (notes_issues_nil s)) in E. by rewrite E.
  - destruct (notes_issues s) as [|i l] eqn:Ei.
    + apply notes_issues_nil in Ei. congruence.
    + simpl. f_equal. apply (notes_issues_path s). rewrite Ei. left.
Qed.

(** The error a handler shows comes from the first violated field. *)
Lemma application_issues_head c p n :
  Zod.path <$> head (Zod.issues applicationSchema (application_object c p n))
  = first_violated_field c p n.
Proof.
  rewrite application_issues. unfold first_violated_field.
  by rewrite !name_issues_head, notes_issues_head.
Qed.

Lemma application_issues_nil c p n :
  Zod.issues applicationSchema (application_object c p n) = []
  ↔ first_violated_field c p n = None.
Proof.
  rewrite <- application_issues_head.
  by destruct (Zod.issues _ _).
Qed.

Lemma application_issues_trim c p n :
  Zod.issues applicationSchema (application_object (trim c) (trim p) n)
  = Zod.issues applicationSchema (application_object c p n).
Proof. by rewrite !application_issues, !name_issues_trim. Qed.

Lemma application_issues_company c p n :
  whitespace_only c →
  head (Zod.issues applicationSchema (application_object c p n))
  = Some (required_issue "company" "Company name is required").
Proof.
  intros H. rewrite application_issues.
  pose proof (name_issues_required "company" "Company name is required" 100 c H).
  by destruct (name_issues _ _ _ c).
Qed.

Lemma application_issues_position c p n :
  name_ok 100 c = true → whitespace_only p →
  head (Zod.issues applicationSchema (application_object c p n))
  = Some (required_issue "position" "Position is required").
Proof.
  intros Hc H. rewrite application_issues.
  apply (proj2 (name_issues_nil "company" "Company name is required" 100 c))
    in Hc.
  rewrite Hc. simpl.
  pose proof (name_issues_required "position" "Position is required" 100 p H).
  by destruct (name_issues _ _ _ p).
Qed.

Lemma application_issues_company_too_long c p n :
  (100 < List.length (trim c))%nat →
  head (Zod.issues applicationSchema (application_object c p n))
  = Some (too_long_issue "company" 100).
Proof.
  intros H. rewrite application_issues. unfold name_issues at 1.
  destruct (Nat.ltb_spec (List.length (trim c)) 1); [lia|].
  destruct (Nat.ltb_spec 100 (List.length (trim c))); [done|lia].
Qed.

Lemma application_issues_notes_too_long c p n :
  name_ok 100 c = true → name_ok 100 p = true → (1000 < List.length n)%nat →
  Zod.issues applicationSchema (application_object c p n)
  = [too_long_issue "notes" 1000].
Proof.
  intros Hc Hp H. rewrite application_issues.
  apply (proj2 (name_issues_nil "company" "Company name is required" 100 c))
    in Hc.
  apply (proj2 (name_issues_nil "position" "Position is required" 100 p))
    in Hp.
  rewrite Hc, Hp. unfold notes_issues.
  destruct (Nat.ltb_spec 1000 (List.length n)); [done|lia].
Qed.

Lemma application_issues_some c p n :
  whitespace_only c ∨ whitespace_only p →
  ∃ issue rest,
    Zod.issues applicationSchema (application_object c p n) = issue :: rest.
Proof.
  intros H.
  destruct (Zod.issues _ _) as [|issue rest] eqn:E; [|by eauto].
  apply application_issues_nil in E. unfold first_violated_field in E.
  destruct (name_ok 100 c) eqn:Hc; [|done].
  destruct (name_ok 100 p) eqn:Hp; [|done].
  unfold name_ok in Hc, Hp.
  destruct H as [H%trim_nil|H%trim_nil]; rewrite H in *; done.
Qed.

End schema_facts.

(** ** Storage: what a statement changes *)
Section statement_facts.

Lemma select_application_Some auth_uid id db r :
  select_application auth_uid id db = Some r
  ↔ db_applications db !! id = Some r ∧ auth_uid = Some (app_user_id r).
Proof.
  unfold select_application, visible_applications, users_own_application.
  rewrite map_lookup_filter_Some. simpl. by rewrite bool_decide_eq_true.
Qed.

Lemma select_application_None auth_uid id db :
  select_application auth_uid id db = None
  ↔ ∀ r, db_applications db !! id = Some r → auth_uid ≠ Some (app_user_id r).
Proof.
  unfold select_application, visible_applications, users_own_application.
  rewrite map_lookup_filter_None. simpl. split.
  - intros [H|H] r Hr; [congruence|].
    specialize (H r Hr). by rewrite bool_decide_eq_true in H.
  - intros H. right. intros r Hr. rewrite bool_decide_eq_true. by apply H.
Qed.

Lemma select_task_Some auth_uid id db r :
  select_task auth_uid id db = Some r
  ↔ db_tasks db !! id = Some r ∧ auth_uid = Some (task_user_id r).
Proof.
  unfold select_task, visible_tasks, users_own_task.
  rewrite map_lookup_filter_Some. simpl. by rewrite bool_decide_eq_true.
Qed.

Lemma select_task_None auth_uid id db :
  select_task auth_uid id db = None
  ↔ ∀ r, db_tasks db !! id = Some r → auth_uid ≠ Some (task_user_id r).
Proof.
  unfold select_task, visible_tasks, users_own_task.
  rewrite map_lookup_filter_None. simpl. split.
  - intros [H|H] r Hr; [congruence|].
    specialize (H r Hr). by rewrite bool_decide_eq_true in H.
  - intros H. right. intros r Hr. rewrite bool_decide_eq_true. by apply H.
Qed.

Lemma insert_application_inr auth_uid new_id now v db db' :
  insert_application auth_uid new_id now v db = inr db'
  ↔ application_insert_storable v = true
    ∧ ∃ owner,
      ins_user_id v = Some owner ∧ auth_uid = Some owner
      ∧ valid_status (default (js "applied") (ins_status v)) = true
      ∧ db_applications db !! new_id = None
      ∧ owner ∈ db_profiles db
      ∧ db' = with_applications db
                (<[new_id := inserted_application owner now v]>
                   (db_applications db)).
Proof.
  unfold insert_application, users_own_application, inserted_application.
  fold (application_insert_storable v).
  destruct (application_insert_storable v); simpl.
  2:{ split; [done|]. by intros [? _]. }
  destruct (ins_user_id v) as [owner|]; simpl.
  2:{ split; [done|]. by intros (_ & ? & ? & _). }
  split.
  - intros H. split; [done|]. exists owner.
    destruct (bool_decide (auth_uid = Some owner)) eqn:E1; simpl in H; [|done].
    destruct (valid_status _) eqn:E2; simpl in H; [|done].
    destruct (bool_decide (is_Some _)) eqn:E3; simpl in H; [done|].
    destruct (bool_decide (owner ∈ _)) eqn:E4; simpl in H; [|done].
    apply bool_decide_eq_true in E1, E4. apply bool_decide_eq_false in E3.
    rewrite <- eq_None_not_Some in E3. by injection H as <-.
  - intros (_ & o & [= <-] & -> & Hst & Hfresh & Hprof & ->).
    rewrite bool_decide_eq_true_2 by done. simpl. rewrite Hst. simpl.
    rewrite bool_decide_eq_false_2 by (by rewrite <- eq_None_not_Some).
    by rewrite bool_decide_eq_true_2 by done.
Qed.

Lemma update_application_cases auth_uid id now v db :
  match select_application auth_uid id db with
  | None => update_application auth_uid id now v db = inr db
  | Some old =>
      if application_update_storable v
      then if valid_status (upd_status v)
           then update_application auth_uid id now v db
                = inr (with_applications db
                         (<[id := updated_application old now v]>
                            (db_applications db)))
           else update_application auth_uid id now v db = inl check_violation
      else update_application auth_uid id now v db
           = inl untranslatable_character
  end.
Proof.
  destruct (select_application auth_uid id db) as [old|] eqn:E;
    unfold update_application; unfold select_application in E; rewrite E;
    [|done].
  apply select_application_Some in E as [_ ->].
  fold (application_update_storable v).
  destruct (application_update_storable v); [|done].
  unfold users_own_application. simpl.
  rewrite bool_decide_eq_true_2 by done. simpl.
  by destruct (valid_status _).
Qed.

(** The bodies the application forms send are storable when the trimmed
    text of the form and the status are. *)
Lemma storable_nullable_or_null s :
  storable_nullable (or_null s) = storable_text s.
Proof. by destruct s. Qed.

Lemma storable_input_trim fields :
  Forall (λ s, storable_text s = true) fields → storable_input fields.
Proof.
  intros H. eapply Forall_impl; [exact H|]. intros s. apply storable_text_trim.
Qed.

Lemma storable_input_2 a b :
  storable_input [a; b]
  ↔ storable_text (trim a) = true ∧ storable_text (trim b) = true.
Proof. unfold storable_input. rewrite !Forall_cons, Forall_nil. tauto. Qed.

Lemma storable_input_3 a b c :
  storable_input [a; b; c]
  ↔ storable_text (trim a) = true ∧ storable_text (trim b) = true
    ∧ storable_text (trim c) = true.
Proof. unfold storable_input. rewrite !Forall_cons, Forall_nil. tauto. Qed.

Lemma application_insert_body_storable user company position status notes :
  application_insert_storable
    {| ins_user_id := user; ins_company := trim company;
       ins_position := trim position; ins_status := Some status;
       ins_notes := or_null (trim notes) |} = true
  ↔ storable_input [company; position; notes] ∧ storable_text status = true.
Proof.
  unfold application_insert_storable, storable_input. simpl.
  rewrite storable_nullable_or_null, !andb_true_iff.
  rewrite !Forall_cons, Forall_nil. tauto.
Qed.

Lemma application_update_body_storable company position status notes :
  application_update_storable
    {| upd_company := trim company; upd_position := trim position;
       upd_status := status; upd_notes := or_null (trim notes) |} = true
  ↔ storable_input [company; position; notes] ∧ storable_text status = true.
Proof.
  unfold application_update_storable, storable_input. simpl.
  rewrite storable_nullable_or_null, !andb_true_iff.
  rewrite !Forall_cons, Forall_nil. tauto.
Qed.

End statement_facts.

(** ** The application handlers *)
Section application_handlers.

Lemma handleSubmit_invalid user new_id now db st issue rest :
  Zod.issues applicationSchema
    (application_object (Applications.company st) (Applications.position st)
       (Applications.notes st)) = issue :: rest →
  Applications.handleSubmit user new_id now db st
  = ([toast_error (Zod.message issue)], st, db).
Proof. intros H. unfold Applications.handleSubmit. by rewrite H. Qed.

Lemma handleUpdate_invalid user id now db st issue rest :
  Zod.issues applicationSchema
    (application_object (ApplicationDetail.company st)
       (ApplicationDetail.position st) (ApplicationDetail.notes st))
  = issue :: rest →
  ApplicationDetail.handleUpdate user id now db st
  = ([toast_error (Zod.message issue)], st, db).
Proof. intros H. unfold ApplicationDetail.handleUpdate. by rewrite H. Qed.

Lemma handleSubmit_stores_normalised user new_id now db st :
  stores_normalised (Applications.company st) (Applications.position st)
    (Applications.notes st) db
    (Applications.handleSubmit user new_id now db st).2.
Proof.
  unfold Applications.handleSubmit, stores_normalised.
  destruct (Zod.issues _ _); [|by left].
  destruct (insert_application _ _ _ _ _) as [e|db'] eqn:E; simpl; [by left|].
  apply insert_application_inr in E as (_ & owner & _ & _ & _ & _ & _ & ->).
  intros i r. simpl. rewrite lookup_insert. case_decide; [|by left].
  intros [= <-]. by right.
Qed.

Lemma handleUpdate_stores_normalised user id now db st :
  stores_normalised (ApplicationDetail.company st)
    (ApplicationDetail.position st) (ApplicationDetail.notes st) db
    (ApplicationDetail.handleUpdate user id now db st).2.
Proof.
  unfold ApplicationDetail.handleUpdate, stores_normalised.
  destruct (Zod.issues _ _); [|by left].
  pose proof (update_application_cases user id now
    {| upd_company := trim (ApplicationDetail.company st);
       upd_position := trim (ApplicationDetail.position st);
       upd_status := ApplicationDetail.status st;
       upd_notes := or_null (trim (ApplicationDetail.notes st)) |} db) as H.
  destruct (select_application user id db) as [old|].
  - destruct (application_update_storable _); [|rewrite H; by left].
    simpl in H. destruct (valid_status _); rewrite H; [|by left].
    destruct (ApplicationDetail.fetchApplication _ _ _ _) as [effects st'].
    intros i r. simpl. rewrite lookup_insert. case_decide; [|by left].
    intros [= <-]. by right.
  - rewrite H.
    destruct (ApplicationDetail.fetchApplication _ _ _ _) as [effects st'].
    by left.
Qed.

(** Create-Application of a form that can be created. *)
Lemma handleSubmit_success owner new_id now db st :
  application_creatable (Some owner) new_id db st →
  Applications.handleSubmit (Some owner) new_id now db st
  = ([toast_success "Application created successfully"],
     Applications.fetchApplications (Some owner)
       (with_applications db
          (<[new_id := created_application owner now st]>
             (db_applications db)))
       {| Applications.applications := Applications.applications st;
          Applications.company := []; Applications.position := [];
          Applications.status := js "applied"; Applications.notes := [] |},
     with_applications db
       (<[new_id := created_application owner now st]> (db_applications db))).
Proof.
  intros (Hissues & Hstor & Hvalid & (o & [= <-] & Hprofile) & Hfresh).
  unfold Applications.handleSubmit. rewrite Hissues.
  assert (insert_application (Some owner) new_id now
            {| ins_user_id := Some owner;
               ins_company := trim (Applications.company st);
               ins_position := trim (Applications.position st);
               ins_status := Some (Applications.status st);
               ins_notes := or_null (trim (Applications.notes st)) |} db
          = inr (with_applications db
                   (<[new_id := created_application owner now st]>
                      (db_applications db)))) as ->; [|done].
  apply insert_application_inr. split.
  - apply application_insert_body_storable.
    split; [done|]. by apply valid_status_storable.
  - exists owner. by repeat split.
Qed.

(** Update-Application of a form that goes through. *)
Lemma handleUpdate_success user id now db st old :
  update_goes_through user id db st old →
  storable_input [ApplicationDetail.company st; ApplicationDetail.position st;
                  ApplicationDetail.notes st] →
  ApplicationDetail.handleUpdate user id now db st
  = ([toast_success "Application updated successfully"],
     {| ApplicationDetail.application :=
          Some (id, updated_application old now (update_body st));
        ApplicationDetail.company := trim (ApplicationDetail.company st);
        ApplicationDetail.position := trim (ApplicationDetail.position st);
        ApplicationDetail.status := ApplicationDetail.status st;
        ApplicationDetail.notes :=
          or_empty (or_null (trim (ApplicationDetail.notes st))) |},
     with_applications db
       (<[id := updated_application old now (update_body st)]>
          (db_applications db))).
Proof.
  intros (Hissues & Hvalid & Hsel) Hstor.
  unfold ApplicationDetail.handleUpdate. rewrite Hissues.
  fold (update_body st).
  pose proof (update_application_cases user id now (update_body st) db) as H.
  rewrite Hsel in H.
  assert (application_update_storable (update_body st) = true) as Hbody.
  { apply application_update_body_storable.
    split; [done|]. by apply valid_status_storable. }
  rewrite Hbody in H. cbn [update_body upd_status] in H. rewrite Hvalid in H.
  fold (update_body st) in H. rewrite H.
  assert (select_application user id
            (with_applications db
               (<[id := updated_application old now (update_body st)]>
                  (db_applications db)))
          = Some (updated_application old now (update_body st))) as Hsel'.
  { apply select_application_Some in Hsel as [_ Huser].
    apply select_application_Some. simpl. by rewrite lookup_insert_eq. }
  unfold ApplicationDetail.fetchApplication. by rewrite Hsel'.
Qed.

(** Update-Application reports success only when the statement went
    through. *)
Lemma handleUpdate_reported user id now db st old :
  select_application user id db = Some old →
  head (ApplicationDetail.handleUpdate user id now db st).1.1
  = Some (toast_success "Application updated successfully") →
  update_goes_through user id db st old
  ∧ storable_input [ApplicationDetail.company st;
                    ApplicationDetail.position st;
                    ApplicationDetail.notes st].
Proof.
  intros Hsel. unfold ApplicationDetail.handleUpdate, update_goes_through.
  destruct (Zod.issues _ _) as [|issue rest]; [|done].
  fold (update_body st).
  pose proof (update_application_cases user id now (update_body st) db) as H.
  rewrite Hsel in H.
  destruct (application_update_storable _) eqn:Hbody; [|by rewrite H].
  apply application_update_body_storable in Hbody as [Hstor _].
  cbn [update_body upd_status] in H.
  destruct (valid_status _) eqn:Hvalid; [done|].
  fold (update_body st) in H. by rewrite H.
Qed.

(** Update-Application of a record the caller sees goes through, or fails
    and leaves the store. *)
Lemma handleUpdate_seen user id now db st old :
  select_application user id db = Some old →
  (update_goes_through user id db st old
   ∧ storable_input [ApplicationDetail.company st;
                     ApplicationDetail.position st;
                     ApplicationDetail.notes st])
  ∨ ((ApplicationDetail.handleUpdate user id now db st).2 = db
     ∧ ∃ message,
         (ApplicationDetail.handleUpdate user id now db st).1.1
         = [toast_error message]).
Proof.
  intros Hsel. unfold ApplicationDetail.handleUpdate, update_goes_through.
  destruct (Zod.issues _ _) as [|issue rest]; [|right; by eauto].
  fold (update_body st).
  pose proof (update_application_cases user id now (update_body st) db) as H.
  rewrite Hsel in H.
  destruct (application_update_storable _) eqn:Hbody;
    [|rewrite H; right; by eauto].
  apply application_update_body_storable in Hbody as [Hstor _].
  cbn [update_body upd_status] in H.
  destruct (valid_status _) eqn:Hvalid; [by left|].
  fold (update_body st) in H. rewrite H. right. by eauto.
Qed.

Lemma handleUpdate_unseen user id now db st :
  select_application user id db = None →
  (ApplicationDetail.handleUpdate user id now db st).2 = db.
Proof.
  intros Hsel. unfold ApplicationDetail.handleUpdate.
  destruct (Zod.issues _ _) as [|issue rest]; [|done].
  fold (update_body st).
  pose proof (update_application_cases user id now (update_body st) db) as H.
  rewrite Hsel in H. rewrite H.
  by destruct (ApplicationDetail.fetchApplication _ _ _ _).
Qed.

End application_handlers.

(** C3.  A Create-Application call with an empty company or an empty
    position fails with the validation error of the first violated field:
    the toast shows the message of the first issue the schema reports, whose
    path is the first field, in schema order, that breaks its constraint.
    That issue is "Company name is required" when the company is blank, the
    length issue of the company when the company is longer than 100
    characters, and "Position is required" otherwise.  The store the call
    returns is the store it was given: nothing is persisted. *)
Theorem create_application_empty_rejected
    (user : option uuid) (new_id : uuid) (now : timestamptz) (db : DB)
    (st : Applications.State) :
  Applications.company st = [] ∨ Applications.position st = [] →
  ∃ issue,
    head (Zod.issues applicationSchema
            (application_object (Applications.company st)
               (Applications.position st) (Applications.notes st)))
    = Some issue
    ∧ Applications.handleSubmit user new_id now db st
      = ([toast_error (Zod.message issue)], st, db)
    ∧ Some (Zod.path issue)
      = first_violated_field (Applications.company st)
          (Applications.position st) (Applications.notes st)
    ∧ (whitespace_only (Applications.company st) →
       issue = required_issue "company" "Company name is required")
    ∧ ((100 < List.length (trim (Applications.company st)))%nat →
       issue = too_long_issue "company" 100)
    ∧ (name_ok 100 (Applications.company st) = true →
       issue = required_issue "position" "Position is required").
Proof.
  intros Hempty.
  assert (whitespace_only (Applications.company st)
          ∨ whitespace_only (Applications.position st)) as Hws.
  { destruct Hempty as [->| ->]; [left|right]; constructor. }
  destruct (application_issues_some _ _ (Applications.notes st) Hws)
    as (issue & rest & Hissues).
  exists issue. split; [by rewrite Hissues|].
  split; [by eapply handleSubmit_invalid|].
  split; [by rewrite <- application_issues_head, Hissues|].
  split; [|split].
  - intros Hc.
    pose proof (application_issues_company _ (Applications.position st)
                  (Applications.notes st) Hc) as H.
    rewrite Hissues in H. by injection H.
  - intros Hc.
    pose proof (application_issues_company_too_long _
                  (Applications.position st) (Applications.notes st) Hc) as H.
    rewrite Hissues in H. by injection H.
  - intros Hc. destruct Hempty as [Hc'|Hp]; [by rewrite Hc' in Hc|].
    rewrite Hp in Hissues.
    pose proof (application_issues_position (Applications.company st) []
                  (Applications.notes st) Hc (Forall_nil_2 _)) as H.
    rewrite Hissues in H. by injection H.
Qed.

Lemma create_application_empty_rejected_witness :
  ∃ issue,
    head (Zod.issues applicationSchema
            (application_object (js "") (js "Engineer") (js "")))
    = Some issue
    ∧ Applications.handleSubmit (Some alice) 12%N 200%Z sample_db
        (application_form "" "Engineer" "applied" "")
      = ([toast_error (Zod.message issue)],
         application_form "" "Engineer" "applied" "", sample_db)
    ∧ Some (Zod.path issue) = Some "company".
Proof.
  destruct (create_application_empty_rejected (Some alice) 12%N 200%Z sample_db
              (application_form "" "Engineer" "applied" ""))
    as (issue & H0 & H1 & H2 & _); [left; reflexivity|].
  exists issue. split; [exact H0|]. split; [exact H1 | exact H2].
Defined.

(** C10, as the code has it.  Create-Application and Update-Application
    normalise the whitespace of company and position before they validate
    and persist: the schema reads them trimmed, so a whitespace-only company
    or position is rejected as empty ("... is required") and the store is
    left as it was.  Notes are validated as typed: more than 1000
    characters, whitespace included, are rejected and the store is left as
    it was.  A call that goes through stores the trimmed company and
    position, and the trimmed notes, null when nothing is left of them,
    never the empty string; no call writes any other row. *)
Theorem application_input_normalised
    (user : option uuid) (id : uuid) (now : timestamptz) (db : DB)
    (company position notes : jsstring) :
  (* validation reads the trimmed company and position, the notes as typed *)
  (Zod.issues applicationSchema
     (application_object (trim company) (trim position) notes)
   = Zod.issues applicationSchema (application_object company position notes)
   ∧ (whitespace_only company →
      required_issue "company" "Company name is required"
      ∈ Zod.issues applicationSchema
          (application_object company position notes))
   ∧ (whitespace_only position →
      required_issue "position" "Position is required"
      ∈ Zod.issues applicationSchema
          (application_object company position notes))
   ∧ (name_ok 100 company = true → name_ok 100 position = true →
      (1000 < List.length notes)%nat →
      Zod.issues applicationSchema
        (application_object company position notes)
      = [too_long_issue "notes" 1000]))
  ∧ (* Create-Application *)
  (∀ st : Applications.State,
     Applications.company st = company →
     Applications.position st = position →
     Applications.notes st = notes →
     (whitespace_only company ∨ whitespace_only position
      ∨ (1000 < List.length notes)%nat →
      ∃ issue,
        head (Zod.issues applicationSchema
                (application_object company position notes)) = Some issue
        ∧ Applications.handleSubmit user id now db st
          = ([toast_error (Zod.message issue)], st, db))
     ∧ (application_creatable user id db st →
        (Applications.handleSubmit user id now db st).1.1
        = [toast_success "Application created successfully"]
        ∧ ∃ r, db_applications
                 (Applications.handleSubmit user id now db st).2 !! id
               = Some r
               ∧ normalised_row company position notes r
               ∧ app_status r = Applications.status st)
     ∧ stores_normalised company position notes db
         (Applications.handleSubmit user id now db st).2)
  ∧ (* Update-Application *)
  (∀ st : ApplicationDetail.State,
     ApplicationDetail.company st = company →
     ApplicationDetail.position st = position →
     ApplicationDetail.notes st = notes →
     (whitespace_only company ∨ whitespace_only position
      ∨ (1000 < List.length notes)%nat →
      ∃ issue,
        head (Zod.issues applicationSchema
                (application_object company position notes)) = Some issue
        ∧ ApplicationDetail.handleUpdate user id now db st
          = ([toast_error (Zod.message issue)], st, db))
     ∧ (∀ old, update_goes_through user id db st old →
               storable_input [company; position; notes] →
        (ApplicationDetail.handleUpdate user id now db st).1.1
        = [toast_success "Application updated successfully"]
        ∧ ∃ r, db_applications
                 (ApplicationDetail.handleUpdate user id now db st).2 !! id
               = Some r
               ∧ normalised_row company position notes r
               ∧ app_status r = ApplicationDetail.status st)
     ∧ stores_normalised company position notes db
         (ApplicationDetail.handleUpdate user id now db st).2)
  ∧ (* what a normalised row looks like *)
  (∀ r, normalised_row company position notes r →
        trimmed (app_company r) ∧ trimmed (app_position r)
        ∧ app_notes r ≠ Some []
        ∧ (whitespace_only notes → app_notes r = None)
        ∧ (∀ s, app_notes r = Some s → trimmed s)).
Proof.
  assert (whitespace_only company ∨ whitespace_only position
          ∨ (1000 < List.length notes)%nat →
          ∃ issue rest,
            Zod.issues applicationSchema
              (application_object company position notes) = issue :: rest)
    as Hsome.
  { intros [H|[H|H]];
      [apply application_issues_some; by left
      |apply application_issues_some; by right|].
    destruct (Zod.issues _ _) as [|issue rest] eqn:E; [|by eauto].
    apply application_issues_nil in E. unfold first_violated_field in E.
    destruct (name_ok 100 company); [|done].
    destruct (name_ok 100 position); [|done].
    destruct (notes_ok notes) eqn:Hn; [|done].
    unfold notes_ok in Hn. apply Nat.leb_le in Hn. lia. }
  split; [split; [apply application_issues_trim|split; [|split]]|].
  - intros Hc. rewrite application_issues.
    apply elem_of_app. left.
    pose proof (name_issues_required "company" "Company name is required"
                  100 company Hc) as H.
    destruct (name_issues _ _ _ company); [done|].
    injection H as ->. left.
  - intros Hp. rewrite application_issues.
    apply elem_of_app. right. apply elem_of_app. left.
    pose proof (name_issues_required "position" "Position is required"
                  100 position Hp) as H.
    destruct (name_issues _ _ _ position); [done|].
    injection H as ->. left.
  - apply application_issues_notes_too_long.
  - split; [|split].
    + intros st <- <- <-.
      split; [|split; [|apply handleSubmit_stores_normalised]].
      * intros Hbad. destruct (Hsome Hbad) as (issue & rest & Hi).
        exists issue. rewrite Hi. split; [done|].
        by eapply handleSubmit_invalid.
      * intros Hcan. pose proof Hcan as (_ & _ & _ & (owner & -> & _) & _).
        rewrite (handleSubmit_success owner id now db st Hcan).
        split; [done|]. exists (created_application owner now st).
        cbn [snd db_applications with_applications].
        by rewrite lookup_insert_eq.
    + intros st <- <- <-.
      split; [|split; [|apply handleUpdate_stores_normalised]].
      * intros Hbad. destruct (Hsome Hbad) as (issue & rest & Hi).
        exists issue. rewrite Hi. split; [done|].
        by eapply handleUpdate_invalid.
      * intros old Hgo Hstor.
        rewrite (handleUpdate_success user id now db st old Hgo Hstor).
        split; [done|].
        exists (updated_application old now (update_body st)).
        cbn [snd db_applications with_applications].
        by rewrite lookup_insert_eq.
    + intros r (Hc & Hp & Hn). rewrite Hc, Hp, Hn.
      split; [apply trim_trimmed|]. split; [apply trim_trimmed|].
      split; [apply or_null_not_empty|].
      split; [apply or_null_trim_whitespace|].
      intros s Hs. pose proof (trim_trimmed notes) as Ht.
      destruct (trim notes); simpl in Hs; [done|]. by injection Hs as <-.
Qed.

Lemma application_input_normalised_witness :
  (∃ issue,
     head (Zod.issues applicationSchema
             (application_object (js "   ") (js "Engineer") (js "  ")))
     = Some issue
     ∧ Applications.handleSubmit (Some alice) 12%N 200%Z sample_db
         (application_form "   " "Engineer" "applied" "  ")
       = ([toast_error (Zod.message issue)],
          application_form "   " "Engineer" "applied" "  ", sample_db))
  ∧ (Applications.handleSubmit (Some alice) 12%N 200%Z sample_db
       padded_form).1.1
    = [toast_success "Application created successfully"]
  ∧ ∃ r, db_applications
           (Applications.handleSubmit (Some alice) 12%N 200%Z sample_db
              padded_form).2 !! 12%N = Some r
         ∧ normalised_row (js " Initech ") (js "Engineer") (js "  ") r
         ∧ app_status r = Applications.status padded_form.
Proof.
  split.
  - refine (proj1 (proj1 (proj2 (application_input_normalised (Some alice)
              12%N 200%Z sample_db (js "   ") (js "Engineer") (js "  ")))
              (application_form "   " "Engineer" "applied" "  ")
              eq_refl eq_refl eq_refl) _).
    left. unfold whitespace_only. vm_compute. by repeat constructor.
  - refine (proj1 (proj2 (proj1 (proj2 (application_input_normalised
              (Some alice) 12%N 200%Z sample_db (js " Initech ")
              (js "Engineer") (js "  "))) padded_form
              eq_refl eq_refl eq_refl)) _).
    split; [reflexivity|]. split; [by repeat constructor|].
    split; [reflexivity|]. split; [|reflexivity].
    exists alice. split; [reflexivity|].
    apply (bool_decide_unpack _). by vm_compute.
Defined.

(** C10, as the claim puts it, fails for the notes: they are not normalised
    before validation.  Alice submits a form with a valid company and
    position and notes of 1001 spaces.  Trimmed, the notes are empty and
    would be stored as null; but the schema counts the characters as typed,
    the call is refused with the length issue of the notes, and nothing is
    stored. *)
Lemma untrimmed_notes_rejected :
  whitespace_only (Applications.notes blank_notes_form)
  ∧ or_null (trim (Applications.notes blank_notes_form)) = None
  ∧ Zod.issues applicationSchema
      (application_object (Applications.company blank_notes_form)
         (Applications.position blank_notes_form)
         (trim (Applications.notes blank_notes_form))) = []
  ∧ Applications.handleSubmit (Some alice) 12%N 200%Z sample_db
      blank_notes_form
    = ([toast_error "String must contain at most 1000 character(s)"],
       blank_notes_form, sample_db)
  ∧ db_applications
      (Applications.handleSubmit (Some alice) 12%N 200%Z sample_db
         blank_notes_form).2 !! 12%N = None.
Proof.
  assert (whitespace_only (Applications.notes blank_notes_form)) as Hws.
  { apply Forall_replicate. reflexivity. }
  split; [exact Hws|].
  split; [by apply or_null_trim_whitespace|].
  split.
  { apply trim_nil in Hws. rewrite Hws. reflexivity. }
  assert (Applications.handleSubmit (Some alice) 12%N 200%Z sample_db
            blank_notes_form
          = ([toast_error "String must contain at most 1000 character(s)"],
             blank_notes_form, sample_db)) as ->.
  { unfold Applications.handleSubmit, blank_notes_form.
    cbn [Applications.company Applications.position Applications.notes].
    rewrite (application_issues_notes_too_long (js "Initech") (js "Engineer")
               (replicate 1001 32%N));
      [reflexivity|reflexivity|reflexivity|].
    rewrite length_replicate. lia. }
  split; reflexivity.
Qed.

(** C4, as the code has it.  [applicationSchema] has no status key: a status
    outside applied, interview, offer, rejected passes validation and is
    refused by the [valid_status] check of the table.  The call then fails
    with the generic failure of the handler, which is not a validation
    error, and the store is the one the call started from. *)
Theorem status_checked_by_storage
    (user : option uuid) (id : uuid) (now : timestamptz) (db : DB)
    (status : jsstring) :
  status ∉ [js "applied"; js "interview"; js "offer"; js "rejected"] →
  (∀ st : Applications.State,
     Applications.status st = status →
     (Applications.handleSubmit user id now db st).2 = db
     ∧ (Zod.issues applicationSchema
          (application_object (Applications.company st)
             (Applications.position st) (Applications.notes st)) = [] →
        Applications.handleSubmit user id now db st
        = ([toast_error "Failed to create application"], st, db)))
  ∧ (∀ st : ApplicationDetail.State,
       ApplicationDetail.status st = status →
       (ApplicationDetail.handleUpdate user id now db st).2 = db
       ∧ (Zod.issues applicationSchema
            (application_object (ApplicationDetail.company st)
               (ApplicationDetail.position st) (ApplicationDetail.notes st))
          = [] →
          is_Some (select_application user id db) →
          ApplicationDetail.handleUpdate user id now db st
          = ([toast_error "Failed to update application"], st, db)
          ∧ ¬ is_validation_error applicationSchema
                (application_object (ApplicationDetail.company st)
                   (ApplicationDetail.position st)
                   (ApplicationDetail.notes st))
                (ApplicationDetail.handleUpdate user id now db st).1.1)).
Proof.
  intros Hstatus.
  assert (valid_status status = false) as Hinvalid.
  { unfold valid_status. by apply bool_decide_eq_false. }
  split.
  - intros st <-. unfold Applications.handleSubmit.
    destruct (Zod.issues _ _) as [|issue rest]; [|by split].
    destruct (insert_application _ _ _ _ _) as [e|db'] eqn:E; [by split|].
    apply insert_application_inr in E as (_ & owner & _ & _ & Hvalid & _).
    simpl in Hvalid. congruence.
  - intros st <-. unfold ApplicationDetail.handleUpdate.
    pose proof (update_application_cases user id now
      {| upd_company := trim (ApplicationDetail.company st);
         upd_position := trim (ApplicationDetail.position st);
         upd_status := ApplicationDetail.status st;
         upd_notes := or_null (trim (ApplicationDetail.notes st)) |} db) as H.
    cbn [upd_status] in H. rewrite Hinvalid in H.
    destruct (Zod.issues _ _) as [|issue rest] eqn:Hissues.
    + destruct (select_application user id db) as [old|];
        [destruct (application_update_storable _)|]; rewrite H.
      1,2: split; [done|]; intros _ _; split; [done|];
        intros (issue & Hin & _); unfold is_validation_error in *;
        rewrite Hissues in Hin; by apply elem_of_nil in Hin.
      destruct (ApplicationDetail.fetchApplication _ _ _ _).
        split; [done|]. by intros _ [? [=]].
    + split; [done|]. done.
Qed.

Lemma status_checked_by_storage_witness :
  (ApplicationDetail.handleUpdate (Some alice) 10%N 200%Z sample_db
     unknown_status_form).2 = sample_db.
Proof.
  apply (status_checked_by_storage (Some alice) 10%N 200%Z sample_db
           (js "nonexistent")); [|reflexivity].
  apply (bool_decide_unpack _). by vm_compute.
Defined.

(** C4, as the claim puts it, fails: updating Alice's application with the
    status "nonexistent" is not answered with a validation error.  The
    schema reports no issue; the toast is the generic update failure. *)
Lemma update_unknown_status_not_validation_error :
  Zod.issues applicationSchema
    (application_object (ApplicationDetail.company unknown_status_form)
       (ApplicationDetail.position unknown_status_form)
       (ApplicationDetail.notes unknown_status_form)) = []
  ∧ (ApplicationDetail.handleUpdate (Some alice) 10%N 200%Z sample_db
       unknown_status_form).1.1
    = [toast_error "Failed to update application"]
  ∧ (ApplicationDetail.handleUpdate (Some alice) 10%N 200%Z sample_db
       unknown_status_form).2 = sample_db
  ∧ ¬ is_validation_error applicationSchema
        (application_object (ApplicationDetail.company unknown_status_form)
           (ApplicationDetail.position unknown_status_form)
           (ApplicationDetail.notes unknown_status_form))
        (ApplicationDetail.handleUpdate (Some alice) 10%N 200%Z sample_db
           unknown_status_form).1.1.
Proof.
  assert (Zod.issues applicationSchema
            (application_object (ApplicationDetail.company unknown_status_form)
               (ApplicationDetail.position unknown_status_form)
               (ApplicationDetail.notes unknown_status_form)) = [])
    as Hnil by by vm_compute.
  split; [done|]. split; [by vm_compute|]. split; [by vm_compute|].
  intros (issue & Hin & _). rewrite Hnil in Hin. by apply elem_of_nil in Hin.
Qed.

(** C9.  Update-Application never changes the id or the owner of a record:
    the table keeps its ids, every row keeps its owner (and its creation
    time), and only the row under the updated id can differ.  Whenever the
    call reports success on a record the caller sees, the row is rewritten
    with [updated_at] set to the time of the call, and the page reloads that
    row.  It does report success for a valid form with a known status whose
    text the storage can hold; a call that does not go through leaves the
    store as it was. *)
Theorem update_application_frame
    (user : option uuid) (id : uuid) (now : timestamptz) (db : DB)
    (st : ApplicationDetail.State) :
  let result := ApplicationDetail.handleUpdate user id now db st in
  dom (db_applications result.2) = dom (db_applications db)
  ∧ db_tasks result.2 = db_tasks db
  ∧ (∀ i r, db_applications db !! i = Some r →
       ∃ r', db_applications result.2 !! i = Some r'
             ∧ app_user_id r' = app_user_id r
             ∧ app_created_at r' = app_created_at r
             ∧ (i ≠ id → r' = r))
  ∧ (∀ old, select_application user id db = Some old →
       head result.1.1
       = Some (toast_success "Application updated successfully") →
       db_applications result.2 !! id
       = Some (updated_application old now (update_body st))
       ∧ app_updated_at (updated_application old now (update_body st)) = now
       ∧ ApplicationDetail.application result.1.2
         = Some (id, updated_application old now (update_body st))
       ∧ result.1.1 = [toast_success "Application updated successfully"])
  ∧ (∀ old, update_goes_through user id db st old →
       storable_input [ApplicationDetail.company st;
                       ApplicationDetail.position st;
                       ApplicationDetail.notes st] →
       head result.1.1
       = Some (toast_success "Application updated successfully"))
  ∧ ((∀ old, ¬ update_goes_through user id db st old) → result.2 = db).
Proof.
  intros result. subst result.
  assert ((ApplicationDetail.handleUpdate user id now db st).2 = db →
          dom (db_applications
                 (ApplicationDetail.handleUpdate user id now db st).2)
          = dom (db_applications db)
          ∧ db_tasks (ApplicationDetail.handleUpdate user id now db st).2
            = db_tasks db
          ∧ (∀ i r, db_applications db !! i = Some r →
               ∃ r', db_applications
                       (ApplicationDetail.handleUpdate user id now db st).2
                     !! i = Some r'
                     ∧ app_user_id r' = app_user_id r
                     ∧ app_created_at r' = app_created_at r
                     ∧ (i ≠ id → r' = r))) as Hsame.
  { intros ->. split; [done|]. split; [done|]. intros i r Hr. by exists r. }
  destruct (select_application user id db) as [old|] eqn:Hsel.
  - destruct (handleUpdate_seen user id now db st old Hsel)
      as [[Hgo Hstor]|[Hdb [message Hm]]].
    + rewrite (handleUpdate_success user id now db st old Hgo Hstor).
      cbn [fst snd db_applications db_tasks with_applications
           ApplicationDetail.application head].
      pose proof Hsel as [Hold Huser]%select_application_Some.
      split. { by apply dom_insert_lookup_L. }
      split; [done|]. split.
      { intros i r Hr. destruct (decide (id = i)) as [<-|Hi].
        - rewrite lookup_insert_eq. rewrite Hold in Hr. injection Hr as <-.
          eexists. split; [done|]. by repeat split.
        - rewrite lookup_insert_ne by done. by exists r. }
      split.
      { intros old' [= <-] _. by rewrite lookup_insert_eq. }
      split; [done|].
      intros Hno. by destruct (Hno old).
    + destruct (Hsame Hdb) as (H1 & H2 & H3).
      split; [done|]. split; [done|]. split; [done|].
      split. { intros old' _. by rewrite Hm. }
      split; [|done].
      intros old' Hgo Hstor.
      by rewrite (handleUpdate_success user id now db st old' Hgo Hstor).
  - pose proof (handleUpdate_unseen user id now db st Hsel) as Hdb.
    destruct (Hsame Hdb) as (H1 & H2 & H3).
    split; [done|]. split; [done|]. split; [done|].
    split; [done|]. split; [|done].
    intros old' (_ & _ & Hs). congruence.
Qed.

Lemma update_application_frame_witness :
  db_applications
    (ApplicationDetail.handleUpdate (Some alice) 10%N 200%Z sample_db
       (detail_form " Acme Corp" "Engineer" "offer" "")).2 !! 10%N
  = Some (updated_application acme 200%Z
            (update_body (detail_form " Acme Corp" "Engineer" "offer" ""))).
Proof.
  refine (proj1 (proj1 (proj2 (proj2 (proj2
            (update_application_frame (Some alice) 10%N 200%Z sample_db
               (detail_form " Acme Corp" "Engineer" "offer" "")))))
            acme _ _)).
  - reflexivity.
  - reflexivity.
Defined.

(** C5, as the code has it.  For a valid form whose text the storage can
    hold (no U+0000, no unpaired surrogate), submitted by a signed-up
    caller, Create-Application succeeds and Get-Application of the new id
    returns the record of the form up to whitespace: company and position
    trimmed, notes trimmed and null when nothing is left, the status as
    given, the caller as owner.  The status of an untouched form is
    "applied", and so is the column default.  A form whose company and
    position are already trimmed gets them back unchanged. *)
Theorem create_then_get
    (owner new_id : uuid) (now : timestamptz) (db : DB)
    (st : Applications.State) (st0 : ApplicationDetail.State) :
  Zod.issues applicationSchema
    (application_object (Applications.company st) (Applications.position st)
       (Applications.notes st)) = [] →
  storable_input [Applications.company st; Applications.position st;
                  Applications.notes st] →
  valid_status (Applications.status st) = true →
  owner ∈ db_profiles db →
  db_applications db !! new_id = None →
  let created := Applications.handleSubmit (Some owner) new_id now db st in
  let got := ApplicationDetail.fetchApplication (Some owner) new_id
               created.2 st0 in
  created.1.1 = [toast_success "Application created successfully"]
  ∧ got.1 = []
  ∧ ApplicationDetail.application got.2
    = Some (new_id, created_application owner now st)
  ∧ (trimmed (Applications.company st) →
     app_company (created_application owner now st) = Applications.company st)
  ∧ (trimmed (Applications.position st) →
     app_position (created_application owner now st)
     = Applications.position st)
  ∧ Applications.status Applications.initial = js "applied"
  ∧ (∀ v, ins_status v = None →
          app_status (inserted_application owner now v) = js "applied").
Proof.
  intros Hissues Hstor Hvalid Hprofile Hfresh created got. subst created got.
  rewrite (handleSubmit_success owner new_id now db st).
  2:{ split; [done|]. split; [done|]. split; [done|]. split; [|done].
      by exists owner. }
  assert (select_application (Some owner) new_id
            (with_applications db
               (<[new_id := created_application owner now st]>
                  (db_applications db)))
          = Some (created_application owner now st)) as Hsel.
  { apply select_application_Some. simpl. by rewrite lookup_insert_eq. }
  unfold ApplicationDetail.fetchApplication.
  cbn [fst snd]. rewrite Hsel. cbn [fst snd ApplicationDetail.application].
  split; [done|]. split; [done|]. split; [done|].
  split; [apply trimmed_fixed|]. split; [apply trimmed_fixed|].
  split; [done|]. intros v Hv. unfold inserted_application. simpl.
  by rewrite Hv.
Qed.

Lemma create_then_get_witness :
  ApplicationDetail.application
    (ApplicationDetail.fetchApplication (Some alice) 12%N
       (Applications.handleSubmit (Some alice) 12%N 200%Z sample_db
          padded_form).2
       ApplicationDetail.initial).2
  = Some (12%N, created_application alice 200%Z
                  padded_form).
Proof.
  apply (create_then_get alice 12%N 200%Z sample_db
           padded_form
           ApplicationDetail.initial).
  - reflexivity.
  - by repeat constructor.
  - reflexivity.
  - apply (bool_decide_unpack _). by vm_compute.
  - reflexivity.
Defined.

(** C5, as the claim puts it, fails: Alice creates an application whose
    company is " Initech " (a valid input); Get-Application of the new id
    returns the company "Initech", which is not the company she supplied. *)
Lemma create_then_get_not_identity :
  Zod.issues applicationSchema
    (application_object (Applications.company padded_form)
       (Applications.position padded_form) (Applications.notes padded_form))
  = []
  ∧ ∃ r,
      ApplicationDetail.application
        (ApplicationDetail.fetchApplication (Some alice) 12%N
           (Applications.handleSubmit (Some alice) 12%N 200%Z sample_db
              padded_form).2
           ApplicationDetail.initial).2
      = Some (12%N, r)
      ∧ app_company r = js "Initech"
      ∧ app_company r ≠ Applications.company padded_form.
Proof.
  split; [by vm_compute|].
  eexists. split; [by vm_compute|]. split; [by vm_compute|]. by vm_compute.
Qed.

(** ** The task statements and handlers *)
Section task_facts.

Lemma insert_task_inr auth_uid new_id now v db db' :
  insert_task auth_uid new_id now v db = inr db'
  ↔ task_insert_storable v = true
    ∧ ∃ owner,
      tins_user_id v = Some owner ∧ auth_uid = Some owner
      ∧ db_tasks db !! new_id = None
      ∧ owner ∈ db_profiles db
      ∧ is_Some (db_applications db !! tins_application_id v)
      ∧ db' = with_tasks db (<[new_id := inserted_task owner now v]> (db_tasks db)).
Proof.
  unfold insert_task, users_own_task, inserted_task, task_insert_storable.
  destruct (storable_text (tins_title v) && storable_nullable (tins_notes v));
    simpl.
  2:{ split; [done|]. by intros [? _]. }
  destruct (storable_date (tins_due_date v)); simpl.
  2:{ split; [done|]. by intros [? _]. }
  destruct (tins_user_id v) as [owner|]; simpl.
  2:{ split; [done|]. by intros (_ & ? & ? & _). }
  split.
  - intros H. split; [done|]. exists owner.
    destruct (bool_decide (auth_uid = Some owner)) eqn:E1; simpl in H; [|done].
    destruct (bool_decide (is_Some (db_tasks db !! new_id))) eqn:E3;
      simpl in H; [done|].
    destruct (bool_decide (owner ∈ _)) eqn:E4; simpl in H; [|done].
    destruct (bool_decide (is_Some (db_applications db !! _))) eqn:E5;
      simpl in H; [|done].
    apply bool_decide_eq_true in E1, E4, E5. apply bool_decide_eq_false in E3.
    rewrite <- eq_None_not_Some in E3. by injection H as <-.
  - intros (_ & o & [= <-] & -> & Hfresh & Hprof & Happ & ->).
    rewrite bool_decide_eq_true_2 by done. simpl.
    rewrite bool_decide_eq_false_2 by (by rewrite <- eq_None_not_Some).
    by rewrite !bool_decide_eq_true_2 by done.
Qed.

Lemma update_task_cases auth_uid id now v db :
  match select_task auth_uid id db with
  | None => update_task auth_uid id now v db = inr db
  | Some old =>
      if task_update_storable v
      then if bool_decide (task_application_id (updated_task old now v)
                           = task_application_id old)
              || bool_decide (is_Some (db_applications db
                                  !! task_application_id (updated_task old now v)))
           then update_task auth_uid id now v db
                = inr (with_tasks db
                         (<[id := updated_task old now v]> (db_tasks db)))
           else update_task auth_uid id now v db = inl foreign_key_violation
      else ∃ e, update_task auth_uid id now v db = inl e
  end.
Proof.
  destruct (select_task auth_uid id db) as [old|] eqn:E;
    unfold update_task; unfold select_task in E; rewrite E; [|done].
  apply select_task_Some in E as [_ ->].
  unfold task_update_storable.
  destruct (from_option storable_text true (tupd_title v)
            && from_option storable_nullable true (tupd_notes v));
    simpl; [|by eauto].
  destruct (from_option storable_date true (tupd_due_date v));
    simpl; [|by eauto].
  unfold users_own_task. simpl.
  rewrite (bool_decide_eq_true_2 (Some (task_user_id old) = _)) by done. simpl.
  by destruct (_ || _).
Qed.

(** The bodies the task forms send are storable when the trimmed text of
    the form is and the due date is in range; the body of a toggle always
    is. *)
Lemma task_insert_body_storable user app_id st :
  task_insert_storable (create_task_body user app_id st) = true
  ↔ storable_input [Tasks.title st; Tasks.notes st]
    ∧ storable_date (Tasks.dueDate st) = true.
Proof.
  unfold task_insert_storable, storable_input. simpl.
  rewrite storable_nullable_or_null, !andb_true_iff.
  rewrite !Forall_cons, Forall_nil. tauto.
Qed.

Lemma task_update_body_storable app_id st :
  task_update_storable (update_task_body app_id st) = true
  ↔ storable_input [TaskDetail.title st; TaskDetail.notes st]
    ∧ storable_date (TaskDetail.dueDate st) = true.
Proof.
  unfold task_update_storable, storable_input. simpl.
  rewrite storable_nullable_or_null, !andb_true_iff.
  rewrite !Forall_cons, Forall_nil. tauto.
Qed.

Lemma toggle_body_storable t : task_update_storable (toggle_body t) = true.
Proof. reflexivity. Qed.

Lemma tasks_handleSubmit_cases user new_id now db st :
  match Zod.issues taskSchema (task_object (Tasks.title st) (Tasks.notes st)),
        Tasks.applicationId st with
  | issue :: _, _ =>
      Tasks.handleSubmit user new_id now db st
      = ([toast_error (Zod.message issue)], st, db)
  | [], None =>
      Tasks.handleSubmit user new_id now db st
      = ([toast_error "Please select an application"], st, db)
  | [], Some app_id =>
      match insert_task user new_id now (create_task_body user app_id st) db with
      | inl _ =>
          Tasks.handleSubmit user new_id now db st
          = ([toast_error "Failed to create task"], st, db)
      | inr db' =>
          (Tasks.handleSubmit user new_id now db st).1.1
          = [toast_success "Task created successfully"]
          ∧ (Tasks.handleSubmit user new_id now db st).2 = db'
      end
  end.
Proof.
  unfold Tasks.handleSubmit, create_task_body.
  destruct (Zod.issues _ _); [|done].
  destruct (Tasks.applicationId st); [|done].
  by destruct (insert_task _ _ _ _ _).
Qed.

Lemma taskdetail_handleUpdate_cases user id now db st :
  match Zod.issues taskSchema
          (task_object (TaskDetail.title st) (TaskDetail.notes st)),
        TaskDetail.applicationId st with
  | issue :: _, _ =>
      TaskDetail.handleUpdate user id now db st
      = ([toast_error (Zod.message issue)], st, db)
  | [], None =>
      TaskDetail.handleUpdate user id now db st
      = ([toast_error "Please select an application"], st, db)
  | [], Some app_id =>
      match update_task user id now (update_task_body app_id st) db with
      | inl _ =>
          TaskDetail.handleUpdate user id now db st
          = ([toast_error "Failed to update task"], st, db)
      | inr db' =>
          head (TaskDetail.handleUpdate user id now db st).1.1
          = Some (toast_success "Task updated successfully")
          ∧ (TaskDetail.handleUpdate user id now db st).2 = db'
      end
  end.
Proof.
  unfold TaskDetail.handleUpdate, update_task_body.
  destruct (Zod.issues _ _); [|done].
  destruct (TaskDetail.applicationId st); [|done].
  destruct (update_task _ _ _ _ _); [done|].
  by destruct (TaskDetail.fetchTask _ _ _ _).
Qed.

End task_facts.

(** C7, as the code has it.  The parent of a task is checked for existence
    only (the foreign key of [application_id]), never for its owner.
    Create-Task with an applicationId that references no application, and
    Update-Task reassigning the parent to such an id, fail with the generic
    failure of the handler and leave the store as it was.  When the
    application exists, whoever owns it, a valid Create-Task of a signed-up
    caller stores the task under it, and a valid Update-Task of a task of
    the caller moves the task under it; valid here includes that the
    storage can hold the text of the form (no U+0000, no unpaired surrogate)
    and that the due date is in the range of the column. *)
Theorem task_parent_checked_for_existence_only
    (user : option uuid) (id : uuid) (now : timestamptz) (db : DB)
    (app_id : uuid) :
  (db_applications db !! app_id = None →
   (∀ st : Tasks.State,
      Tasks.applicationId st = Some app_id →
      (Tasks.handleSubmit user id now db st).2 = db
      ∧ (Zod.issues taskSchema (task_object (Tasks.title st) (Tasks.notes st))
         = [] →
         Tasks.handleSubmit user id now db st
         = ([toast_error "Failed to create task"], st, db)))
   ∧ (∀ st : TaskDetail.State,
        TaskDetail.applicationId st = Some app_id →
        (∀ old, select_task user id db = Some old →
                task_application_id old ≠ app_id) →
        (TaskDetail.handleUpdate user id now db st).2 = db
        ∧ (Zod.issues taskSchema
             (task_object (TaskDetail.title st) (TaskDetail.notes st)) = [] →
           is_Some (select_task user id db) →
           TaskDetail.handleUpdate user id now db st
           = ([toast_error "Failed to update task"], st, db))))
  ∧ (is_Some (db_applications db !! app_id) →
     (∀ (st : Tasks.State) owner,
        user = Some owner → owner ∈ db_profiles db →
        db_tasks db !! id = None →
        Zod.issues taskSchema (task_object (Tasks.title st) (Tasks.notes st))
        = [] →
        storable_input [Tasks.title st; Tasks.notes st] →
        storable_date (Tasks.dueDate st) = true →
        Tasks.applicationId st = Some app_id →
        (Tasks.handleSubmit user id now db st).1.1
        = [toast_success "Task created successfully"]
        ∧ db_tasks (Tasks.handleSubmit user id now db st).2 !! id
          = Some (inserted_task owner now (create_task_body user app_id st)))
     ∧ (∀ (st : TaskDetail.State) old,
          select_task user id db = Some old →
          Zod.issues taskSchema
            (task_object (TaskDetail.title st) (TaskDetail.notes st)) = [] →
          storable_input [TaskDetail.title st; TaskDetail.notes st] →
          storable_date (TaskDetail.dueDate st) = true →
          TaskDetail.applicationId st = Some app_id →
          head (TaskDetail.handleUpdate user id now db st).1.1
          = Some (toast_success "Task updated successfully")
          ∧ db_tasks (TaskDetail.handleUpdate user id now db st).2 !! id
            = Some (updated_task old now (update_task_body app_id st)))).
Proof.
  split.
  - intros Hmissing. split.
    + intros st Happ.
      pose proof (tasks_handleSubmit_cases user id now db st) as H.
      rewrite Happ in H.
      destruct (Zod.issues _ _) as [|issue rest]; [|by rewrite H].
      destruct (insert_task _ _ _ _ _) as [e|db'] eqn:E; [by rewrite H|].
      apply insert_task_inr in E as (_ & _ & _ & _ & _ & _ & [a Ha] & _).
      simpl in Ha. congruence.
    + intros st Happ Hreassign.
      pose proof (taskdetail_handleUpdate_cases user id now db st) as H.
      rewrite Happ in H.
      destruct (Zod.issues _ _) as [|issue rest]; [|by rewrite H].
      pose proof (update_task_cases user id now (update_task_body app_id st) db)
        as Hu.
      destruct (select_task user id db) as [old|] eqn:Hsel.
      * destruct (task_update_storable _).
        2:{ destruct Hu as [e Hu]. rewrite Hu in H. by rewrite H. }
        simpl in Hu.
        rewrite bool_decide_eq_false_2 in Hu
          by (intros Heq; by apply (Hreassign old)).
        rewrite bool_decide_eq_false_2 in Hu
          by (rewrite Hmissing; by intros [? [=]]).
        simpl in Hu. rewrite Hu in H. by rewrite H.
      * rewrite Hu in H. destruct H as [_ ->]. split; [done|].
        by intros _ [? [=]].
  - intros Hexists. split.
    + intros st owner -> Hprofile Hfresh Hissues Hstor Hdate Happ.
      pose proof (tasks_handleSubmit_cases (Some owner) id now db st) as H.
      rewrite Happ, Hissues in H.
      destruct (insert_task _ _ _ _ _) as [e|db'] eqn:E.
      * exfalso.
        assert (∃ db', insert_task (Some owner) id now
                         (create_task_body (Some owner) app_id st) db
                       = inr db') as [db' Hdb'].
        { eexists. apply insert_task_inr.
          split; [by apply task_insert_body_storable|].
          exists owner. by repeat split. }
        congruence.
      * destruct H as [-> ->]. split; [done|].
        apply insert_task_inr in E as (_ & o & [= <-] & _ & _ & _ & _ & ->).
        simpl. by rewrite lookup_insert_eq.
    + intros st old Hsel Hissues Hstor Hdate Happ.
      pose proof (taskdetail_handleUpdate_cases user id now db st) as H.
      rewrite Happ, Hissues in H.
      pose proof (update_task_cases user id now (update_task_body app_id st) db)
        as Hu.
      rewrite Hsel in Hu.
      rewrite (proj2 (task_update_body_storable app_id st)) in Hu by done.
      rewrite (bool_decide_eq_true_2 (is_Some _)) in Hu by done.
      rewrite orb_true_r in Hu. rewrite Hu in H. destruct H as [-> ->].
      split; [done|]. simpl. by rewrite lookup_insert_eq.
Qed.

Lemma task_parent_checked_for_existence_only_witness :
  (Tasks.handleSubmit (Some bob) 23%N 200%Z sample_db
     (task_form "Follow up" (Some 99%N))).2 = sample_db
  ∧ db_tasks (Tasks.handleSubmit (Some bob) 23%N 200%Z sample_db
                (task_form "Follow up" (Some 10%N))).2 !! 23%N
    = Some (inserted_task bob 200%Z
              (create_task_body (Some bob) 10%N
                 (task_form "Follow up" (Some 10%N)))).
Proof.
  split.
  - apply (task_parent_checked_for_existence_only (Some bob) 23%N 200%Z
             sample_db 99%N); reflexivity.
  - apply (task_parent_checked_for_existence_only (Some bob) 23%N 200%Z
             sample_db 10%N) with (owner := bob);
      first [ reflexivity | by eexists | by repeat constructor
            | apply (bool_decide_unpack _); by vm_compute ].
Defined.

(** C7, as the claim puts it, fails.  Application 10 is Alice's.  Bob
    creates a task under it: the call succeeds and the task is stored with
    Bob as owner and Alice's application as parent.  Bob then moves his own
    task 22 under it: the call succeeds and the task is modified. *)
Lemma task_under_foreign_application :
  app_user_id <$> db_applications sample_db !! 10%N = Some alice
  ∧ (Tasks.handleSubmit (Some bob) 23%N 200%Z sample_db
       (task_form "Follow up" (Some 10%N))).1.1
    = [toast_success "Task created successfully"]
  ∧ db_tasks (Tasks.handleSubmit (Some bob) 23%N 200%Z sample_db
                (task_form "Follow up" (Some 10%N))).2 !! 23%N
    = Some {| task_application_id := 10%N; task_user_id := bob;
              task_title := js "Follow up"; task_due_date := None;
              task_completed := false; task_notes := None;
              task_created_at := 200; task_updated_at := 200 |}
  ∧ (task_application_id <$> db_tasks sample_db !! 22%N) = Some 11%N
  ∧ head (TaskDetail.handleUpdate (Some bob) 22%N 200%Z sample_db
            (task_detail_form "Prepare" (Some 10%N))).1.1
    = Some (toast_success "Task updated successfully")
  ∧ (task_application_id
       <$> db_tasks (TaskDetail.handleUpdate (Some bob) 22%N 200%Z sample_db
                       (task_detail_form "Prepare" (Some 10%N))).2 !! 22%N)
    = Some 10%N.
Proof. by vm_compute. Qed.

(** ** Listing tasks *)
Section list_tasks.

Lemma tasks_order_listed_before x y : tasks_order x y ↔ listed_before x y.
Proof.
  unfold tasks_order, listed_before, due_before, due_date_then_created_at.
  destruct (task_due_date (tw_task x)) as [dx|],
           (task_due_date (tw_task y)) as [dy|].
  - rewrite orb_true_iff, andb_true_iff, Z.ltb_lt, Z.eqb_eq, Z.leb_le.
    split; (intros [?|[? ?]]; [by left|right]); [by subst|].
    split; [congruence|done].
  - split; [by left|done].
  - split; [done|]. by intros [?|[? _]].
  - rewrite Z.leb_le. split; [by right|]. by intros [?|[_ ?]].
Qed.

Global Instance tasks_order_total : Total tasks_order.
Proof.
  intros x y. rewrite !tasks_order_listed_before.
  unfold listed_before, due_before.
  destruct (task_due_date (tw_task x)) as [dx|],
           (task_due_date (tw_task y)) as [dy|].
  - destruct (Z.lt_trichotomy dx dy) as [?|[->|?]]; [by left; left| |by right; left].
    destruct (Z.le_gt_cases (task_created_at (tw_task y))
                (task_created_at (tw_task x))); [left|right]; right;
      (split; [done|lia]).
  - by left; left.
  - by right; left.
  - destruct (Z.le_gt_cases (task_created_at (tw_task y))
                (task_created_at (tw_task x))); [left|right]; right;
      (split; [done|lia]).
Qed.

Global Instance tasks_order_trans : Transitive tasks_order.
Proof.
  intros x y z. rewrite !tasks_order_listed_before.
  unfold listed_before, due_before.
  destruct (task_due_date (tw_task x)) as [dx|],
           (task_due_date (tw_task y)) as [dy|],
           (task_due_date (tw_task z)) as [dz|];
    intros [H1|[H1 H1']] [H2|[H2 H2']]; simplify_eq;
    try done; try (by left); try (left; lia); right; (split; [done|lia]).
Qed.

Lemma StronglySorted_weaken {A} (R1 R2 : relation A) (l : list A) :
  (∀ x y, R1 x y → R2 x y) → StronglySorted R1 l → StronglySorted R2 l.
Proof.
  intros HR. induction 1 as [|x l _ IH Hx]; constructor; [done|].
  eapply Forall_impl; [exact Hx|]. intros y. apply HR.
Qed.

Lemma select_tasks_sorted user db :
  StronglySorted listed_before (select_tasks_with_applications user db).
Proof.
  unfold select_tasks_with_applications.
  eapply StronglySorted_weaken; [|apply StronglySorted_merge_sort; apply _].
  intros x y. apply tasks_order_listed_before.
Qed.

Lemma elem_of_select_tasks user db tw :
  tw ∈ select_tasks_with_applications user db
  ↔ select_task user (tw_id tw) db = Some (tw_task tw)
    ∧ tw_applications tw
      = application_summary
          <$> select_application user (task_application_id (tw_task tw)) db.
Proof.
  unfold select_tasks_with_applications.
  rewrite merge_sort_Permutation, list_elem_of_fmap. split.
  - intros ([i r] & -> & Hin). by apply elem_of_map_to_list in Hin.
  - intros [Hsel Happ]. exists (tw_id tw, tw_task tw). split.
    + destruct tw as [i r a]. unfold embed_application. simpl in *.
      by rewrite Happ.
    + by apply elem_of_map_to_list.
Qed.

Lemma select_tasks_NoDup user db :
  NoDup (tw_id <$> select_tasks_with_applications user db).
Proof.
  unfold select_tasks_with_applications.
  rewrite merge_sort_Permutation, <- list_fmap_compose.
  apply (NoDup_fst_map_to_list (visible_tasks user db)).
Qed.

End list_tasks.

(** C6.  List-Tasks returns exactly the caller's tasks, each once, each
    with the company and position of its parent application attached (the
    application the caller sees under [application_id]), sorted by due date
    ascending with the tasks without a due date last, and by creation time
    descending among tasks with the same due date. *)
Theorem list_tasks_sorted (user : option uuid) (db : DB) (st : Tasks.State) :
  let listed := Tasks.tasks (Tasks.fetchTasks user db st) in
  StronglySorted listed_before listed
  ∧ NoDup (tw_id <$> listed)
  ∧ (∀ tw, tw ∈ listed ↔
       db_tasks db !! tw_id tw = Some (tw_task tw)
       ∧ user = Some (task_user_id (tw_task tw))
       ∧ tw_applications tw
         = application_summary
             <$> select_application user
                   (task_application_id (tw_task tw)) db)
  ∧ (∀ tw a, tw ∈ listed →
       db_applications db !! task_application_id (tw_task tw) = Some a →
       app_user_id a = task_user_id (tw_task tw) →
       tw_applications tw = Some (app_company a, app_position a)).
Proof.
  simpl. split; [apply select_tasks_sorted|].
  split; [apply select_tasks_NoDup|].
  assert (∀ tw, tw ∈ select_tasks_with_applications user db ↔
            db_tasks db !! tw_id tw = Some (tw_task tw)
            ∧ user = Some (task_user_id (tw_task tw))
            ∧ tw_applications tw
              = application_summary
                  <$> select_application user
                        (task_application_id (tw_task tw)) db) as Hin.
  { intros tw. rewrite elem_of_select_tasks, select_task_Some. tauto. }
  split; [done|].
  intros tw a (_ & Huser & ->)%Hin Ha Howner.
  assert (select_application user (task_application_id (tw_task tw)) db
          = Some a) as ->; [|done].
  apply select_application_Some. split; [done|]. by rewrite Howner.
Qed.

Lemma list_tasks_sorted_witness :
  listed_call_back
  ∈ Tasks.tasks (Tasks.fetchTasks (Some alice) sample_db Tasks.initial)
  ∧ tw_applications listed_call_back = Some (app_company acme, app_position acme).
Proof.
  pose proof (list_tasks_sorted (Some alice) sample_db Tasks.initial)
    as (_ & _ & Hlisted & Hjoin).
  assert (listed_call_back
          ∈ Tasks.tasks (Tasks.fetchTasks (Some alice) sample_db Tasks.initial))
    as Hin.
  { apply Hlisted. repeat split; reflexivity. }
  split; [exact Hin|].
  apply (Hjoin listed_call_back acme Hin); reflexivity.
Defined.

(** ** Toggling a task *)
Section toggle.

Lemma toggleComplete_listed user now t db st :
  t ∈ select_tasks_with_applications user db →
  let db' := with_tasks db (<[tw_id t := tw_task (toggled now t)]> (db_tasks db)) in
  Tasks.toggleComplete user now t db st = ([], Tasks.fetchTasks user db' st, db')
  ∧ toggled now t ∈ select_tasks_with_applications user db'.
Proof.
  intros [Hsel Happ]%elem_of_select_tasks db'.
  pose proof (update_task_cases user (tw_id t) now (toggle_body t) db) as H.
  rewrite Hsel in H. simpl in H.
  rewrite bool_decide_eq_true_2 in H by done. simpl in H.
  split.
  - unfold Tasks.toggleComplete. fold (toggle_body t). by rewrite H.
  - apply elem_of_select_tasks. simpl. split.
    + apply select_task_Some. simpl. rewrite lookup_insert_eq.
      split; [done|]. by apply select_task_Some in Hsel as [_ ?].
    + exact Happ.
Qed.

Lemma select_tasks_same_id user db t t' :
  t ∈ select_tasks_with_applications user db →
  t' ∈ select_tasks_with_applications user db →
  tw_id t' = tw_id t → t' = t.
Proof.
  intros [Hsel Happ]%elem_of_select_tasks [Hsel' Happ']%elem_of_select_tasks Hid.
  destruct t as [i r a], t' as [i' r' a']. simpl in *. subst i'.
  rewrite Hsel in Hsel'. injection Hsel' as <-. by rewrite Happ, Happ'.
Qed.

Lemma toggled_toggled now1 now2 t :
  tw_task (toggled now2 (toggled now1 t)) = update_tasks_updated_at now2 (tw_task t).
Proof.
  destruct t as [i [] a]. unfold toggled, updated_task, update_tasks_updated_at.
  simpl. by rewrite negb_involutive.
Qed.

End toggle.

(** C8.  Toggle-Task-Completed applied twice to a task gives the task its
    completed value back.  The task is taken from the list as the page loads
    it from the store.  After the first toggle the reloaded list holds the
    task, under the same id, with the value flipped; toggling that one
    stores the task with the value it had at first (only [updated_at]
    moved), and leaves every other task as it was. *)
Theorem toggle_twice
    (user : option uuid) (now1 now2 : timestamptz) (db : DB)
    (st : Tasks.State) (t : task_with_application) :
  t ∈ Tasks.tasks (Tasks.fetchTasks user db st) →
  let once := Tasks.toggleComplete user now1 t db st in
  ∃ t1,
    t1 ∈ Tasks.tasks once.1.2
    ∧ tw_id t1 = tw_id t
    ∧ (∀ t', t' ∈ Tasks.tasks once.1.2 → tw_id t' = tw_id t → t' = t1)
    ∧ task_completed (tw_task t1) = negb (task_completed (tw_task t))
    ∧ (task_completed <$> db_tasks once.2 !! tw_id t)
      = Some (negb (task_completed (tw_task t)))
    ∧ let twice := Tasks.toggleComplete user now2 t1 once.2 once.1.2 in
      (task_completed <$> db_tasks twice.2 !! tw_id t)
      = (task_completed <$> db_tasks db !! tw_id t)
      ∧ db_tasks twice.2 !! tw_id t
        = Some (update_tasks_updated_at now2 (tw_task t))
      ∧ (∀ i, i ≠ tw_id t → db_tasks twice.2 !! i = db_tasks db !! i)
      ∧ db_applications twice.2 = db_applications db
      ∧ ∃ t2, t2 ∈ Tasks.tasks twice.1.2 ∧ tw_id t2 = tw_id t
              ∧ task_completed (tw_task t2) = task_completed (tw_task t).
Proof.
  intros Hin once. subst once.
  change (t ∈ select_tasks_with_applications user db) in Hin.
  destruct (toggleComplete_listed user now1 t db st Hin) as [Honce Hin1].
  rewrite Honce. cbn [fst snd].
  set (db1 := with_tasks db (<[tw_id t := tw_task (toggled now1 t)]> (db_tasks db)))
    in *.
  change (Tasks.tasks (Tasks.fetchTasks user db1 st))
    with (select_tasks_with_applications user db1).
  exists (toggled now1 t).
  split; [done|]. split; [done|].
  split. { intros t' Hin' Hid. by apply (select_tasks_same_id user db1). }
  split; [done|].
  split. { subst db1. simpl. by rewrite lookup_insert_eq. }
  destruct (toggleComplete_listed user now2 (toggled now1 t) db1
              (Tasks.fetchTasks user db1 st) Hin1) as [Htwice Hin2].
  rewrite Htwice. cbn [fst snd].
  apply elem_of_select_tasks in Hin as [[Hrow _]%select_task_Some _].
  pose proof (toggled_toggled now1 now2 t) as Hback.
  assert (∀ db2, db_tasks (with_tasks db1 db2) = db2) as Htasks by done.
  rewrite Htasks. change (tw_id (toggled now1 t)) with (tw_id t).
  rewrite lookup_insert_eq, Hback, Hrow.
  split; [done|]. split; [done|].
  split. { intros i Hi. subst db1. simpl. by rewrite !lookup_insert_ne by done. }
  split; [done|].
  exists (toggled now2 (toggled now1 t)).
  split; [|split; [done|by rewrite Hback]].
  rewrite <- Hback. exact Hin2.
Qed.

Lemma toggle_twice_witness :
  ∃ t1,
    t1 ∈ Tasks.tasks
           (Tasks.toggleComplete (Some alice) 200%Z listed_call_back sample_db
              Tasks.initial).1.2
    ∧ tw_id t1 = 20%N
    ∧ (task_completed
         <$> db_tasks
               (Tasks.toggleComplete (Some alice) 300%Z t1
                  (Tasks.toggleComplete (Some alice) 200%Z listed_call_back
                     sample_db Tasks.initial).2
                  (Tasks.toggleComplete (Some alice) 200%Z listed_call_back
                     sample_db Tasks.initial).1.2).2 !! 20%N)
      = (task_completed <$> db_tasks sample_db !! 20%N).
Proof.
  destruct (toggle_twice (Some alice) 200%Z 300%Z sample_db Tasks.initial
              listed_call_back)
    as (t1 & H1 & H2 & _ & _ & _ & H3 & _).
  - vm_compute. left.
  - exists t1. split; [exact H1|]. split; [exact H2 | exact H3].
Defined.

(** ** Reading under row-level security *)
Section reads.

Lemma elem_of_select_applications user db i r :
  (i, r) ∈ select_applications user db
  ↔ db_applications db !! i = Some r ∧ user = Some (app_user_id r).
Proof.
  unfold select_applications.
  rewrite merge_sort_Permutation, elem_of_map_to_list.
  apply select_application_Some.
Qed.

Lemma elem_of_select_application_summaries user db i c p :
  (i, c, p) ∈ select_application_summaries user db
  ↔ ∃ r, db_applications db !! i = Some r ∧ user = Some (app_user_id r)
         ∧ c = app_company r ∧ p = app_position r.
Proof.
  unfold select_application_summaries. rewrite list_elem_of_fmap. split.
  - intros ([i' r] & [= -> -> ->] & Hin%elem_of_select_applications).
    exists r. tauto.
  - intros (r & Hr & Hu & -> & ->). exists (i, r).
    split; [done|]. by apply elem_of_select_applications.
Qed.

Lemma fetchApplication_not_owned caller id db st r :
  db_applications db !! id = Some r → app_user_id r ≠ caller →
  ApplicationDetail.fetchApplication (Some caller) id db st
  = (application_not_found, st).
Proof.
  intros Hr Hne. unfold ApplicationDetail.fetchApplication.
  assert (select_application (Some caller) id db = None) as ->; [|done].
  apply select_application_None. intros r' Hr' [= ->]. congruence.
Qed.

Lemma fetchApplication_missing caller id db st :
  db_applications db !! id = None →
  ApplicationDetail.fetchApplication (Some caller) id db st
  = (application_not_found, st).
Proof.
  intros Hr. unfold ApplicationDetail.fetchApplication.
  assert (select_application (Some caller) id db = None) as ->; [|done].
  apply select_application_None. intros r' Hr'. congruence.
Qed.

Lemma fetchTask_not_owned caller id db st r :
  db_tasks db !! id = Some r → task_user_id r ≠ caller →
  TaskDetail.fetchTask (Some caller) id db st = (task_not_found, st).
Proof.
  intros Hr Hne. unfold TaskDetail.fetchTask.
  assert (select_task (Some caller) id db = None) as ->; [|done].
  apply select_task_None. intros r' Hr' [= ->]. congruence.
Qed.

Lemma fetchTask_missing caller id db st :
  db_tasks db !! id = None →
  TaskDetail.fetchTask (Some caller) id db st = (task_not_found, st).
Proof.
  intros Hr. unfold TaskDetail.fetchTask.
  assert (select_task (Some caller) id db = None) as ->; [|done].
  apply select_task_None. intros r' Hr'. congruence.
Qed.

(** Every read of the pages is a function of the rows the session sees. *)
Lemma reads_same_view user db db' :
  same_view user db db' →
  (∀ id st, ApplicationDetail.fetchApplication user id db' st
            = ApplicationDetail.fetchApplication user id db st)
  ∧ (∀ id st, TaskDetail.fetchTask user id db' st
              = TaskDetail.fetchTask user id db st)
  ∧ (∀ st, Applications.fetchApplications user db' st
           = Applications.fetchApplications user db st)
  ∧ (∀ st, Tasks.fetchTasks user db' st = Tasks.fetchTasks user db st)
  ∧ (∀ st, Tasks.fetchApplications user db' st
           = Tasks.fetchApplications user db st)
  ∧ (∀ st, TaskDetail.fetchApplications user db' st
           = TaskDetail.fetchApplications user db st)
  ∧ Dashboard.fetchStats user db' = Dashboard.fetchStats user db.
Proof.
  intros [Happs Htasks].
  assert (select_applications user db' = select_applications user db) as Hlist.
  { unfold select_applications. by rewrite Happs. }
  repeat split.
  - intros id st. unfold ApplicationDetail.fetchApplication, select_application.
    by rewrite Happs.
  - intros id st. unfold TaskDetail.fetchTask, select_task. by rewrite Htasks.
  - intros st. unfold Applications.fetchApplications. by rewrite Hlist.
  - intros st. unfold Tasks.fetchTasks, select_tasks_with_applications.
    rewrite Htasks. do 3 f_equal.
    unfold embed_application. by rewrite Happs.
  - intros st. unfold Tasks.fetchApplications, select_application_summaries.
    by rewrite Hlist.
  - intros st. unfold TaskDetail.fetchApplications, select_application_summaries.
    by rewrite Hlist.
  - unfold Dashboard.fetchStats. by rewrite Happs, Htasks.
Qed.

End reads.

(** C1.  A record of another owner is never returned.  Get-Application and
    Get-Task on the id of a record owned by someone else answer exactly as
    on an id that is not in the table: the same toast, the same navigation,
    the page state untouched.  The List operations (the applications list,
    the tasks list with its parent summaries, the application pickers)
    return rows of the caller only.  And no read depends on anything but
    the rows of the caller: on two stores in which the caller owns the
    same rows, every read returns the same. *)
Theorem owner_isolation (caller : uuid) (db : DB) :
  (∀ id r st,
     db_applications db !! id = Some r → app_user_id r ≠ caller →
     ApplicationDetail.fetchApplication (Some caller) id db st
     = (application_not_found, st)
     ∧ ∀ missing, db_applications db !! missing = None →
         ApplicationDetail.fetchApplication (Some caller) missing db st
         = ApplicationDetail.fetchApplication (Some caller) id db st)
  ∧ (∀ id r st,
       db_tasks db !! id = Some r → task_user_id r ≠ caller →
       TaskDetail.fetchTask (Some caller) id db st = (task_not_found, st)
       ∧ ∀ missing, db_tasks db !! missing = None →
           TaskDetail.fetchTask (Some caller) missing db st
           = TaskDetail.fetchTask (Some caller) id db st)
  ∧ (∀ st i r,
       (i, r) ∈ Applications.applications
                  (Applications.fetchApplications (Some caller) db st) →
       db_applications db !! i = Some r ∧ app_user_id r = caller)
  ∧ (∀ st tw,
       tw ∈ Tasks.tasks (Tasks.fetchTasks (Some caller) db st) →
       db_tasks db !! tw_id tw = Some (tw_task tw)
       ∧ task_user_id (tw_task tw) = caller
       ∧ ∀ summary, tw_applications tw = Some summary →
           ∃ a, db_applications db !! task_application_id (tw_task tw) = Some a
                ∧ app_user_id a = caller
                ∧ summary = application_summary a)
  ∧ (∀ i c p,
       (i, c, p) ∈ select_application_summaries (Some caller) db →
       ∃ r, db_applications db !! i = Some r ∧ app_user_id r = caller
            ∧ c = app_company r ∧ p = app_position r)
  ∧ (∀ db', same_view (Some caller) db db' →
       (∀ id st, ApplicationDetail.fetchApplication (Some caller) id db' st
                 = ApplicationDetail.fetchApplication (Some caller) id db st)
       ∧ (∀ id st, TaskDetail.fetchTask (Some caller) id db' st
                   = TaskDetail.fetchTask (Some caller) id db st)
       ∧ (∀ st, Applications.fetchApplications (Some caller) db' st
                = Applications.fetchApplications (Some caller) db st)
       ∧ (∀ st, Tasks.fetchTasks (Some caller) db' st
                = Tasks.fetchTasks (Some caller) db st)
       ∧ (∀ st, Tasks.fetchApplications (Some caller) db' st
                = Tasks.fetchApplications (Some caller) db st)
       ∧ (∀ st, TaskDetail.fetchApplications (Some caller) db' st
                = TaskDetail.fetchApplications (Some caller) db st)
       ∧ Dashboard.fetchStats (Some caller) db'
         = Dashboard.fetchStats (Some caller) db).
Proof.
  split; [|split; [|split; [|split; [|split]]]].
  - intros id r st Hr Hne.
    split; [by eapply fetchApplication_not_owned|].
    intros missing Hmissing.
    rewrite (fetchApplication_not_owned caller id db st r) by done.
    by apply fetchApplication_missing.
  - intros id r st Hr Hne.
    split; [by eapply fetchTask_not_owned|].
    intros missing Hmissing.
    rewrite (fetchTask_not_owned caller id db st r) by done.
    by apply fetchTask_missing.
  - intros st i r [Hr [= ->]]%elem_of_select_applications. done.
  - intros st tw Hin.
    change (tw ∈ select_tasks_with_applications (Some caller) db) in Hin.
    apply elem_of_select_tasks in Hin as [[Hr [= Hu]]%select_task_Some Happ].
    split; [done|]. split; [done|].
    intros summary Hs. rewrite Hs in Happ.
    destruct (select_application _ _ _) as [a|] eqn:Ha; [|done].
    apply select_application_Some in Ha as [Ha [= Hau]].
    exists a. injection Happ as ->. done.
  - intros i c p (r & Hr & [= Hu] & -> & ->)%elem_of_select_application_summaries.
    by exists r.
  - intros db'. apply reads_same_view.
Qed.

Lemma owner_isolation_witness :
  ApplicationDetail.fetchApplication (Some bob) 10%N sample_db
    ApplicationDetail.initial
  = (application_not_found, ApplicationDetail.initial)
  ∧ ApplicationDetail.fetchApplication (Some bob) 77%N sample_db
      ApplicationDetail.initial
    = ApplicationDetail.fetchApplication (Some bob) 10%N sample_db
        ApplicationDetail.initial.
Proof.
  pose proof (owner_isolation bob sample_db) as (Hget & _).
  destruct (Hget 10%N acme ApplicationDetail.initial) as [H1 H2].
  - reflexivity.
  - discriminate.
  - split; [exact H1|]. apply H2. reflexivity.
Defined.

(** ** Deleting an application *)
Section cascade.

Lemma cascade_delete_is_Some abort_after ids ts :
  is_Some (cascade_delete abort_after ids ts)
  ↔ cascade_completes abort_after (List.length ids).
Proof.
  revert abort_after ts.
  induction ids as [|i ids IH]; intros abort_after ts; simpl.
  - destruct abort_after as [k|]; simpl; split; eauto with lia.
  - destruct abort_after as [[|k]|]; simpl.
    + split; [by intros [? [=]] | lia].
    + rewrite IH. simpl. lia.
    + rewrite IH. done.
Qed.

Lemma cascade_delete_lookup abort_after ids ts ts' i :
  cascade_delete abort_after ids ts = Some ts' →
  ts' !! i = if decide (i ∈ ids) then None else ts !! i.
Proof.
  revert abort_after ts.
  induction ids as [|j ids IH]; intros abort_after ts; simpl.
  - intros [= <-].
    destruct (decide (i ∈ [])) as [Hin|_]; [by apply elem_of_nil in Hin|done].
  - intros H.
    assert (∃ abort', cascade_delete abort' ids (delete j ts) = Some ts')
      as [abort' H'].
    { destruct abort_after as [[|k]|]; [done|by eexists..]. }
    rewrite (IH _ _ H').
    destruct (decide (i ∈ ids)) as [Hin|Hin],
             (decide (i ∈ j :: ids)) as [Hin'|Hin']; try done.
    + exfalso. apply Hin'. by right.
    + apply elem_of_cons in Hin' as [->|?]; [|done]. apply lookup_delete_eq.
    + apply lookup_delete_ne. intros ->. apply Hin'. left.
Qed.

Lemma elem_of_referencing_tasks id ts i :
  i ∈ referencing_tasks id ts
  ↔ ∃ t, ts !! i = Some t ∧ task_application_id t = id.
Proof.
  unfold referencing_tasks. rewrite list_elem_of_fmap. split.
  - intros ([i' t] & -> & [Ht Hid]%elem_of_map_to_list%map_lookup_filter_Some).
    by exists t.
  - intros (t & Ht & Hid). exists (i, t). split; [done|].
    by apply elem_of_map_to_list, map_lookup_filter_Some.
Qed.

Lemma length_referencing_tasks id ts :
  List.length (referencing_tasks id ts)
  = size (filter (λ kv, task_application_id kv.2 = id) ts).
Proof. unfold referencing_tasks. by rewrite length_fmap, length_map_to_list. Qed.

(** A cascade that runs to its end leaves the tasks of the other
    applications, all of them and nothing else. *)
Lemma cascade_delete_filter abort_after id ts ts' :
  cascade_delete abort_after (referencing_tasks id ts) ts = Some ts' →
  ts' = filter (λ kv, task_application_id kv.2 ≠ id) ts.
Proof.
  intros H. apply map_eq. intros i.
  rewrite (cascade_delete_lookup _ _ _ _ i H).
  destruct (decide (i ∈ referencing_tasks id ts)) as [Hin|Hin].
  - apply elem_of_referencing_tasks in Hin as (t & Ht & Hid).
    symmetry. apply map_lookup_filter_None. right.
    intros t' Ht'. simpl. rewrite Ht in Ht'. injection Ht' as <-. by intros ?.
  - destruct (ts !! i) as [t|] eqn:Ht.
    + symmetry. apply map_lookup_filter_Some. split; [done|]. simpl.
      intros Hid. apply Hin, elem_of_referencing_tasks. by exists t.
    + symmetry. apply map_lookup_filter_None. by left.
Qed.

Lemma delete_application_cases user abort_after id db :
  match select_application user id db with
  | None => delete_application user abort_after id db = inr db
  | Some _ =>
      (cascade_completes abort_after
         (List.length (referencing_tasks id (db_tasks db)))
       ∧ delete_application user abort_after id db = inr (deleted id db))
      ∨ (¬ cascade_completes abort_after
             (List.length (referencing_tasks id (db_tasks db)))
         ∧ delete_application user abort_after id db = inl statement_aborted)
  end.
Proof.
  destruct (select_application user id db) as [a|] eqn:E;
    unfold delete_application; unfold select_application in E; rewrite E;
    [|done].
  pose proof (cascade_delete_is_Some abort_after
                (referencing_tasks id (db_tasks db)) (db_tasks db)) as Hc.
  destruct (cascade_delete _ _ _) as [ts'|] eqn:Hts.
  - left. split; [by apply Hc|].
    apply cascade_delete_filter in Hts as ->. done.
  - right. split; [|done]. intros [? [=]]%Hc.
Qed.

Lemma deleted_references_intact id db :
  references_intact db → references_intact (deleted id db).
Proof.
  intros Hdb i t [Ht Hid]%map_lookup_filter_Some. simpl in *.
  rewrite lookup_delete_ne by done. by eapply Hdb.
Qed.

Lemma size_deleted_tasks id db :
  size (db_tasks (deleted id db))
  + List.length (referencing_tasks id (db_tasks db))
  = size (db_tasks db).
Proof.
  rewrite length_referencing_tasks. simpl.
  rewrite <- (map_filter_union_complement
                (λ kv, task_application_id kv.2 = id) (db_tasks db)) at 3.
  rewrite map_size_disj_union by apply map_disjoint_filter_complement.
  lia.
Qed.

End cascade.

(** C2.  Delete-Application is all or nothing.  Whatever the storage does
    during the cascade, the store the call leaves is either the store it
    started from or the store without the application and without any of
    its dependent tasks; no store in between is ever returned.  When the
    caller owns the application and the cascade over its N dependent tasks
    completes, the application and exactly those N tasks are gone: no task
    references the id any more, and every other application and task is as
    it was.  When the cascade cannot complete, the call fails and nothing
    is deleted.  Referential integrity of the tasks is kept either way. *)
Theorem delete_application_cascade
    (user : option uuid) (abort_after : option nat) (id : uuid) (db : DB)
    (st : ApplicationDetail.State) :
  let result := ApplicationDetail.handleDelete user abort_after id db st in
  let N := List.length (referencing_tasks id (db_tasks db)) in
  (result.2 = db ∨ result.2 = deleted id db)
  ∧ (is_Some (select_application user id db) →
     cascade_completes abort_after N →
     result = ([toast_success "Application deleted successfully";
                navigate "/applications"], st, deleted id db))
  ∧ (is_Some (select_application user id db) →
     ¬ cascade_completes abort_after N →
     result = ([toast_error "Failed to delete application"], st, db))
  ∧ (select_application user id db = None → result.2 = db)
  ∧ (db_applications (deleted id db) !! id = None
     ∧ (∀ i t, db_tasks (deleted id db) !! i = Some t →
               task_application_id t ≠ id)
     ∧ (∀ i t, db_tasks db !! i = Some t → task_application_id t ≠ id →
               db_tasks (deleted id db) !! i = Some t)
     ∧ (∀ i, i ≠ id →
             db_applications (deleted id db) !! i = db_applications db !! i)
     ∧ size (db_tasks (deleted id db)) + N = size (db_tasks db))
  ∧ (references_intact db → references_intact result.2).
Proof.
  intros result N. subst result N.
  unfold ApplicationDetail.handleDelete.
  pose proof (delete_application_cases user abort_after id db) as H.
  assert (db_applications (deleted id db) !! id = None
          ∧ (∀ i t, db_tasks (deleted id db) !! i = Some t →
                    task_application_id t ≠ id)
          ∧ (∀ i t, db_tasks db !! i = Some t → task_application_id t ≠ id →
                    db_tasks (deleted id db) !! i = Some t)
          ∧ (∀ i, i ≠ id →
               db_applications (deleted id db) !! i = db_applications db !! i)
          ∧ size (db_tasks (deleted id db))
            + List.length (referencing_tasks id (db_tasks db))
            = size (db_tasks db)) as Hdeleted.
  { split; [apply lookup_delete_eq|].
    split. { by intros i t [_ ?]%map_lookup_filter_Some. }
    split. { intros i t Ht Hid. by apply map_lookup_filter_Some. }
    split. { intros i Hi. simpl. by rewrite lookup_delete_ne. }
    apply size_deleted_tasks. }
  destruct (select_application user id db) as [a|] eqn:Hsel.
  - destruct H as [[Hc H]|[Hc H]]; rewrite H; cbn [fst snd].
    + split; [by right|]. split; [done|]. split; [done|]. split; [done|].
      split; [done|]. apply deleted_references_intact.
    + split; [by left|]. split; [done|]. split; [done|]. split; [done|].
      split; [done|]. done.
  - rewrite H. cbn [fst snd].
    split; [by left|]. split; [by intros [? [=]]|].
    split; [by intros [? [=]]|]. split; [done|]. split; [done|]. done.
Qed.

Lemma delete_application_cascade_witness :
  ApplicationDetail.handleDelete (Some alice) None 10%N sample_db
    ApplicationDetail.initial
  = ([toast_success "Application deleted successfully";
      navigate "/applications"],
     ApplicationDetail.initial, deleted 10%N sample_db)
  ∧ ApplicationDetail.handleDelete (Some alice) (Some 1) 10%N sample_db
      ApplicationDetail.initial
    = ([toast_error "Failed to delete application"],
       ApplicationDetail.initial, sample_db).
Proof.
  split.
  - apply (delete_application_cascade (Some alice) None 10%N sample_db
             ApplicationDetail.initial); [by eexists | exact I].
  - apply (delete_application_cascade (Some alice) (Some 1) 10%N sample_db
             ApplicationDetail.initial); [by eexists|].
    vm_compute. lia.
Defined.

(** * Further properties of the handlers *)

(** ** Listing applications *)
Section list_applications.

Global Instance created_at_desc_total : Total created_at_desc.
Proof. intros x y. unfold created_at_desc. lia. Qed.

Global Instance created_at_desc_trans : Transitive created_at_desc.
Proof. intros x y z. unfold created_at_desc. lia. Qed.

Lemma select_applications_NoDup user db :
  NoDup (select_applications user db).*1.
Proof.
  unfold select_applications. rewrite merge_sort_Permutation.
  apply NoDup_fst_map_to_list.
Qed.

Lemma length_select_applications user db :
  List.length (select_applications user db)
  = size (visible_applications user db).
Proof.
  unfold select_applications.
  by rewrite merge_sort_Permutation, length_map_to_list.
Qed.

End list_applications.

(** X1.  The applications list of the Applications page holds exactly the
    caller's applications, each once, the most recently created first. *)
Theorem list_applications_sorted
    (user : option uuid) (db : DB) (st : Applications.State) :
  let listed := Applications.applications
                  (Applications.fetchApplications user db st) in
  StronglySorted (λ x y, (app_created_at y.2 ≤ app_created_at x.2)%Z) listed
  ∧ NoDup listed.*1
  ∧ (∀ i r, (i, r) ∈ listed ↔
            db_applications db !! i = Some r ∧ user = Some (app_user_id r)).
Proof.
  simpl. split.
  - unfold select_applications. apply StronglySorted_merge_sort; apply _.
  - split; [apply select_applications_NoDup|].
    apply elem_of_select_applications.
Qed.

(** ** What a call can do to the store *)
Section store_changes.

Lemma length_trim s : (List.length (trim s) ≤ List.length s)%nat.
Proof.
  destruct (trim_split s) as (a & b & _ & _ & Hs).
  rewrite Hs at 2. rewrite !length_app. lia.
Qed.

Lemma name_ok_tidy bound s :
  name_ok bound s = true → storable_text (trim s) = true →
  tidy_text bound (trim s).
Proof.
  unfold name_ok. rewrite andb_true_iff, !Nat.leb_le.
  intros [? ?] Hstor. split; [apply trim_trimmed|]. split; [lia|done].
Qed.

Lemma notes_ok_tidy s :
  notes_ok s = true → storable_text (trim s) = true →
  tidy_notes (or_null (trim s)).
Proof.
  unfold notes_ok. rewrite Nat.leb_le. intros Hlen Hstor.
  pose proof (length_trim s) as Htrim. pose proof (trim_trimmed s) as Ht.
  destruct (trim s) as [|ch t]; simpl; [done|].
  split; [done|]. split; [|done]. simpl in *. lia.
Qed.

Lemma application_issues_ok c p n :
  Zod.issues applicationSchema (application_object c p n) = [] →
  name_ok 100 c = true ∧ name_ok 100 p = true ∧ notes_ok n = true.
Proof.
  intros H%application_issues_nil. unfold first_violated_field in H.
  by destruct (name_ok 100 c), (name_ok 100 p), (notes_ok n).
Qed.

Lemma task_issues_ok t n :
  Zod.issues taskSchema (task_object t n) = [] →
  name_ok 200 t = true ∧ notes_ok n = true.
Proof.
  rewrite task_issues. intros H.
  apply app_eq_nil in H as [Ht H]. apply app_eq_nil in H as [Hn _].
  by apply name_issues_nil in Ht; apply notes_issues_nil in Hn.
Qed.

Lemma task_issues_whitespace t n :
  whitespace_only t →
  head (Zod.issues taskSchema (task_object t n))
  = Some (required_issue "title" "Title is required").
Proof.
  intros H. rewrite task_issues.
  pose proof (name_issues_required "title" "Title is required" 200 t H).
  by destruct (name_issues _ _ _ t).
Qed.

Lemma handleSubmit_change user new_id now db st :
  store_change user db (Applications.handleSubmit user new_id now db st).2.
Proof.
  unfold Applications.handleSubmit.
  destruct (Zod.issues _ _) eqn:Hissues; [|constructor].
  apply application_issues_ok in Hissues as (Hc & Hp & Hn).
  destruct (insert_application _ _ _ _ _) as [e|db'] eqn:E; [constructor|].
  apply insert_application_inr in E
    as (Hbody & owner & [= ->] & _ & Hvalid & Hfresh & Hprofile & ->).
  apply application_insert_body_storable in Hbody as [Hstor _].
  apply storable_input_3 in Hstor as (Hsc & Hsp & Hsn).
  simpl. apply (change_insert_application _ _ owner); simpl; try done.
  split; [by apply name_ok_tidy|].
  split; [by apply name_ok_tidy | by apply notes_ok_tidy].
Qed.

Lemma handleUpdate_change user id now db st :
  store_change user db (ApplicationDetail.handleUpdate user id now db st).2.
Proof.
  unfold ApplicationDetail.handleUpdate. fold (update_body st).
  destruct (Zod.issues _ _) eqn:Hissues; [|constructor].
  apply application_issues_ok in Hissues as (Hc & Hp & Hn).
  pose proof (update_application_cases user id now (update_body st) db) as H.
  destruct (select_application user id db) as [old|] eqn:Hsel.
  - destruct (application_update_storable _) eqn:Hbody;
      [|rewrite H; constructor].
    apply application_update_body_storable in Hbody as [Hstor _].
    apply storable_input_3 in Hstor as (Hsc & Hsp & Hsn).
    simpl in H. destruct (valid_status _) eqn:Hvalid; rewrite H;
      [|constructor].
    destruct (ApplicationDetail.fetchApplication _ _ _ _). simpl.
    apply (change_update_application _ _ id old); simpl; try done.
    split; [by apply name_ok_tidy|].
    split; [by apply name_ok_tidy | by apply notes_ok_tidy].
  - rewrite H. destruct (ApplicationDetail.fetchApplication _ _ _ _).
    constructor.
Qed.

Lemma handleDelete_change user abort_after id db st :
  store_change user db
    (ApplicationDetail.handleDelete user abort_after id db st).2.
Proof.
  unfold ApplicationDetail.handleDelete.
  pose proof (delete_application_cases user abort_after id db) as H.
  destruct (select_application user id db) as [old|] eqn:Hsel.
  - destruct H as [[_ H]|[_ H]]; rewrite H; simpl; [|constructor].
    by eapply change_delete_application.
  - rewrite H. constructor.
Qed.

Lemma tasks_handleSubmit_change user new_id now db st :
  store_change user db (Tasks.handleSubmit user new_id now db st).2.
Proof.
  pose proof (tasks_handleSubmit_cases user new_id now db st) as H.
  destruct (Zod.issues _ _) eqn:Hissues; [|rewrite H; constructor].
  apply task_issues_ok in Hissues as (Ht & Hn).
  destruct (Tasks.applicationId st) as [app_id|]; [|rewrite H; constructor].
  destruct (insert_task _ _ _ _ _) as [e|db'] eqn:E; [rewrite H; constructor|].
  destruct H as [_ ->].
  apply insert_task_inr in E
    as (Hbody & owner & [= ->] & _ & Hfresh & Hprofile & Happ & ->).
  apply task_insert_body_storable in Hbody as [Hstor Hdate].
  apply storable_input_2 in Hstor as (Hst & Hsn).
  eapply change_insert_task; try done.
  split; simpl; [by apply name_ok_tidy|].
  split; [by apply notes_ok_tidy | done].
Qed.

Lemma toggleComplete_change user now t db st :
  store_change user db (Tasks.toggleComplete user now t db st).2.
Proof.
  unfold Tasks.toggleComplete. fold (toggle_body t).
  pose proof (update_task_cases user (tw_id t) now (toggle_body t) db) as H.
  destruct (select_task user (tw_id t) db) as [old|] eqn:Hsel.
  - simpl in H. rewrite bool_decide_eq_true_2 in H by done. simpl in H.
    rewrite H. simpl. eapply change_update_task; try done. by left.
  - rewrite H. constructor.
Qed.

Lemma taskdetail_handleUpdate_change user id now db st :
  store_change user db (TaskDetail.handleUpdate user id now db st).2.
Proof.
  pose proof (taskdetail_handleUpdate_cases user id now db st) as H.
  destruct (Zod.issues _ _) eqn:Hissues; [|rewrite H; constructor].
  apply task_issues_ok in Hissues as (Ht & Hn).
  destruct (TaskDetail.applicationId st) as [app_id|];
    [|rewrite H; constructor].
  pose proof (update_task_cases user id now (update_task_body app_id st) db)
    as Hu.
  destruct (select_task user id db) as [old|] eqn:Hsel.
  - destruct (task_update_storable _) eqn:Hbody.
    2:{ destruct Hu as [e Hu]. rewrite Hu in H. rewrite H. constructor. }
    apply task_update_body_storable in Hbody as [Hstor Hdate].
    apply storable_input_2 in Hstor as (Hst & Hsn).
    destruct (_ || _) eqn:Hfk; rewrite Hu in H.
    + destruct H as [_ ->]. eapply change_update_task; try done.
      * intros _. split; simpl; [by apply name_ok_tidy|].
        split; [by apply notes_ok_tidy | done].
      * apply orb_true_iff in Hfk as [Hfk|Hfk];
          apply bool_decide_eq_true in Hfk; [by left | by right].
    + rewrite H. constructor.
  - rewrite Hu in H. destruct H as [_ ->]. constructor.
Qed.

Lemma taskdetail_handleDelete_change user id db st :
  store_change user db (TaskDetail.handleDelete user id db st).2.
Proof.
  unfold TaskDetail.handleDelete, delete_task.
  destruct (visible_tasks user db !! id) as [old|] eqn:Hsel; simpl.
  - by eapply change_delete_task.
  - constructor.
Qed.

(** Every call of a handler is one of the changes. *)
Lemma run_store_change user a db : store_change user db (run user a db).
Proof.
  destruct a; simpl.
  - apply handleSubmit_change.
  - apply handleUpdate_change.
  - apply handleDelete_change.
  - apply tasks_handleSubmit_change.
  - apply toggleComplete_change.
  - apply taskdetail_handleUpdate_change.
  - apply taskdetail_handleDelete_change.
Qed.

End store_changes.

(** ** Invariants of the store *)
Section invariants.

Lemma store_change_profiles user db db' :
  store_change user db db' → db_profiles db' = db_profiles db.
Proof. by destruct 1. Qed.

Lemma store_change_consistent user db db' :
  store_change user db db' → consistent db → consistent db'.
Proof.
  intros Hchange (Hrefs & Happs & Htasks).
  destruct Hchange as [ | owner new_id r -> Hr Hvalid _ Hfresh Hprofile
                        | id old new Hsel Howner _ Hvalid _
                        | id old Hsel
                        | owner new_id t -> Ht _ Hfresh Hprofile Happ
                        | id old new Hsel Howner _ _ Hfk
                        | id old Hsel ].
  - done.
  - split; [|split]; simpl.
    + intros i t Hi. destruct (Hrefs i t Hi) as [a Ha]. simpl.
      destruct (decide (new_id = task_application_id t)) as [<-|Hne].
      * rewrite lookup_insert_eq. by eexists.
      * rewrite lookup_insert_ne by done. by eexists.
    + intros i r'. destruct (decide (new_id = i)) as [<-|Hne].
      * rewrite lookup_insert_eq. intros [= <-]. by rewrite Hr.
      * rewrite lookup_insert_ne by done. apply Happs.
    + apply Htasks.
  - apply select_application_Some in Hsel as [Hold _].
    split; [|split]; simpl.
    + intros i t Hi. destruct (Hrefs i t Hi) as [a Ha]. simpl.
      destruct (decide (id = task_application_id t)) as [<-|Hne].
      * rewrite lookup_insert_eq. by eexists.
      * rewrite lookup_insert_ne by done. by eexists.
    + intros i r'. destruct (decide (id = i)) as [<-|Hne].
      * rewrite lookup_insert_eq. intros [= <-]. rewrite Howner.
        split; [|done]. by apply (Happs id old).
      * rewrite lookup_insert_ne by done. apply Happs.
    + apply Htasks.
  - split; [by apply deleted_references_intact|]. split; simpl.
    + intros i r. destruct (decide (id = i)) as [<-|Hne].
      * by rewrite lookup_delete_eq.
      * rewrite lookup_delete_ne by done. apply Happs.
    + intros i t [Hi _]%map_lookup_filter_Some. by eapply Htasks.
  - split; [|split]; simpl.
    + intros i t'. simpl. destruct (decide (new_id = i)) as [<-|Hne].
      * rewrite lookup_insert_eq. by intros [= <-].
      * rewrite lookup_insert_ne by done. apply Hrefs.
    + apply Happs.
    + intros i t'. destruct (decide (new_id = i)) as [<-|Hne].
      * rewrite lookup_insert_eq. intros [= <-]. by rewrite Ht.
      * rewrite lookup_insert_ne by done. apply Htasks.
  - apply select_task_Some in Hsel as [Hold _].
    split; [|split]; simpl.
    + intros i t'. simpl. destruct (decide (id = i)) as [<-|Hne].
      * rewrite lookup_insert_eq. intros [= <-].
        destruct Hfk as [->|?]; [by apply (Hrefs id old) | done].
      * rewrite lookup_insert_ne by done. apply Hrefs.
    + apply Happs.
    + intros i t'. destruct (decide (id = i)) as [<-|Hne].
      * rewrite lookup_insert_eq. intros [= <-]. rewrite Howner.
        by apply (Htasks id old).
      * rewrite lookup_insert_ne by done. apply Htasks.
  - split; [|split]; simpl.
    + intros i t'. simpl. destruct (decide (id = i)) as [<-|Hne].
      * by rewrite lookup_delete_eq.
      * rewrite lookup_delete_ne by done. apply Hrefs.
    + apply Happs.
    + intros i t'. destruct (decide (id = i)) as [<-|Hne].
      * by rewrite lookup_delete_eq.
      * rewrite lookup_delete_ne by done. apply Htasks.
Qed.

Lemma store_change_tidy user db db' :
  store_change user db db' → tidy db → tidy db'.
Proof.
  intros Hchange (Happs & Htasks).
  destruct Hchange as [ | owner new_id r _ _ _ Htidy _ _
                        | id old new _ _ _ _ Htidy
                        | id old _
                        | owner new_id t _ _ Htidy _ _ _
                        | id old new Hsel _ _ Htidy _
                        | id old _ ]; split; simpl; try done.
  - intros i r'. destruct (decide (new_id = i)) as [<-|Hne].
    + rewrite lookup_insert_eq. by intros [= <-].
    + rewrite lookup_insert_ne by done. apply Happs.
  - intros i r'. destruct (decide (id = i)) as [<-|Hne].
    + rewrite lookup_insert_eq. by intros [= <-].
    + rewrite lookup_insert_ne by done. apply Happs.
  - intros i r'. destruct (decide (id = i)) as [<-|Hne].
    + by rewrite lookup_delete_eq.
    + rewrite lookup_delete_ne by done. apply Happs.
  - intros i t [Hi _]%map_lookup_filter_Some. by eapply Htasks.
  - intros i t'. destruct (decide (new_id = i)) as [<-|Hne].
    + rewrite lookup_insert_eq. by intros [= <-].
    + rewrite lookup_insert_ne by done. apply Htasks.
  - apply select_task_Some in Hsel as [Hold _].
    intros i t'. destruct (decide (id = i)) as [<-|Hne].
    + rewrite lookup_insert_eq. intros [= <-]. by apply Htidy, (Htasks id).
    + rewrite lookup_insert_ne by done. apply Htasks.
  - intros i t'. destruct (decide (id = i)) as [<-|Hne].
    + by rewrite lookup_delete_eq.
    + rewrite lookup_delete_ne by done. apply Htasks.
Qed.

Lemma run_all_snoc calls call db :
  run_all (calls ++ [call]) db = run call.1 call.2 (run_all calls db).
Proof. unfold run_all. by rewrite foldl_snoc. Qed.

Lemma fresh_store_consistent profiles : consistent (fresh_store profiles).
Proof.
  split; [|split]; intros i r Hi; simpl in Hi; by rewrite lookup_empty in Hi.
Qed.

Lemma fresh_store_tidy profiles : tidy (fresh_store profiles).
Proof. split; intros i r Hi; simpl in Hi; by rewrite lookup_empty in Hi. Qed.

End invariants.

(** X10.  The handlers keep the store consistent.  After any history of
    calls, by any sessions, on a consistent store, every task still
    references an application of the store, every record still belongs to a
    profile, every application still has one of the four statuses, and the
    profiles are those of the start.  A store with no records is
    consistent, so every store the pages can build is. *)
Theorem handlers_keep_store_consistent
    (calls : list (option uuid * Action)) (db : DB) :
  (consistent db →
   consistent (run_all calls db)
   ∧ db_profiles (run_all calls db) = db_profiles db)
  ∧ consistent (run_all calls (fresh_store (db_profiles db))).
Proof.
  assert (∀ db0, consistent db0 →
            consistent (run_all calls db0)
            ∧ db_profiles (run_all calls db0) = db_profiles db0) as Hkeep.
  { intros db0 Hdb.
    induction calls as [|call calls IH] using rev_ind; [done|].
    rewrite run_all_snoc. destruct IH as [IH Hprofiles].
    pose proof (run_store_change call.1 call.2 (run_all calls db0)) as Hchange.
    split; [by eapply store_change_consistent|].
    by rewrite (store_change_profiles _ _ _ Hchange). }
  split; [apply Hkeep|]. apply Hkeep, fresh_store_consistent.
Qed.

Lemma handlers_keep_store_consistent_witness :
  consistent
    (run_all
       [ (Some alice, CreateApplication 10%N 100%Z padded_form);
         (Some bob, CreateTask 23%N 200%Z (task_form "Follow up" (Some 10%N)));
         (Some alice, DeleteApplication None 10%N ApplicationDetail.initial) ]
       (fresh_store {[ alice; bob ]})).
Proof.
  refine (proj1 (proj1 (handlers_keep_store_consistent
           [ (Some alice, CreateApplication 10%N 100%Z padded_form);
             (Some bob,
              CreateTask 23%N 200%Z (task_form "Follow up" (Some 10%N)));
             (Some alice,
              DeleteApplication None 10%N ApplicationDetail.initial) ]
           (fresh_store {[ alice; bob ]})) _)).
  split; [|split]; intros i r Hi; simpl in Hi; by rewrite lookup_empty in Hi.
Defined.

(** X11.  The handlers keep the text of the store tidy.  After any history
    of calls on a store whose text is as the forms leave it, every company
    and position is trimmed, not empty and at most 100 characters, every
    task title trimmed, not empty and at most 200, and all notes are either
    null or trimmed, not empty and at most 1000; all of it is text the
    storage holds (no U+0000, no unpaired surrogate) and every due date is
    in the range of the column.  A store with no records is tidy, so every
    store the pages build from it is. *)
Theorem handlers_keep_store_tidy
    (calls : list (option uuid * Action)) (db : DB) :
  (tidy db → tidy (run_all calls db))
  ∧ tidy (run_all calls (fresh_store (db_profiles db))).
Proof.
  assert (∀ db0, tidy db0 → tidy (run_all calls db0)) as Hkeep.
  { intros db0 Hdb.
    induction calls as [|call calls IH] using rev_ind; [done|].
    rewrite run_all_snoc.
    eapply store_change_tidy; [apply run_store_change | exact IH]. }
  split; [apply Hkeep|]. apply Hkeep, fresh_store_tidy.
Qed.

Lemma handlers_keep_store_tidy_witness :
  tidy
    (run_all
       [ (Some alice, CreateApplication 10%N 100%Z padded_form);
         (Some alice, CreateTask 23%N 200%Z (task_form " Follow up " (Some 10%N)));
         (Some alice, ToggleTask 300%Z
                        {| tw_id := 23%N; tw_task := call_back;
                           tw_applications := None |} Tasks.initial) ]
       (fresh_store {[ alice; bob ]})).
Proof.
  refine (proj1 (handlers_keep_store_tidy
           [ (Some alice, CreateApplication 10%N 100%Z padded_form);
             (Some alice,
              CreateTask 23%N 200%Z (task_form " Follow up " (Some 10%N)));
             (Some alice, ToggleTask 300%Z
                            {| tw_id := 23%N; tw_task := call_back;
                               tw_applications := None |} Tasks.initial) ]
           (fresh_store {[ alice; bob ]})) _).
  split; intros i r Hi; simpl in Hi; by rewrite lookup_empty in Hi.
Defined.

(** ** Who can change what *)
Section write_isolation.

Lemma visible_applications_anonymous db : visible_applications None db = ∅.
Proof.
  apply map_eq. intros i. rewrite lookup_empty.
  apply map_lookup_filter_None. right. intros r _. simpl.
  unfold users_own_application. by rewrite bool_decide_eq_false_2.
Qed.

Lemma visible_tasks_anonymous db : visible_tasks None db = ∅.
Proof.
  apply map_eq. intros i. rewrite lookup_empty.
  apply map_lookup_filter_None. right. intros r _. simpl.
  unfold users_own_task. by rewrite bool_decide_eq_false_2.
Qed.

Lemma store_change_anonymous db db' : store_change None db db' → db' = db.
Proof.
  destruct 1 as [ | | id old new Hsel | id old Hsel | |
                  id old new Hsel | id old Hsel ]; try done.
  - by apply select_application_Some in Hsel as [_ ?].
  - by apply select_application_Some in Hsel as [_ ?].
  - by apply select_task_Some in Hsel as [_ ?].
  - by apply select_task_Some in Hsel as [_ ?].
Qed.

Lemma store_change_other_applications caller db db' i r :
  store_change (Some caller) db db' → app_user_id r ≠ caller →
  db_applications db' !! i = Some r ↔ db_applications db !! i = Some r.
Proof.
  intros Hchange Hother.
  destruct Hchange as [ | owner new_id r' [= <-] Hr _ _ Hfresh _
                        | id old new Hsel Howner _ _ _
                        | id old Hsel
                        | | | ]; simpl; try done.
  - destruct (decide (new_id = i)) as [<-|Hne].
    + rewrite lookup_insert_eq, Hfresh. split; [|done].
      intros [= <-]. done.
    + by rewrite lookup_insert_ne.
  - apply select_application_Some in Hsel as [Hold [= Hcaller]].
    destruct (decide (id = i)) as [<-|Hne].
    + rewrite lookup_insert_eq, Hold.
      split; intros [= <-]; congruence.
    + by rewrite lookup_insert_ne.
  - apply select_application_Some in Hsel as [Hold [= Hcaller]].
    destruct (decide (id = i)) as [<-|Hne].
    + rewrite lookup_delete_eq, Hold. split; [done|].
      intros [= <-]. congruence.
    + by rewrite lookup_delete_ne.
Qed.

Lemma store_change_other_tasks caller db db' i t :
  store_change (Some caller) db db' → task_user_id t ≠ caller →
  (db_tasks db' !! i = Some t → db_tasks db !! i = Some t)
  ∧ (db_tasks db !! i = Some t →
     db_tasks db' !! i = Some t
     ∨ (db_tasks db' !! i = None
        ∧ is_Some (select_application (Some caller)
                     (task_application_id t) db)
        ∧ db_applications db' !! task_application_id t = None)).
Proof.
  intros Hchange Hother.
  destruct Hchange as [ | | | id old Hsel
                        | owner new_id t' [= <-] Ht _ Hfresh _ _
                        | id old new Hsel Howner _ _ _
                        | id old Hsel ]; simpl; try (split; [done|by left]).
  - split; [by intros [? _]%map_lookup_filter_Some|].
    intros Hi. destruct (decide (task_application_id t = id)) as [Heq|Hne].
    + right. split; [|split].
      * apply map_lookup_filter_None. right. intros t' Ht'. simpl.
        rewrite Hi in Ht'. injection Ht' as <-. intros Hne. by apply Hne.
      * rewrite Heq. by eexists.
      * rewrite Heq. apply lookup_delete_eq.
    + left. by apply map_lookup_filter_Some.
  - destruct (decide (new_id = i)) as [<-|Hne].
    + rewrite lookup_insert_eq, Hfresh. split; [|done].
      intros [= <-]. done.
    + rewrite lookup_insert_ne by done. split; [done|by left].
  - apply select_task_Some in Hsel as [Hold [= Hcaller]].
    destruct (decide (id = i)) as [<-|Hne].
    + rewrite lookup_insert_eq, Hold.
      split; intros [= <-]; congruence.
    + rewrite lookup_insert_ne by done. split; [done|by left].
  - apply select_task_Some in Hsel as [Hold [= Hcaller]].
    destruct (decide (id = i)) as [<-|Hne].
    + rewrite lookup_delete_eq, Hold. split; [done|].
      intros [= <-]. congruence.
    + rewrite lookup_delete_ne by done. split; [done|by left].
Qed.

End write_isolation.

(** X9.  A handler writes the records of its caller only.  Whatever the
    call, the applications of every other owner are after it what they
    were before it, none added, none changed, none removed.  So are the
    tasks of every other owner, with one exception: a task that referenced
    an application of the caller is removed when the caller deletes that
    application. *)
Theorem writes_stay_within_owner (caller : uuid) (a : Action) (db : DB) :
  (∀ i r, app_user_id r ≠ caller →
     (db_applications (run (Some caller) a db) !! i = Some r
      ↔ db_applications db !! i = Some r))
  ∧ (∀ i t, task_user_id t ≠ caller →
       (db_tasks (run (Some caller) a db) !! i = Some t →
        db_tasks db !! i = Some t)
       ∧ (db_tasks db !! i = Some t →
          db_tasks (run (Some caller) a db) !! i = Some t
          ∨ (db_tasks (run (Some caller) a db) !! i = None
             ∧ is_Some (select_application (Some caller)
                          (task_application_id t) db)
             ∧ db_applications (run (Some caller) a db)
                 !! task_application_id t = None))).
Proof.
  pose proof (run_store_change (Some caller) a db) as Hchange.
  split.
  - intros i r Hother. by apply (store_change_other_applications caller).
  - intros i t Hother. by apply (store_change_other_tasks caller).
Qed.

Lemma writes_stay_within_owner_witness :
  db_applications
    (run (Some bob) (UpdateApplication 10%N 200%Z
                       (detail_form "Mine" "Now" "offer" "")) sample_db)
    !! 10%N = Some acme.
Proof.
  apply (writes_stay_within_owner bob
           (UpdateApplication 10%N 200%Z (detail_form "Mine" "Now" "offer" ""))
           sample_db).
  - discriminate.
  - reflexivity.
Defined.

(** X8.  Without a session nothing is read and nothing is written.  Every
    list is empty, every Get answers not found, the dashboard counts are
    zero, and no call of a handler changes the store; a valid
    Create-Application fails with the generic failure. *)
Theorem anonymous_session (db : DB) :
  (∀ a, run None a db = db)
  ∧ (∀ st, Applications.applications
             (Applications.fetchApplications None db st) = [])
  ∧ (∀ st, Tasks.tasks (Tasks.fetchTasks None db st) = [])
  ∧ (∀ st, Tasks.applications (Tasks.fetchApplications None db st) = [])
  ∧ (∀ id st, ApplicationDetail.fetchApplication None id db st
              = (application_not_found, st))
  ∧ (∀ id st, TaskDetail.fetchTask None id db st = (task_not_found, st))
  ∧ Dashboard.fetchStats None db
    = {| Dashboard.totalApplications := 0; Dashboard.totalTasks := 0;
         Dashboard.pendingTasks := 0; Dashboard.interviewStage := 0 |}
  ∧ (∀ new_id now st,
       Zod.issues applicationSchema
         (application_object (Applications.company st)
            (Applications.position st) (Applications.notes st)) = [] →
       Applications.handleSubmit None new_id now db st
       = ([toast_error "Failed to create application"], st, db)).
Proof.
  split. { intros a. apply store_change_anonymous, run_store_change. }
  split.
  { intros st. simpl. unfold select_applications.
    by rewrite visible_applications_anonymous, map_to_list_empty. }
  split.
  { intros st. simpl. unfold select_tasks_with_applications.
    by rewrite visible_tasks_anonymous, map_to_list_empty. }
  split.
  { intros st. simpl. unfold select_application_summaries, select_applications.
    by rewrite visible_applications_anonymous, map_to_list_empty. }
  split.
  { intros id st. unfold ApplicationDetail.fetchApplication, select_application.
    by rewrite visible_applications_anonymous, lookup_empty. }
  split.
  { intros id st. unfold TaskDetail.fetchTask, select_task.
    by rewrite visible_tasks_anonymous, lookup_empty. }
  split.
  { unfold Dashboard.fetchStats.
    rewrite visible_applications_anonymous, visible_tasks_anonymous.
    by rewrite !map_filter_empty, !map_size_empty. }
  intros new_id now st Hissues. unfold Applications.handleSubmit.
  rewrite Hissues.
  destruct (insert_application _ _ _ _ _) as [e|db'] eqn:E; [done|].
  by apply insert_application_inr in E as (_ & o & _ & [=] & _).
Qed.

Lemma anonymous_session_witness :
  Applications.handleSubmit None 12%N 200%Z sample_db padded_form
  = ([toast_error "Failed to create application"], padded_form, sample_db).
Proof.
  apply (anonymous_session sample_db). reflexivity.
Defined.

(** ** The task forms *)
Section task_forms.

Lemma name_issues_too_long key message bound s rest :
  (bound < List.length (trim s))%nat → (1 ≤ bound)%nat →
  Zod.message <$> head (name_issues key message bound s ++ rest)
  = Some (Zod.too_big_default bound).
Proof.
  intros Hlong Hbound. unfold name_issues.
  destruct (Nat.ltb_spec (List.length (trim s)) 1); [lia|].
  destruct (Nat.ltb_spec bound (List.length (trim s))); [done|lia].
Qed.

Lemma notes_issues_too_long s rest :
  (1000 < List.length s)%nat →
  Zod.message <$> head (notes_issues s ++ rest)
  = Some (Zod.too_big_default 1000).
Proof.
  intros Hlong. unfold notes_issues.
  destruct (Nat.ltb_spec 1000 (List.length s)); [done|lia].
Qed.

(** What the task schema shows first, by the shape of the form. *)
Lemma task_first_message t n :
  (whitespace_only t →
   Zod.message <$> head (Zod.issues taskSchema (task_object t n))
   = Some "Title is required")
  ∧ ((200 < List.length (trim t))%nat →
     Zod.message <$> head (Zod.issues taskSchema (task_object t n))
     = Some "String must contain at most 200 character(s)")
  ∧ (name_ok 200 t = true → (1000 < List.length n)%nat →
     Zod.message <$> head (Zod.issues taskSchema (task_object t n))
     = Some "String must contain at most 1000 character(s)").
Proof.
  split; [|split].
  - intros H. by rewrite task_issues_whitespace.
  - intros H. rewrite task_issues.
    rewrite name_issues_too_long by (done || lia). done.
  - intros Hok H. rewrite task_issues.
    apply (proj2 (name_issues_nil "title" "Title is required" 200 t)) in Hok.
    rewrite Hok. simpl. rewrite notes_issues_too_long by done. done.
Qed.

End task_forms.

(** X2.  Create-Task and Update-Task check the form before anything is
    sent.  A title that is empty or whitespace only is refused with "Title
    is required", a title longer than 200 characters once trimmed and notes
    longer than 1000 characters with zod's "at most" message; a valid form
    without a selected application is refused with "Please select an
    application".  The schema is checked before the selection.  In each
    case the page state and the store are left as they were. *)
Theorem task_form_checked
    (user : option uuid) (id : uuid) (now : timestamptz) (db : DB)
    (title notes : jsstring) :
  (∀ message,
     Zod.message <$> head (Zod.issues taskSchema (task_object title notes))
     = Some message →
     (∀ st : Tasks.State,
        Tasks.title st = title → Tasks.notes st = notes →
        Tasks.handleSubmit user id now db st = ([toast_error message], st, db))
     ∧ (∀ st : TaskDetail.State,
          TaskDetail.title st = title → TaskDetail.notes st = notes →
          TaskDetail.handleUpdate user id now db st
          = ([toast_error message], st, db)))
  ∧ (Zod.issues taskSchema (task_object title notes) = [] →
     (∀ st : Tasks.State,
        Tasks.title st = title → Tasks.notes st = notes →
        Tasks.applicationId st = None →
        Tasks.handleSubmit user id now db st
        = ([toast_error "Please select an application"], st, db))
     ∧ (∀ st : TaskDetail.State,
          TaskDetail.title st = title → TaskDetail.notes st = notes →
          TaskDetail.applicationId st = None →
          TaskDetail.handleUpdate user id now db st
          = ([toast_error "Please select an application"], st, db)))
  ∧ (whitespace_only title →
     Zod.message <$> head (Zod.issues taskSchema (task_object title notes))
     = Some "Title is required")
  ∧ ((200 < List.length (trim title))%nat →
     Zod.message <$> head (Zod.issues taskSchema (task_object title notes))
     = Some "String must contain at most 200 character(s)")
  ∧ (name_ok 200 title = true → (1000 < List.length notes)%nat →
     Zod.message <$> head (Zod.issues taskSchema (task_object title notes))
     = Some "String must contain at most 1000 character(s)").
Proof.
  split; [|split; [|apply task_first_message]].
  - intros message Hhead. split.
    + intros st <- <-.
      pose proof (tasks_handleSubmit_cases user id now db st) as H.
      destruct (Zod.issues _ _) as [|issue rest]; [done|].
      simpl in Hhead. injection Hhead as <-. exact H.
    + intros st <- <-.
      pose proof (taskdetail_handleUpdate_cases user id now db st) as H.
      destruct (Zod.issues _ _) as [|issue rest]; [done|].
      simpl in Hhead. injection Hhead as <-. exact H.
  - intros Hissues. split.
    + intros st <- <- Happ.
      pose proof (tasks_handleSubmit_cases user id now db st) as H.
      by rewrite Hissues, Happ in H.
    + intros st <- <- Happ.
      pose proof (taskdetail_handleUpdate_cases user id now db st) as H.
      by rewrite Hissues, Happ in H.
Qed.

Lemma task_form_checked_witness :
  Tasks.handleSubmit (Some alice) 23%N 200%Z sample_db
    (task_form "   " (Some 10%N))
  = ([toast_error "Title is required"], task_form "   " (Some 10%N), sample_db)
  ∧ Tasks.handleSubmit (Some alice) 23%N 200%Z sample_db
      (task_form "Follow up" None)
    = ([toast_error "Please select an application"],
       task_form "Follow up" None, sample_db).
Proof.
  split.
  - apply (task_form_checked (Some alice) 23%N 200%Z sample_db (js "   ") []);
      reflexivity.
  - apply (task_form_checked (Some alice) 23%N 200%Z sample_db
             (js "Follow up") []); reflexivity.
Defined.

(** X3.  Create-Task followed by Get-Task returns the task of the form.
    For a valid form with an existing application selected, whose text the
    storage can hold (no U+0000, no unpaired surrogate) and whose due date
    is in the range of the column, submitted by a signed-up caller, the
    call succeeds; the task is stored under the
    caller, not completed, with the title trimmed, the due date as given
    and the notes trimmed, null when nothing is left; Get-Task of the new
    id returns it and loads it into the form, the reloaded tasks list
    shows it, and the form of the Tasks page is cleared. *)
Theorem create_task_then_get
    (owner new_id app_id : uuid) (now : timestamptz) (db : DB)
    (st : Tasks.State) (st0 : TaskDetail.State) :
  Zod.issues taskSchema (task_object (Tasks.title st) (Tasks.notes st)) = [] →
  storable_input [Tasks.title st; Tasks.notes st] →
  storable_date (Tasks.dueDate st) = true →
  Tasks.applicationId st = Some app_id →
  owner ∈ db_profiles db →
  db_tasks db !! new_id = None →
  is_Some (db_applications db !! app_id) →
  let created := Tasks.handleSubmit (Some owner) new_id now db st in
  let got := TaskDetail.fetchTask (Some owner) new_id created.2 st0 in
  let t := {| task_application_id := app_id;
              task_user_id := owner;
              task_title := trim (Tasks.title st);
              task_due_date := Tasks.dueDate st;
              task_completed := false;
              task_notes := or_null (trim (Tasks.notes st));
              task_created_at := now;
              task_updated_at := now |} in
  created.1.1 = [toast_success "Task created successfully"]
  ∧ db_tasks created.2 !! new_id = Some t
  ∧ got.1 = []
  ∧ TaskDetail.task got.2 = Some (new_id, t)
  ∧ TaskDetail.title got.2 = trim (Tasks.title st)
  ∧ TaskDetail.applicationId got.2 = Some app_id
  ∧ TaskDetail.completed got.2 = false
  ∧ (∃ tw, tw ∈ Tasks.tasks created.1.2 ∧ tw_id tw = new_id ∧ tw_task tw = t)
  ∧ Tasks.title created.1.2 = [] ∧ Tasks.applicationId created.1.2 = None
  ∧ Tasks.dueDate created.1.2 = None ∧ Tasks.notes created.1.2 = [].
Proof.
  intros Hissues Hstor Hdate Happ Hprofile Hfresh Hexists created got t.
  subst created got.
  unfold Tasks.handleSubmit. rewrite Hissues, Happ.
  fold (create_task_body (Some owner) app_id st).
  destruct (insert_task _ _ _ _ _) as [e|db'] eqn:E.
  { exfalso.
    assert (∃ db', insert_task (Some owner) new_id now
                     (create_task_body (Some owner) app_id st) db = inr db')
      as [db' Hdb'].
    { eexists. apply insert_task_inr.
      split; [by apply task_insert_body_storable|].
      exists owner. by repeat split. }
    congruence. }
  apply insert_task_inr in E as (_ & o & [= <-] & _ & _ & _ & _ & ->).
  change (inserted_task owner now (create_task_body (Some owner) app_id st))
    with t.
  assert (select_task (Some owner) new_id
            (with_tasks db (<[new_id := t]> (db_tasks db))) = Some t) as Hsel.
  { apply select_task_Some. simpl. by rewrite lookup_insert_eq. }
  unfold TaskDetail.fetchTask. cbn [fst snd]. rewrite Hsel.
  cbn [fst snd TaskDetail.task TaskDetail.title TaskDetail.applicationId
       TaskDetail.completed].
  split; [done|]. split; [simpl; by rewrite lookup_insert_eq|].
  split; [done|]. split; [done|]. split; [done|]. split; [done|].
  split; [done|]. split; [|done].
  exists (embed_application (Some owner)
            (with_tasks db (<[new_id := t]> (db_tasks db))) (new_id, t)).
  split; [|done].
  apply (elem_of_select_tasks (Some owner)
           (with_tasks db (<[new_id := t]> (db_tasks db)))).
  split; [exact Hsel|]. reflexivity.
Qed.

Lemma create_task_then_get_witness :
  TaskDetail.task
    (TaskDetail.fetchTask (Some alice) 23%N
       (Tasks.handleSubmit (Some alice) 23%N 200%Z sample_db
          (task_form " Follow up " (Some 10%N))).2
       TaskDetail.initial).2
  = Some (23%N,
          {| task_application_id := 10%N; task_user_id := alice;
             task_title := js "Follow up"; task_due_date := None;
             task_completed := false; task_notes := None;
             task_created_at := 200; task_updated_at := 200 |}).
Proof.
  refine (proj1 (proj2 (proj2 (proj2
            (create_task_then_get alice 23%N 10%N 200%Z sample_db
               (task_form " Follow up " (Some 10%N)) TaskDetail.initial
               _ _ _ _ _ _ _))))).
  - reflexivity.
  - by repeat constructor.
  - reflexivity.
  - reflexivity.
  - apply (bool_decide_unpack _). by vm_compute.
  - reflexivity.
  - by eexists.
Defined.

(** ** Updating and deleting a task *)
Section task_updates.

(** The store after a call of the task form: as it was, or with the row
    under [id] rewritten from the form. *)
Lemma taskdetail_handleUpdate_store user id now db st :
  (TaskDetail.handleUpdate user id now db st).2 = db
  ∨ ∃ old app_id,
      select_task user id db = Some old
      ∧ TaskDetail.applicationId st = Some app_id
      ∧ (TaskDetail.handleUpdate user id now db st).2
        = with_tasks db
            (<[id := updated_task old now (update_task_body app_id st)]>
               (db_tasks db)).
Proof.
  pose proof (taskdetail_handleUpdate_cases user id now db st) as H.
  destruct (Zod.issues _ _); [|left; by rewrite H].
  destruct (TaskDetail.applicationId st) as [app_id|]; [|left; by rewrite H].
  pose proof (update_task_cases user id now (update_task_body app_id st) db)
    as Hu.
  destruct (select_task user id db) as [old|] eqn:Hsel.
  - destruct (task_update_storable _).
    2:{ destruct Hu as [e Hu]. rewrite Hu in H. left. by rewrite H. }
    destruct (_ || _); rewrite Hu in H.
    + right. exists old, app_id. by destruct H as [_ ->].
    + left. by rewrite H.
  - rewrite Hu in H. left. by destruct H as [_ ->].
Qed.

Lemma taskdetail_handleUpdate_success user id now db st old app_id :
  Zod.issues taskSchema
    (task_object (TaskDetail.title st) (TaskDetail.notes st)) = [] →
  storable_input [TaskDetail.title st; TaskDetail.notes st] →
  storable_date (TaskDetail.dueDate st) = true →
  TaskDetail.applicationId st = Some app_id →
  select_task user id db = Some old →
  task_application_id old = app_id ∨ is_Some (db_applications db !! app_id) →
  TaskDetail.handleUpdate user id now db st
  = ([toast_success "Task updated successfully"],
     {| TaskDetail.task :=
          Some (id, updated_task old now (update_task_body app_id st));
        TaskDetail.applications := TaskDetail.applications st;
        TaskDetail.title := trim (TaskDetail.title st);
        TaskDetail.applicationId := Some app_id;
        TaskDetail.dueDate := TaskDetail.dueDate st;
        TaskDetail.completed := TaskDetail.completed st;
        TaskDetail.notes := or_empty (or_null (trim (TaskDetail.notes st))) |},
     with_tasks db
       (<[id := updated_task old now (update_task_body app_id st)]>
          (db_tasks db))).
Proof.
  intros Hissues Hstor Hdate Happ Hsel Hfk.
  unfold TaskDetail.handleUpdate. rewrite Hissues, Happ.
  fold (update_task_body app_id st).
  pose proof (update_task_cases user id now (update_task_body app_id st) db)
    as Hu.
  rewrite Hsel in Hu.
  rewrite (proj2 (task_update_body_storable app_id st)) in Hu by done.
  assert (bool_decide (task_application_id
                         (updated_task old now (update_task_body app_id st))
                       = task_application_id old)
          || bool_decide (is_Some (db_applications db
                !! task_application_id
                     (updated_task old now (update_task_body app_id st))))
          = true) as Hcheck.
  { apply orb_true_iff. destruct Hfk as [Hfk|Hfk]; [left|right];
      by apply bool_decide_eq_true. }
  rewrite Hcheck in Hu. rewrite Hu.
  assert (select_task user id
            (with_tasks db
               (<[id := updated_task old now (update_task_body app_id st)]>
                  (db_tasks db)))
          = Some (updated_task old now (update_task_body app_id st))) as Hsel'.
  { apply select_task_Some. simpl. rewrite lookup_insert_eq.
    split; [done|]. by apply select_task_Some in Hsel as [_ ?]. }
  unfold TaskDetail.fetchTask. by rewrite Hsel'.
Qed.

End task_updates.

(** X4.  Update-Task never changes the id or the owner of a task, nor any
    other task, nor any application: the table keeps its ids, every task
    keeps its owner and its creation time, and only the task under the
    updated id can differ.  When the form is valid, its text is text the
    storage can hold (no U+0000, no unpaired surrogate) and its due date is
    in the range of the column, an application is selected, the caller owns
    the task and the selected application is the current parent or exists,
    the task is rewritten from the form with [updated_at] set to the time of
    the call, and the page reloads it. *)
Theorem update_task_frame
    (user : option uuid) (id : uuid) (now : timestamptz) (db : DB)
    (st : TaskDetail.State) :
  dom (db_tasks (TaskDetail.handleUpdate user id now db st).2)
  = dom (db_tasks db)
  ∧ db_applications (TaskDetail.handleUpdate user id now db st).2
    = db_applications db
  ∧ (∀ i t, db_tasks db !! i = Some t →
       ∃ t', db_tasks (TaskDetail.handleUpdate user id now db st).2 !! i
             = Some t'
             ∧ task_user_id t' = task_user_id t
             ∧ task_created_at t' = task_created_at t
             ∧ (i ≠ id → t' = t))
  ∧ (∀ old app_id,
       Zod.issues taskSchema
         (task_object (TaskDetail.title st) (TaskDetail.notes st)) = [] →
       storable_input [TaskDetail.title st; TaskDetail.notes st] →
       storable_date (TaskDetail.dueDate st) = true →
       TaskDetail.applicationId st = Some app_id →
       select_task user id db = Some old →
       task_application_id old = app_id
       ∨ is_Some (db_applications db !! app_id) →
       (TaskDetail.handleUpdate user id now db st).1.1
       = [toast_success "Task updated successfully"]
       ∧ db_tasks (TaskDetail.handleUpdate user id now db st).2 !! id
         = Some {| task_application_id := app_id;
                   task_user_id := task_user_id old;
                   task_title := trim (TaskDetail.title st);
                   task_due_date := TaskDetail.dueDate st;
                   task_completed := TaskDetail.completed st;
                   task_notes := or_null (trim (TaskDetail.notes st));
                   task_created_at := task_created_at old;
                   task_updated_at := now |}
       ∧ TaskDetail.task (TaskDetail.handleUpdate user id now db st).1.2
         = db_tasks (TaskDetail.handleUpdate user id now db st).2 !! id
           ≫= λ t, Some (id, t)).
Proof.
  split; [|split; [|split]].
  - destruct (taskdetail_handleUpdate_store user id now db st)
      as [->|(old & app_id & Hsel & _ & ->)]; [done|].
    apply select_task_Some in Hsel as [Hold _]. simpl.
    by apply dom_insert_lookup_L.
  - by destruct (taskdetail_handleUpdate_store user id now db st)
      as [->|(old & app_id & _ & _ & ->)].
  - intros i t Hi.
    destruct (taskdetail_handleUpdate_store user id now db st)
      as [->|(old & app_id & Hsel & _ & ->)]; [by exists t|].
    apply select_task_Some in Hsel as [Hold _]. simpl.
    destruct (decide (id = i)) as [<-|Hne].
    + rewrite lookup_insert_eq. rewrite Hold in Hi. injection Hi as <-.
      eexists. split; [done|]. by repeat split.
    + rewrite lookup_insert_ne by done. by exists t.
  - intros old app_id Hissues Hstor Hdate Happ Hsel Hfk.
    rewrite (taskdetail_handleUpdate_success user id now db st old app_id)
      by done.
    cbn [fst snd TaskDetail.task]. simpl. by rewrite lookup_insert_eq.
Qed.

Lemma update_task_frame_witness :
  db_tasks (TaskDetail.handleUpdate (Some alice) 20%N 300%Z sample_db
              (task_detail_form " Call again " (Some 10%N))).2 !! 20%N
  = Some {| task_application_id := 10%N; task_user_id := alice;
            task_title := js "Call again"; task_due_date := None;
            task_completed := false; task_notes := None;
            task_created_at := 130; task_updated_at := 300 |}.
Proof.
  refine (proj1 (proj2 (proj2 (proj2 (proj2
            (update_task_frame (Some alice) 20%N 300%Z sample_db
               (task_detail_form " Call again " (Some 10%N)))))
            call_back 10%N _ _ _ _ _ _))).
  - reflexivity.
  - by repeat constructor.
  - reflexivity.
  - reflexivity.
  - reflexivity.
  - left. reflexivity.
Defined.

(** X5.  Delete-Task removes the task of the given id when the caller owns
    it, and nothing else: every other task and every application is left
    as it was.  On an id the caller does not own, or that does not exist,
    the store is unchanged.  Either way the page reports success and
    leaves, and a Get-Task of that id afterwards answers not found. *)
Theorem delete_task_removes_only_that_task
    (user : option uuid) (id : uuid) (db : DB) (st : TaskDetail.State) :
  (TaskDetail.handleDelete user id db st).1
  = ([toast_success "Task deleted successfully"; navigate "/tasks"], st)
  ∧ db_applications (TaskDetail.handleDelete user id db st).2
    = db_applications db
  ∧ (∀ i, i ≠ id →
       db_tasks (TaskDetail.handleDelete user id db st).2 !! i
       = db_tasks db !! i)
  ∧ (is_Some (select_task user id db) →
     db_tasks (TaskDetail.handleDelete user id db st).2 !! id = None)
  ∧ (select_task user id db = None →
     (TaskDetail.handleDelete user id db st).2 = db)
  ∧ (∀ st', TaskDetail.fetchTask user id
              (TaskDetail.handleDelete user id db st).2 st'
            = (task_not_found, st')).
Proof.
  unfold TaskDetail.handleDelete, delete_task.
  destruct (visible_tasks user db !! id) as [old|] eqn:Hsel; simpl.
  - split; [done|]. split; [done|].
    split. { intros i Hi. by rewrite lookup_delete_ne. }
    split. { intros _. apply lookup_delete_eq. }
    split. { unfold select_task. by rewrite Hsel. }
    intros st'. unfold TaskDetail.fetchTask.
    assert (select_task user id
              (with_tasks db (delete id (db_tasks db))) = None) as ->; [|done].
    apply select_task_None. intros r. simpl. by rewrite lookup_delete_eq.
  - split; [done|]. split; [done|]. split; [done|].
    split. { unfold select_task. rewrite Hsel. by intros [? [=]]. }
    split; [done|].
    intros st'. unfold TaskDetail.fetchTask, select_task. by rewrite Hsel.
Qed.

Lemma delete_task_removes_only_that_task_witness :
  db_tasks (TaskDetail.handleDelete (Some alice) 20%N sample_db
              TaskDetail.initial).2 !! 20%N = None
  ∧ (TaskDetail.handleDelete (Some bob) 20%N sample_db TaskDetail.initial).2
    = sample_db.
Proof.
  split.
  - apply (delete_task_removes_only_that_task (Some alice) 20%N sample_db
             TaskDetail.initial). by eexists.
  - apply (delete_task_removes_only_that_task (Some bob) 20%N sample_db
             TaskDetail.initial). reflexivity.
Defined.



(** ** Toggling from the list *)
Section toggle_entry.

Lemma select_tasks_ids user db i :
  i ∈ tw_id <$> select_tasks_with_applications user db
  ↔ is_Some (select_task user i db).
Proof.
  rewrite list_elem_of_fmap. split.
  - intros (tw & -> & [Hsel _]%elem_of_select_tasks). by eexists.
  - intros [t Ht]. exists (embed_application user db (i, t)).
    split; [done|]. by apply elem_of_select_tasks.
Qed.

End toggle_entry.

(** X16.  Toggle-Task-Completed stores the negation of the completed value
    of the list entry it is given, not of the stored value.  For an entry
    of a task of the caller, the stored task gets that value and the time
    of the call as [updated_at], and keeps every other column; no other
    task and no application changes, and the reloaded list holds the same
    tasks.  So toggling an entry that is out of date (the stored value
    already differs from the entry's) leaves the stored value as it is. *)
Theorem toggle_stores_negated_entry
    (user : option uuid) (now : timestamptz) (t : task_with_application)
    (db : DB) (st : Tasks.State) (old : task_row) :
  select_task user (tw_id t) db = Some old →
  (Tasks.toggleComplete user now t db st).1.1 = []
  ∧ db_tasks (Tasks.toggleComplete user now t db st).2 !! tw_id t
    = Some {| task_application_id := task_application_id old;
              task_user_id := task_user_id old;
              task_title := task_title old;
              task_due_date := task_due_date old;
              task_completed := negb (task_completed (tw_task t));
              task_notes := task_notes old;
              task_created_at := task_created_at old;
              task_updated_at := now |}
  ∧ (∀ i, i ≠ tw_id t →
       db_tasks (Tasks.toggleComplete user now t db st).2 !! i
       = db_tasks db !! i)
  ∧ db_applications (Tasks.toggleComplete user now t db st).2
    = db_applications db
  ∧ tw_id <$> Tasks.tasks (Tasks.toggleComplete user now t db st).1.2
    ≡ₚ tw_id <$> Tasks.tasks (Tasks.fetchTasks user db st)
  ∧ (task_completed (tw_task t) ≠ task_completed old →
     task_completed
       <$> db_tasks (Tasks.toggleComplete user now t db st).2 !! tw_id t
     = Some (task_completed old)).
Proof.
  intros Hsel.
  pose proof (update_task_cases user (tw_id t) now (toggle_body t) db) as H.
  rewrite Hsel in H. simpl in H.
  rewrite bool_decide_eq_true_2 in H by done. simpl in H.
  unfold Tasks.toggleComplete. fold (toggle_body t). rewrite H.
  cbn [fst snd]. simpl.
  split; [done|]. split; [by rewrite lookup_insert_eq|].
  split. { intros i Hi. by rewrite lookup_insert_ne. }
  split; [done|]. split.
  - apply NoDup_Permutation; [apply select_tasks_NoDup..|].
    intros i. rewrite !select_tasks_ids.
    pose proof Hsel as [Hold Huser]%select_task_Some.
    split; intros [r Hr]; apply select_task_Some in Hr as [Hr Hu].
    + simpl in Hr. destruct (decide (tw_id t = i)) as [<-|Hne].
      * by eexists.
      * rewrite lookup_insert_ne in Hr by done. exists r.
        by apply select_task_Some.
    + destruct (decide (tw_id t = i)) as [<-|Hne].
      * eexists. apply select_task_Some. simpl.
        rewrite lookup_insert_eq. split; [done|]. exact Huser.
      * exists r. apply select_task_Some. simpl.
        by rewrite lookup_insert_ne.
  - intros Hstale. rewrite lookup_insert_eq. simpl. f_equal.
    by destruct (task_completed (tw_task t)), (task_completed old).
Qed.

Lemma toggle_stores_negated_entry_witness :
  task_completed
    <$> db_tasks
          (Tasks.toggleComplete (Some alice) 300%Z
             {| tw_id := 21%N; tw_task := call_back; tw_applications := None |}
             sample_db Tasks.initial).2 !! 21%N
  = Some true.
Proof.
  refine (proj2 (proj2 (proj2 (proj2 (proj2
            (toggle_stores_negated_entry (Some alice) 300%Z
               {| tw_id := 21%N; tw_task := call_back;
                  tw_applications := None |}
               sample_db Tasks.initial send_cv _))))) _).
  - reflexivity.
  - discriminate.
Defined.

(** ** The dashboard counts *)
Section dashboard.

Lemma size_map_filter {A} (P : uuid * A → Prop) `{!∀ x, Decision (P x)}
    (m : gmap uuid A) :
  size (filter P m) = List.length (filter P (map_to_list m)).
Proof.
  rewrite (map_filter_alt P m), <- length_map_to_list.
  rewrite map_to_list_to_map; [done|].
  eapply sublist_NoDup; [apply (NoDup_fst_map_to_list m)|].
  apply fmap_sublist, sublist_filter.
Qed.

Lemma length_filter_fmap {A B} (f : A → B) (Q : B → Prop)
    `{!∀ y, Decision (Q y)} (l : list A) :
  List.length (filter Q (f <$> l)) = List.length (filter (λ x, Q (f x)) l).
Proof.
  induction l as [|x l IH]; [done|].
  rewrite fmap_cons, !filter_cons.
  destruct (decide (Q (f x))); cbn [List.length]; by rewrite IH.
Qed.

Lemma length_select_tasks user db :
  List.length (select_tasks_with_applications user db)
  = size (visible_tasks user db).
Proof.
  unfold select_tasks_with_applications.
  by rewrite merge_sort_Permutation, length_fmap, length_map_to_list.
Qed.

End dashboard.

(** X7.  The dashboard counts what the lists show.  Total applications and
    total tasks are the lengths of the caller's applications list and tasks
    list; pending tasks is the number of listed tasks that are not
    completed, interview stage the number of listed applications whose
    status is "interview"; so neither exceeds its total. *)
Theorem dashboard_counts_the_lists
    (user : option uuid) (db : DB) (sa : Applications.State)
    (st : Tasks.State) :
  let stats := Dashboard.fetchStats user db in
  let apps := Applications.applications
                (Applications.fetchApplications user db sa) in
  let tasks := Tasks.tasks (Tasks.fetchTasks user db st) in
  Dashboard.totalApplications stats = List.length apps
  ∧ Dashboard.totalTasks stats = List.length tasks
  ∧ Dashboard.pendingTasks stats
    = List.length (filter (λ tw, task_completed (tw_task tw) = false) tasks)
  ∧ Dashboard.interviewStage stats
    = List.length (filter (λ kv, app_status kv.2 = js "interview") apps)
  ∧ (Dashboard.pendingTasks stats ≤ Dashboard.totalTasks stats)%nat
  ∧ (Dashboard.interviewStage stats ≤ Dashboard.totalApplications stats)%nat.
Proof.
  simpl.
  split; [by rewrite length_select_applications|].
  split; [by rewrite length_select_tasks|].
  split.
  { unfold select_tasks_with_applications.
    rewrite merge_sort_Permutation, length_filter_fmap.
    apply (size_map_filter (λ kv, task_completed kv.2 = false)). }
  split.
  { unfold select_applications. rewrite merge_sort_Permutation.
    apply (size_map_filter (λ kv, app_status kv.2 = js "interview")). }
  split; apply map_subseteq_size, map_filter_subseteq.
Qed.

(** ** Loading a record into its form and saving it back *)
Section load_and_save.

Lemma tidy_text_name_ok bound s :
  tidy_text bound s →
  trim s = s ∧ name_ok bound s = true ∧ storable_text (trim s) = true.
Proof.
  intros (Ht & Hlen & Hstor). pose proof (trimmed_fixed s Ht) as Hfix.
  split; [done|]. unfold name_ok. rewrite Hfix. split; [|done].
  apply andb_true_iff. rewrite !Nat.leb_le. lia.
Qed.

Lemma tidy_notes_round_trip notes :
  tidy_notes notes →
  or_null (trim (or_empty notes)) = notes ∧ notes_ok (or_empty notes) = true
  ∧ storable_text (trim (or_empty notes)) = true.
Proof.
  destruct notes as [s|]; simpl.
  - intros (Ht & Hlen & Hstor). pose proof (trimmed_fixed s Ht) as Hfix.
    destruct s as [|ch s]; simpl in *; [lia|].
    rewrite Hfix. split; [done|]. split; [|done].
    unfold notes_ok. apply Nat.leb_le. simpl. lia.
  - done.
Qed.

Lemma application_issues_tidy c p n :
  name_ok 100 c = true → name_ok 100 p = true → notes_ok n = true →
  Zod.issues applicationSchema (application_object c p n) = [].
Proof.
  intros Hc Hp Hn. apply application_issues_nil.
  unfold first_violated_field. by rewrite Hc, Hp, Hn.
Qed.

Lemma task_issues_tidy t n :
  name_ok 200 t = true → notes_ok n = true →
  Zod.issues taskSchema (task_object t n) = [].
Proof.
  intros Ht Hn. rewrite task_issues.
  apply (proj2 (name_issues_nil "title" "Title is required" 200 t)) in Ht.
  apply (proj2 (notes_issues_nil n)) in Hn. by rewrite Ht, Hn.
Qed.

End load_and_save.

(** X12.  Saving a record right after loading it changes nothing but
    [updated_at].  For an application of the caller whose text is as the
    forms leave it in the store (tidy, which includes that the storage
    holds it) and whose status is one of the four, Get-Application followed
    by Update-Application with the loaded form succeeds and stores the same
    record with [updated_at] set to the time of the call; the same holds
    for Get-Task followed by Update-Task of a tidy task. *)
Theorem load_then_save_only_stamps
    (user : option uuid) (id : uuid) (now : timestamptz) (db : DB) :
  (∀ (st : ApplicationDetail.State) r,
     select_application user id db = Some r →
     tidy_application r → valid_status (app_status r) = true →
     ApplicationDetail.handleUpdate user id now db
       (ApplicationDetail.fetchApplication user id db st).2
     = ([toast_success "Application updated successfully"],
        {| ApplicationDetail.application :=
             Some (id, update_applications_updated_at now r);
           ApplicationDetail.company := app_company r;
           ApplicationDetail.position := app_position r;
           ApplicationDetail.status := app_status r;
           ApplicationDetail.notes := or_empty (app_notes r) |},
        with_applications db
          (<[id := update_applications_updated_at now r]>
             (db_applications db))))
  ∧ (∀ (st : TaskDetail.State) t,
       select_task user id db = Some t → tidy_task t →
       TaskDetail.handleUpdate user id now db
         (TaskDetail.fetchTask user id db st).2
       = ([toast_success "Task updated successfully"],
          {| TaskDetail.task := Some (id, update_tasks_updated_at now t);
             TaskDetail.applications := TaskDetail.applications st;
             TaskDetail.title := task_title t;
             TaskDetail.applicationId := Some (task_application_id t);
             TaskDetail.dueDate := task_due_date t;
             TaskDetail.completed := task_completed t;
             TaskDetail.notes := or_empty (task_notes t) |},
          with_tasks db
            (<[id := update_tasks_updated_at now t]> (db_tasks db)))).
Proof.
  split.
  - intros st r Hsel (Hc & Hp & Hn) Hvalid.
    apply tidy_text_name_ok in Hc as (Hc & Hcok & Hcs).
    apply tidy_text_name_ok in Hp as (Hp & Hpok & Hps).
    apply tidy_notes_round_trip in Hn as (Hn & Hnok & Hns).
    unfold ApplicationDetail.fetchApplication. rewrite Hsel. cbn [snd].
    unfold ApplicationDetail.handleUpdate.
    cbn [ApplicationDetail.company ApplicationDetail.position
         ApplicationDetail.notes ApplicationDetail.status].
    rewrite application_issues_tidy by done.
    pose proof (proj2 (application_update_body_storable (app_company r)
                         (app_position r) (app_status r)
                         (or_empty (app_notes r)))
                  (conj (proj2 (storable_input_3 _ _ _)
                           (conj Hcs (conj Hps Hns)))
                        (valid_status_storable _ Hvalid))) as Hbody.
    rewrite Hc, Hp, Hn in Hbody |- *.
    pose proof (update_application_cases user id now
                  {| upd_company := app_company r;
                     upd_position := app_position r;
                     upd_status := app_status r;
                     upd_notes := app_notes r |} db) as H.
    rewrite Hsel, Hbody in H. cbn [upd_status] in H. rewrite Hvalid in H.
    rewrite H.
    assert (updated_application r now
              {| upd_company := app_company r;
                 upd_position := app_position r;
                 upd_status := app_status r;
                 upd_notes := app_notes r |}
            = update_applications_updated_at now r) as -> by done.
    assert (select_application user id
              (with_applications db
                 (<[id := update_applications_updated_at now r]>
                    (db_applications db)))
            = Some (update_applications_updated_at now r)) as Hsel'.
    { apply select_application_Some. simpl. rewrite lookup_insert_eq.
      split; [done|]. by apply select_application_Some in Hsel as [_ ?]. }
    unfold ApplicationDetail.fetchApplication. by rewrite Hsel'.
  - intros st t Hsel (Ht & Hn & Hd).
    apply tidy_text_name_ok in Ht as (Ht & Htok & Hts).
    apply tidy_notes_round_trip in Hn as (Hn & Hnok & Hns).
    unfold TaskDetail.fetchTask at 1. rewrite Hsel. cbn [snd].
    rewrite (taskdetail_handleUpdate_success user id now db _ t
               (task_application_id t));
      [|by apply task_issues_tidy|by apply storable_input_2
       |done|done|done|by left].
    unfold update_task_body.
    cbn [TaskDetail.title TaskDetail.notes TaskDetail.dueDate
         TaskDetail.completed TaskDetail.applications].
    rewrite Ht, Hn.
    assert (updated_task t now
              {| tupd_title := Some (task_title t);
                 tupd_application_id := Some (task_application_id t);
                 tupd_due_date := Some (task_due_date t);
                 tupd_completed := Some (task_completed t);
                 tupd_notes := Some (task_notes t) |}
            = update_tasks_updated_at now t) as -> by done.
    done.
Qed.

Lemma load_then_save_only_stamps_witness :
  ApplicationDetail.handleUpdate (Some alice) 10%N 300%Z sample_db
    (ApplicationDetail.fetchApplication (Some alice) 10%N sample_db
       ApplicationDetail.initial).2
  = ([toast_success "Application updated successfully"],
     {| ApplicationDetail.application :=
          Some (10%N, update_applications_updated_at 300%Z acme);
        ApplicationDetail.company := app_company acme;
        ApplicationDetail.position := app_position acme;
        ApplicationDetail.status := app_status acme;
        ApplicationDetail.notes := or_empty (app_notes acme) |},
     with_applications sample_db
       (<[10%N := update_applications_updated_at 300%Z acme]>
          (db_applications sample_db))).
Proof.
  refine (proj1 (load_then_save_only_stamps (Some alice) 10%N 300%Z sample_db)
            ApplicationDetail.initial acme _ _ _).
  - reflexivity.
  - repeat split;
      first [ exact (trim_trimmed (js "Acme"))
            | exact (trim_trimmed (js "Engineer"))
            | reflexivity
            | vm_compute; lia ].
  - reflexivity.
Defined.

(** X13.  A parent picked from the application picker is an application of
    the caller.  When the selected application is an entry of the picker
    the Tasks page loads, a valid Create-Task of a signed-up caller, with
    text the storage can hold (no U+0000, no unpaired surrogate) and a due
    date in the range of the column, succeeds, the task and its parent have
    the same owner, and the reloaded tasks list shows the task with the
    company and position the picker showed. *)
Theorem picked_parent_is_owned
    (owner new_id app_id : uuid) (now : timestamptz) (db : DB)
    (st : Tasks.State) (company position : jsstring) :
  (app_id, company, position)
  ∈ Tasks.applications (Tasks.fetchApplications (Some owner) db st) →
  Tasks.applicationId st = Some app_id →
  Zod.issues taskSchema (task_object (Tasks.title st) (Tasks.notes st)) = [] →
  storable_input [Tasks.title st; Tasks.notes st] →
  storable_date (Tasks.dueDate st) = true →
  owner ∈ db_profiles db →
  db_tasks db !! new_id = None →
  (Tasks.handleSubmit (Some owner) new_id now db st).1.1
  = [toast_success "Task created successfully"]
  ∧ ∃ t a,
      db_tasks (Tasks.handleSubmit (Some owner) new_id now db st).2 !! new_id
      = Some t
      ∧ db_applications (Tasks.handleSubmit (Some owner) new_id now db st).2
          !! task_application_id t = Some a
      ∧ task_application_id t = app_id
      ∧ task_user_id t = owner ∧ app_user_id a = owner
      ∧ {| tw_id := new_id; tw_task := t;
           tw_applications := Some (company, position) |}
        ∈ Tasks.tasks (Tasks.handleSubmit (Some owner) new_id now db st).1.2.
Proof.
  intros Hpicked Happ Hissues Hstor Hdate Hprofile Hfresh.
  apply elem_of_select_application_summaries in Hpicked
    as (a & Ha & [= Howner] & -> & ->).
  pose proof (tasks_handleSubmit_cases (Some owner) new_id now db st) as H.
  rewrite Hissues, Happ in H.
  destruct (insert_task _ _ _ _ _) as [e|db'] eqn:E.
  { exfalso.
    assert (∃ db', insert_task (Some owner) new_id now
                     (create_task_body (Some owner) app_id st) db = inr db')
      as [db' Hdb'].
    { eexists. apply insert_task_inr.
      split; [by apply task_insert_body_storable|].
      exists owner. by repeat split. }
    congruence. }
  destruct H as [Heff Hdb]. split; [done|].
  pose proof E as (_ & o & [= <-] & _ & _ & _ & _ & Hdb')%insert_task_inr.
  exists (inserted_task owner now (create_task_body (Some owner) app_id st)), a.
  rewrite Hdb, Hdb'. simpl. rewrite lookup_insert_eq.
  split; [done|]. split; [done|]. split; [done|]. split; [done|].
  split; [done|].
  unfold Tasks.handleSubmit. rewrite Hissues, Happ.
  fold (create_task_body (Some owner) app_id st). rewrite E. cbn [fst snd].
  apply (elem_of_select_tasks (Some owner) db'). simpl. split.
  - apply select_task_Some. rewrite Hdb'. simpl. by rewrite lookup_insert_eq.
  - assert (select_application (Some owner) app_id db' = Some a) as ->; [|done].
    apply select_application_Some. rewrite Hdb'. simpl.
    split; [done|]. by rewrite Howner.
Qed.

Lemma picked_parent_is_owned_witness :
  (Tasks.handleSubmit (Some alice) 23%N 200%Z sample_db
     (task_form "Follow up" (Some 10%N))).1.1
  = [toast_success "Task created successfully"].
Proof.
  refine (proj1 (picked_parent_is_owned alice 23%N 10%N 200%Z sample_db
                   (task_form "Follow up" (Some 10%N))
                   (js "Acme") (js "Engineer") _ _ _ _ _ _ _)).
  - vm_compute. left.
  - reflexivity.
  - reflexivity.
  - by repeat constructor.
  - reflexivity.
  - apply (bool_decide_unpack _). by vm_compute.
  - reflexivity.
Defined.

(** X14.  A created application shows up in the list.  Whenever
    Create-Application reports success, the reloaded list of the page holds
    the new record (the form's fields normalised, the caller as owner)
    together with every application the caller had, one entry more than
    before, and the form is cleared with the status back to "applied". *)
Theorem created_application_is_listed
    (owner new_id : uuid) (now : timestamptz) (db : DB)
    (st : Applications.State) :
  (Applications.handleSubmit (Some owner) new_id now db st).1.1
  = [toast_success "Application created successfully"] →
  let after := (Applications.handleSubmit (Some owner) new_id now db st).1.2 in
  let before := Applications.fetchApplications (Some owner) db st in
  (∀ i r, (i, r) ∈ Applications.applications after ↔
          (i, r) = (new_id, created_application owner now st)
          ∨ (i, r) ∈ Applications.applications before)
  ∧ List.length (Applications.applications after)
    = S (List.length (Applications.applications before))
  ∧ Applications.company after = [] ∧ Applications.position after = []
  ∧ Applications.status after = js "applied"
  ∧ Applications.notes after = [].
Proof.
  intros Hsuccess after before. subst after before.
  revert Hsuccess. unfold Applications.handleSubmit.
  destruct (Zod.issues _ _) as [|issue rest]; [|done].
  destruct (insert_application _ _ _ _ _) as [e|db'] eqn:E; [done|].
  intros _.
  apply insert_application_inr in E
    as (_ & o & [= <-] & _ & _ & Hfresh & _ & ->).
  assert (inserted_application owner now
            {| ins_user_id := Some owner;
               ins_company := trim (Applications.company st);
               ins_position := trim (Applications.position st);
               ins_status := Some (Applications.status st);
               ins_notes := or_null (trim (Applications.notes st)) |}
          = created_application owner now st) as -> by reflexivity.
  cbn [fst snd Applications.fetchApplications Applications.applications
       Applications.company Applications.position Applications.status
       Applications.notes].
  split; [|split; [|done]].
  - intros i r. rewrite !elem_of_select_applications. simpl.
    destruct (decide (new_id = i)) as [<-|Hne].
    + rewrite lookup_insert_eq, Hfresh. split.
      * intros [[= <-] _]. by left.
      * intros [Heq|[? _]]; [|done]. by injection Heq as ->.
    + rewrite lookup_insert_ne by done. split; [by right|].
      intros [Heq|?]; [|done]. by injection Heq as ? ?.
  - rewrite !length_select_applications.
    unfold visible_applications. simpl.
    rewrite map_filter_insert_True
      by (simpl; unfold users_own_application;
          by apply bool_decide_eq_true).
    rewrite map_size_insert_None; [done|].
    apply map_lookup_filter_None. by left.
Qed.

Lemma created_application_is_listed_witness :
  List.length
    (Applications.applications
       (Applications.handleSubmit (Some alice) 12%N 200%Z sample_db
          padded_form).1.2)
  = S (List.length
         (Applications.applications
            (Applications.fetchApplications (Some alice) sample_db
               padded_form))).
Proof.
  refine (proj1 (proj2 (created_application_is_listed alice 12%N 200%Z
                          sample_db padded_form _))).
  reflexivity.
Defined.

(** X15.  A deleted application is gone from every view of the caller.
    After a Delete-Application that went through, Get-Application of the id
    answers not found, the applications list holds the other applications
    of the caller and nothing else, the tasks list holds the caller's tasks
    of the other applications, unchanged, and Get-Task of a task that
    referenced the application answers not found for everybody. *)
Theorem deleted_application_is_gone
    (user : option uuid) (id : uuid) (db : DB) (st : ApplicationDetail.State) :
  is_Some (select_application user id db) →
  let db' := (ApplicationDetail.handleDelete user None id db st).2 in
  (∀ anyone st', ApplicationDetail.fetchApplication anyone id db' st'
                 = (application_not_found, st'))
  ∧ (∀ sa i r,
       (i, r) ∈ Applications.applications
                  (Applications.fetchApplications user db' sa)
       ↔ (i, r) ∈ Applications.applications
                    (Applications.fetchApplications user db sa)
         ∧ i ≠ id)
  ∧ (∀ st' tw,
       tw ∈ Tasks.tasks (Tasks.fetchTasks user db' st')
       ↔ tw ∈ Tasks.tasks (Tasks.fetchTasks user db st')
         ∧ task_application_id (tw_task tw) ≠ id)
  ∧ (∀ anyone i t st',
       db_tasks db !! i = Some t → task_application_id t = id →
       TaskDetail.fetchTask anyone i db' st' = (task_not_found, st')).
Proof.
  intros Hsel db'. subst db'.
  unfold ApplicationDetail.handleDelete.
  pose proof (delete_application_cases user None id db) as Hdone.
  destruct Hsel as [a Hsel]. rewrite Hsel in Hdone.
  destruct Hdone as [[_ ->]|[Hno _]]; [|by destruct Hno].
  cbn [snd].
  split; [|split; [|split]].
  - intros anyone st'. unfold ApplicationDetail.fetchApplication.
    assert (select_application anyone id (deleted id db) = None) as ->; [|done].
    apply select_application_None. intros r. simpl.
    by rewrite lookup_delete_eq.
  - intros sa i r. simpl. rewrite !elem_of_select_applications. simpl.
    destruct (decide (id = i)) as [<-|Hne].
    + rewrite lookup_delete_eq. split; [by intros [? _]|by intros [_ ?]].
    + rewrite lookup_delete_ne by done. split; [|by intros [? _]].
      intros ?. split; [done|]. by intros ->.
  - intros st' tw. simpl. rewrite !elem_of_select_tasks, !select_task_Some.
    simpl. rewrite map_lookup_filter_Some. simpl.
    unfold select_application, visible_applications. simpl.
    split.
    + intros [[[Htw Hne] Hu] Happ]. split; [|done]. split; [done|].
      rewrite Happ. f_equal.
      rewrite !map_lookup_filter. by rewrite lookup_delete_ne.
    + intros [[[Htw Hu] Happ] Hne]. split; [done|].
      rewrite Happ. f_equal.
      rewrite !map_lookup_filter. by rewrite lookup_delete_ne.
  - intros anyone i t st' Ht Hid. unfold TaskDetail.fetchTask.
    assert (select_task anyone i (deleted id db) = None) as ->; [|done].
    apply select_task_None. intros r [Hr Hne]%map_lookup_filter_Some.
    simpl in *. congruence.
Qed.

Lemma deleted_application_is_gone_witness :
  ApplicationDetail.fetchApplication (Some alice) 10%N
    (ApplicationDetail.handleDelete (Some alice) None 10%N sample_db
       ApplicationDetail.initial).2 ApplicationDetail.initial
  = (application_not_found, ApplicationDetail.initial).
Proof.
  refine (proj1 (deleted_application_is_gone (Some alice) 10%N sample_db
                   ApplicationDetail.initial _) (Some alice)
            ApplicationDetail.initial).
  by eexists.
Defined.

(** X17.  Create-Application and Create-Task report success exactly when
    the record was stored, and that is exactly when the form is valid, its
    trimmed text is text the storage can hold (no U+0000, no unpaired
    surrogate), the status is one of the four (for a task: the due date is
    in the range of the column and the parent application exists), the
    caller is signed in with a profile and the new id is free.  In every
    other case the handler shows an error, and the page state and the store
    are left as they were. *)
Theorem create_succeeds_exactly_when
    (user : option uuid) (new_id : uuid) (now : timestamptz) (db : DB) :
  (∀ st : Applications.State,
     ((Applications.handleSubmit user new_id now db st).1.1
      = [toast_success "Application created successfully"]
      ↔ application_creatable user new_id db st)
     ∧ (application_creatable user new_id db st →
        is_Some (db_applications
                   (Applications.handleSubmit user new_id now db st).2
                   !! new_id))
     ∧ (¬ application_creatable user new_id db st →
        ∃ message,
          Applications.handleSubmit user new_id now db st
          = ([toast_error message], st, db)))
  ∧ (∀ st : Tasks.State,
       ((Tasks.handleSubmit user new_id now db st).1.1
        = [toast_success "Task created successfully"]
        ↔ task_creatable user new_id db st)
       ∧ (task_creatable user new_id db st →
          is_Some (db_tasks (Tasks.handleSubmit user new_id now db st).2
                     !! new_id))
       ∧ (¬ task_creatable user new_id db st →
          ∃ message,
            Tasks.handleSubmit user new_id now db st
            = ([toast_error message], st, db))).
Proof.
  split.
  - intros st.
    assert (application_creatable user new_id db st
            ↔ Zod.issues applicationSchema
                (application_object (Applications.company st)
                   (Applications.position st) (Applications.notes st)) = []
              ∧ ∃ db', insert_application user new_id now
                         {| ins_user_id := user;
                            ins_company := trim (Applications.company st);
                            ins_position := trim (Applications.position st);
                            ins_status := Some (Applications.status st);
                            ins_notes :=
                              or_null (trim (Applications.notes st)) |} db
                       = inr db') as Hiff.
    { unfold application_creatable. split.
      - intros (Hi & Hs & Hv & (owner & -> & Hp) & Hf). split; [done|].
        eexists. apply insert_application_inr. split.
        + apply application_insert_body_storable.
          split; [done|]. by apply valid_status_storable.
        + exists owner. by repeat split.
      - intros (Hi & db'
                & (Hbody & owner & Hu & -> & Hv & Hf & Hp & _)%insert_application_inr).
        apply application_insert_body_storable in Hbody as [Hs _].
        split; [done|]. split; [done|]. split; [done|].
        split; [by exists owner|done]. }
    unfold Applications.handleSubmit.
    destruct (Zod.issues _ _) as [|issue rest] eqn:Hissues.
    + destruct (insert_application _ _ _ _ _) as [e|db'] eqn:E.
      * split; [|split].
        -- split; [done|]. intros (_ & db' & [=])%Hiff.
        -- intros (_ & db' & [=])%Hiff.
        -- intros _. by eexists.
      * assert (application_creatable user new_id db st) as Hok.
        { apply Hiff. split; [done|]. by exists db'. }
        split; [|split]; [done| |done].
        intros _.
        apply insert_application_inr in E
          as (_ & o & _ & _ & _ & _ & _ & ->).
        simpl. rewrite lookup_insert_eq. by eexists.
    + split; [|split].
      * split; [done|]. by intros ([=] & _)%Hiff.
      * by intros ([=] & _)%Hiff.
      * intros _. by eexists.
  - intros st.
    pose proof (tasks_handleSubmit_cases user new_id now db st) as H.
    assert (task_creatable user new_id db st
            ↔ Zod.issues taskSchema
                (task_object (Tasks.title st) (Tasks.notes st)) = []
              ∧ ∃ app_id,
                  Tasks.applicationId st = Some app_id
                  ∧ ∃ db', insert_task user new_id now
                             (create_task_body user app_id st) db
                           = inr db') as Hiff.
    { unfold task_creatable. split.
      - intros (Hi & Hs & Hd & (a & Ha & Hex) & (owner & -> & Hp) & Hf).
        split; [done|]. exists a. split; [done|]. eexists.
        apply insert_task_inr.
        split; [by apply task_insert_body_storable|].
        exists owner. by repeat split.
      - intros (Hi & a & Ha & db'
                & (Hbody & owner & Hu & -> & Hf & Hp & Hex & _)%insert_task_inr).
        apply task_insert_body_storable in Hbody as [Hs Hd].
        split; [done|]. split; [done|]. split; [done|].
        split; [by exists a|]. split; [by exists owner|done]. }
    destruct (Zod.issues _ _) as [|issue rest] eqn:Hissues.
    2:{ rewrite H. split; [|split].
        - split; [done|]. by intros ([=] & _)%Hiff.
        - by intros ([=] & _)%Hiff.
        - intros _. by eexists. }
    destruct (Tasks.applicationId st) as [app_id|] eqn:Happ.
    2:{ rewrite H. split; [|split].
        - split; [done|]. by intros (_ & ? & [=] & _)%Hiff.
        - by intros (_ & ? & [=] & _)%Hiff.
        - intros _. by eexists. }
    destruct (insert_task _ _ _ _ _) as [e|db'] eqn:E.
    + rewrite H. split; [|split].
      * split; [done|].
        intros (_ & a & [= <-] & db' & Hdb')%Hiff. congruence.
      * intros (_ & a & [= <-] & db' & Hdb')%Hiff. congruence.
      * intros _. by eexists.
    + destruct H as [Heff Hdb]. rewrite Heff, Hdb.
      assert (task_creatable user new_id db st) as Hok.
      { apply Hiff. split; [done|]. exists app_id. split; [done|].
        by exists db'. }
      split; [|split]; [done| |done].
      intros _.
      apply insert_task_inr in E as (_ & o & _ & _ & _ & _ & _ & ->).
      simpl. rewrite lookup_insert_eq. by eexists.
Qed.

Lemma create_succeeds_exactly_when_witness :
  (Applications.handleSubmit (Some alice) 12%N 200%Z sample_db padded_form).1.1
  = [toast_success "Application created successfully"]
  ∧ ∃ message,
      Tasks.handleSubmit (Some alice) 20%N 200%Z sample_db
        (task_form "Follow up" (Some 10%N))
      = ([toast_error message], task_form "Follow up" (Some 10%N), sample_db).
Proof.
  split.
  - apply (create_succeeds_exactly_when (Some alice) 12%N 200%Z sample_db).
    split; [reflexivity|]. split; [by repeat constructor|].
    split; [reflexivity|]. split; [|reflexivity].
    exists alice. split; [reflexivity|].
    apply (bool_decide_unpack _). by vm_compute.
  - apply (create_succeeds_exactly_when (Some alice) 20%N 200%Z sample_db).
    intros (_ & _ & _ & _ & _ & Htaken). discriminate Htaken.
Defined.
